(** * Zerodha-pooler: chunked, rate-limited retrieval and persistence

    A shallow embedding of the Go packages [internal/kite],
    [internal/storage] and [internal/cli], together with the properties of
    the chunker, the interval calendar, the storage backends and the
    fetching loop.

    Conventions.
    - A Go [time.Time] is the integer number of nanoseconds since the Unix
      epoch (UTC); a [time.Duration] is an integer number of nanoseconds.
      The range of [time.Time] (hundreds of billions of years) is far
      beyond any instant handled here, so instants are unbounded integers.
    - A Go [int] is a [Z]; no arithmetic in the modelled code comes near
      the 64-bit bounds.
    - A Go [float64] is its 64-bit IEEE 754 pattern.
    - Functions with effects take the state of the outside world and
      return the new one.
    - The packages [time], [context], [os], [path/filepath],
      [encoding/json], [encoding/csv], [database/sql] with the drivers
      go-duckdb and go-sqlite3, and [golang.org/x/time/rate] are not part
      of the repository: they are modelled from their documentation, as
      far as the code uses them. *)

From Stdlib Require Import ZArith Lia.
From stdpp Require Import base option list strings gmap.

Local Open Scope Z_scope.

(** ** The Go [time] package, as far as the program uses it *)

Module GoTime.

Definition Time : Type := Z.
Definition Duration : Type := Z.

Definition Nanosecond : Duration := 1.
Definition Second : Duration := 1000000000 * Nanosecond.
Definition Minute : Duration := 60 * Second.
Definition Hour : Duration := 60 * Minute.

(** [t.Add(d)], [t.Before(u)], [t.After(u)]. *)
Definition Add (t : Time) (d : Duration) : Time := t + d.
Definition Before (t u : Time) : bool := t <? u.
Definition After (t u : Time) : bool := u <? t.

(** Days between 1970-01-01 and the civil date [y]-[m]-[d] in the
    proleptic Gregorian calendar. *)
Definition daysFromCivil (y m d : Z) : Z :=
  let y' := if m <=? 2 then y - 1 else y in
  let era := y' / 400 in
  let yoe := y' - era * 400 in
  let mp := if m <=? 2 then m + 9 else m - 3 in
  let doy := (153 * mp + 2) / 5 + d - 1 in
  let doe := yoe * 365 + yoe / 4 - yoe / 100 + doy in
  era * 146097 + doe - 719468.

(** [time.Parse("2006-01-02", s)] for a well-formed [s]: midnight UTC
    of that calendar date. *)
Definition ParseDate (y m d : Z) : Time :=
  daysFromCivil y m d * (24 * Hour).

End GoTime.

(** ** The [context] package and [golang.org/x/time/rate] *)

Module Context.
Import GoTime.

(** A context is known by the instant at which it is cancelled, if it
    ever is. *)
Record Context : Type := mkContext { cancelAt : option Time }.

(** [context.Background()] is never cancelled. *)
Definition Background : Context := {| cancelAt := None |}.

(** [ctx.Done()] is closed at instant [t]. *)
Definition done (ctx : Context) (t : Time) : bool :=
  match cancelAt ctx with
  | Some c => c <=? t
  | None => false
  end.

End Context.

Module Rate.
Import GoTime.

(** A token bucket of [limit] events per second and capacity [burst].
    For the capacity the client uses (one), the state of the bucket is
    the instant [nextFree] at which the next token is there. *)
Record Limiter : Type := mkLimiter {
  limit : Z;
  burst : Z;
  nextFree : Time
}.

Inductive WaitError : Type :=
| ErrExceedsBurst     (* "Wait(n=1) exceeds limiter's burst" *)
| ErrCanceled.        (* the error of the cancelled context *)

(** A new limiter has a full bucket. *)
Definition NewLimiter (r b : Z) : Limiter :=
  {| limit := r; burst := b; nextFree := 0 |}.

(** [lim.Wait(ctx)] called at instant [now]: the error if any, the
    instant at which the call returns, and the limiter afterwards.  The
    call returns at once with an error when one event exceeds the burst
    or the context is already cancelled; otherwise it sleeps until the
    token is there, or until the context is cancelled if that comes
    first, in which case the reservation is given back. *)
Definition Wait (lim : Limiter) (ctx : Context.Context) (now : Time)
    : option WaitError * Time * Limiter :=
  if burst lim <? 1 then (Some ErrExceedsBurst, now, lim)
  else if Context.done ctx now then (Some ErrCanceled, now, lim)
  else
    let grant := Z.max now (nextFree lim) in
    match Context.cancelAt ctx with
    | Some c =>
        if c <? grant then (Some ErrCanceled, c, lim)
        else (None, grant,
              {| limit := limit lim; burst := burst lim;
                 nextFree := grant + Second / limit lim |})
    | None =>
        (None, grant,
         {| limit := limit lim; burst := burst lim;
            nextFree := grant + Second / limit lim |})
    end.

End Rate.

(** ** Types of the gokiteconnect library *)

Module Kiteconnect.

(** A [float64], by its bit pattern. *)
Definition float64 : Type := Z.

(** Biased exponent of a [float64]: bits 52..62. *)
Definition exponentBits (f : float64) : Z := Z.land (Z.shiftr f 52) 2047.

(** NaN and the infinities have all exponent bits set. *)
Definition isFinite (f : float64) : bool := negb (exponentBits f =? 2047).

(** [kiteconnect.HistoricalData]: one OHLCV sample. *)
Record HistoricalData : Type := mkHistoricalData {
  Date : GoTime.Time;
  Open : float64;
  High : float64;
  Low : float64;
  Close : float64;
  Volume : Z;
  OI : Z
}.

End Kiteconnect.

(** ** Package [internal/kite]: interval calendar and chunker *)

Module Kite.
Import GoTime.

Definition IntradayMaxDays : Z := 60.
Definition DailyChunkDays : Z := 2000.

(** The map literal of [parseIntervalMinutes]. *)
Definition intervalMap : gmap string Z :=
  list_to_map
    [ ("minute", 1); ("3minute", 3); ("5minute", 5); ("10minute", 10);
      ("15minute", 15); ("30minute", 30); ("60minute", 60); ("hour", 60);
      ("day", 1440) ].

Definition parseIntervalMinutes (interval : string) : Z :=
  match intervalMap !! interval with
  | Some minutes => minutes
  | None => 1
  end.

Definition IsDailyOrLarger (interval : string) : bool :=
  1440 <=? parseIntervalMinutes interval.

(** A chunk is the Go array [[2]time.Time]: start and end. *)
Definition Chunk : Type := (Time * Time)%type.

Definition chunkSizeOf (interval : string) : Duration :=
  if IsDailyOrLarger interval
  then DailyChunkDays * 24 * Hour
  else IntradayMaxDays * 24 * Hour.

(** The [for currentStart.Before(to)] loop.  Every iteration appends one
    chunk to [chunks] and moves [currentStart] one second past the end of
    that chunk.  [fuel] bounds the number of iterations; [None] means the
    bound was too small. *)
Fixpoint chunkLoop (fuel : nat) (chunkSize : Duration) (to : Time)
    (chunks : list Chunk) (currentStart : Time) : option (list Chunk) :=
  if Before currentStart to then
    match fuel with
    | O => None
    | S fuel' =>
        let currentEnd := Add currentStart chunkSize in
        let currentEnd := if After currentEnd to then to else currentEnd in
        chunkLoop fuel' chunkSize to
          (chunks ++ [(currentStart, currentEnd)]) (Add currentEnd Second)
    end
  else Some chunks.

(** A number of iterations that is always enough: every iteration but
    the last advances [currentStart] by [chunkSize] plus one second. *)
Definition iterations (from to : Time) (chunkSize : Duration) : nat :=
  Z.to_nat ((to - from) / (chunkSize + Second) + 1).

Definition GenerateDateChunks (from to : Time) (interval : string)
    : list Chunk :=
  let chunkSize := chunkSizeOf interval in
  default [] (chunkLoop (iterations from to chunkSize) chunkSize to [] from).

(** *** Specification vocabulary for chunk sequences *)

(** End of the chunk that starts at [currentStart]: the body of the
    loop, named. *)
Definition chunkEnd (chunkSize : Duration) (to currentStart : Time) : Time :=
  if After (Add currentStart chunkSize) to then to
  else Add currentStart chunkSize.

(** [exactCover window to from chunks]: [chunks] is not empty, its first
    chunk starts at [from], every chunk is ordered and spans at most
    [window], every next chunk starts one second after the end of the one
    before, and the last chunk ends at [to]. *)
Fixpoint exactCover (window : Duration) (to from : Time)
    (chunks : list Chunk) : bool :=
  match chunks with
  | [] => false
  | (s, e) :: rest =>
      (s =? from) && (s <=? e) && (e - s <=? window) &&
      match rest with
      | [] => e =? to
      | _ :: _ => exactCover window to (e + Second) rest
      end
  end.

(** [t] lies in some chunk. *)
Definition covered (chunks : list Chunk) (t : Time) : Prop :=
  ∃ c : Chunk, c ∈ chunks ∧ c.1 <= t <= c.2.

(** Earlier chunks end strictly before later chunks start. *)
Definition nonOverlapping (chunks : list Chunk) : Prop :=
  ∀ (i j : nat) (a b : Chunk),
    (i < j)%nat → chunks !! i = Some a → chunks !! j = Some b → a.2 < b.1.

(** One calendar day. *)
Definition Day : Duration := 24 * Hour.

(** The interval tokens that [parseIntervalMinutes] knows. *)
Definition recognizedIntervals : list string :=
  ["minute"; "3minute"; "5minute"; "10minute"; "15minute"; "30minute";
   "60minute"; "hour"; "day"].

(** *** The client: rate limiter and historical-data fetch *)

Definition RateLimitRequestsPerSecond : Z := 3.
Definition RateLimitBurst : Z := 1.

(** [kc.GetHistoricalData]: the upstream API.  Its answer to the
    [calls]-th request is given by [respond]: an error message or the
    candle series. *)
Record Upstream : Type := mkUpstream {
  respond : nat → Z → string → Time → Time →
            string + list Kiteconnect.HistoricalData;
  calls : nat
}.

(** Everything a fetch touches: the clock, the signal by which the run
    can be cancelled from outside (a timeout or a user interrupt), the
    client's limiter and the upstream API. *)
Record World : Type := mkWorld {
  clock : Time;
  interrupt : Context.Context;
  limiter : Rate.Limiter;
  upstream : Upstream
}.

(** [NewClient] builds the limiter the client keeps for its lifetime. *)
Definition NewClient (w : World) : World :=
  {| clock := clock w;
     interrupt := interrupt w;
     limiter := Rate.NewLimiter RateLimitRequestsPerSecond RateLimitBurst;
     upstream := upstream w |}.

Inductive Error : Type :=
| RateLimiterError (cause : Rate.WaitError)   (* "rate limiter error: %v" *)
| APIError (cause : string).                  (* "API error: %v" *)

(** [Client.GetHistoricalData]: wait for a token on
    [context.Background()], then ask upstream. *)
Definition GetHistoricalData (w : World) (instrumentToken : Z)
    (interval : string) (from to : Time)
    : (Error + list Kiteconnect.HistoricalData) * World :=
  match Rate.Wait (limiter w) Context.Background (clock w) with
  | (Some err, returned, lim) =>
      (inl (RateLimiterError err),
       {| clock := returned; interrupt := interrupt w;
          limiter := lim; upstream := upstream w |})
  | (None, returned, lim) =>
      let answer :=
        respond (upstream w) (calls (upstream w))
          instrumentToken interval from to in
      let w' :=
        {| clock := returned; interrupt := interrupt w; limiter := lim;
           upstream := {| respond := respond (upstream w);
                          calls := S (calls (upstream w)) |} |} in
      match answer with
      | inl err => (inl (APIError err), w')
      | inr candles => (inr candles, w')
      end
  end.

(** The same world with another interrupt signal. *)
Definition withInterrupt (ctx : Context.Context) (w : World) : World :=
  {| clock := clock w; interrupt := ctx; limiter := limiter w;
     upstream := upstream w |}.

(** The instant at which the limiter grants the token to a fetch that
    starts now. *)
Definition ready (w : World) : Time :=
  Z.max (clock w) (Rate.nextFree (limiter w)).

(** The interrupt fires while the fetch waits for its token. *)
Definition cancelledWhileWaiting (w : World) : Prop :=
  ∃ c : Time, Context.cancelAt (interrupt w) = Some c ∧
              clock w <= c < ready w.

Definition isCancellation
    (r : Error + list Kiteconnect.HistoricalData) : Prop :=
  r = inl (RateLimiterError Rate.ErrCanceled).

End Kite.

(** ** Package [strings], as far as the program uses it *)

Module Strings.

(** The value of a byte. *)
Definition code (c : Ascii.ascii) : Z := Z.of_nat (Ascii.nat_of_ascii c).

(** The white space of [unicode.IsSpace], in UTF-8: the six ASCII
    characters, U+0085 and U+00A0, and the code points of the property
    White_Space above Latin-1. *)
Definition isSpace1 (b : Z) : bool :=
  ((9 <=? b) && (b <=? 13)) || (b =? 32).

Definition isSpace2 (b1 b2 : Z) : bool :=
  (b1 =? 194) && ((b2 =? 133) || (b2 =? 160)).

Definition isSpace3 (b1 b2 b3 : Z) : bool :=
  ((b1 =? 225) && (b2 =? 154) && (b3 =? 128))
  || ((b1 =? 226) && (b2 =? 128)
      && (((128 <=? b3) && (b3 <=? 138))
          || (b3 =? 168) || (b3 =? 169) || (b3 =? 175)))
  || ((b1 =? 226) && (b2 =? 129) && (b3 =? 159))
  || ((b1 =? 227) && (b2 =? 128) && (b3 =? 128)).

(** Strip one white-space code point from the front. *)
Definition leadingSpace (s : list Ascii.ascii) : option (list Ascii.ascii) :=
  match s with
  | c1 :: r1 =>
      if isSpace1 (code c1) then Some r1
      else match r1 with
           | c2 :: r2 =>
               if isSpace2 (code c1) (code c2) then Some r2
               else match r2 with
                    | c3 :: r3 =>
                        if isSpace3 (code c1) (code c2) (code c3)
                        then Some r3 else None
                    | [] => None
                    end
           | [] => None
           end
  | [] => None
  end.

(** Strip one white-space code point from the back; the bytes come last
    byte first. *)
Definition trailingSpace (reversed : list Ascii.ascii) : option (list Ascii.ascii) :=
  match reversed with
  | c1 :: r1 =>
      if isSpace1 (code c1) then Some r1
      else match r1 with
           | c2 :: r2 =>
               if isSpace2 (code c2) (code c1) then Some r2
               else match r2 with
                    | c3 :: r3 =>
                        if isSpace3 (code c3) (code c2) (code c1)
                        then Some r3 else None
                    | [] => None
                    end
           | [] => None
           end
  | [] => None
  end.

Fixpoint strip (one : list Ascii.ascii → option (list Ascii.ascii)) (fuel : nat)
    (s : list Ascii.ascii) : list Ascii.ascii :=
  match fuel with
  | O => s
  | S fuel' =>
      match one s with
      | Some rest => strip one fuel' rest
      | None => s
      end
  end.

(** [strings.TrimSpace]: all leading and trailing white space removed. *)
Definition TrimSpace (s : string) : string :=
  let l := String.list_ascii_of_string s in
  let l := strip leadingSpace (length l) l in
  let l := rev (strip trailingSpace (length l) (rev l)) in
  String.string_of_list_ascii l.

(** [strings.Join]. *)
Definition Join (elems : list string) (sep : string) : string :=
  String.concat sep elems.

End Strings.

(** ** Package [path/filepath], for the separator [/] *)

Module Filepath.

Definition slash : Ascii.ascii := Ascii.ascii_of_nat 47.
Definition dot : Ascii.ascii := Ascii.ascii_of_nat 46.

Definition isSlash (c : Ascii.ascii) : bool := Strings.code c =? 47.

(** The elements of a path: what lies between the separators.  [cur]
    holds the bytes of the current element, last byte first. *)
Fixpoint elements (s cur : list Ascii.ascii) : list (list Ascii.ascii) :=
  match s with
  | [] => [rev cur]
  | c :: r =>
      if isSlash c then rev cur :: elements r [] else elements r (c :: cur)
  end.

Definition isDot (e : list Ascii.ascii) : bool :=
  match e with [c] => Strings.code c =? 46 | _ => false end.

Definition isDotDot (e : list Ascii.ascii) : bool :=
  match e with
  | [c1; c2] => (Strings.code c1 =? 46) && (Strings.code c2 =? 46)
  | _ => false
  end.

(** One element of [Clean]: empty elements and [.] are dropped, [..]
    removes the element before it, unless there is none or it is [..]
    itself; then [..] is dropped in a rooted path and kept otherwise. *)
Definition cleanStep (rooted : bool) (out : list (list Ascii.ascii))
    (e : list Ascii.ascii) : list (list Ascii.ascii) :=
  match e with
  | [] => out
  | _ =>
      if isDot e then out
      else if isDotDot e then
        match last out with
        | Some prev =>
            if isDotDot prev then out ++ [e] else removelast out
        | None => if rooted then out else out ++ [e]
        end
      else out ++ [e]
  end.

Fixpoint joinElements (out : list (list Ascii.ascii)) : list Ascii.ascii :=
  match out with
  | [] => []
  | [e] => e
  | e :: rest => e ++ slash :: joinElements rest
  end.

(** [filepath.Clean]. *)
Definition cleanBytes (path : list Ascii.ascii) : list Ascii.ascii :=
  match path with
  | [] => [dot]
  | c :: _ =>
      let rooted := isSlash c in
      let out := joinElements (foldl (cleanStep rooted) [] (elements path [])) in
      if rooted then slash :: out
      else match out with [] => [dot] | _ => out end
  end.

Definition Clean (path : string) : string :=
  String.string_of_list_ascii (cleanBytes (String.list_ascii_of_string path)).

(** The part of a path up to its last separator, the separator
    included. *)
Fixpoint dropElement (reversed : list Ascii.ascii) : list Ascii.ascii :=
  match reversed with
  | [] => []
  | c :: r => if isSlash c then reversed else dropElement r
  end.

(** [filepath.Dir]: all but the last element, cleaned. *)
Definition Dir (path : string) : string :=
  String.string_of_list_ascii
    (cleanBytes (rev (dropElement (rev (String.list_ascii_of_string path))))).

(** The path that a list of elements stands for: [/] for the root,
    [.] for the place a relative path starts from. *)
Definition render (rooted : bool) (out : list (list Ascii.ascii))
    : list Ascii.ascii :=
  if rooted then slash :: joinElements out
  else match joinElements out with [] => [dot] | bytes => bytes end.

(** [filepath.Join] of two elements: empty elements are ignored, the
    others are joined by the separator and the result is cleaned; two
    empty elements give the empty string. *)
Definition Join (dir name : string) : string :=
  if negb (String.eqb dir "") then Clean (dir +:+ "/" +:+ name)
  else if negb (String.eqb name "") then Clean name
  else "".

(** *** Specification vocabulary for paths *)

(** An element without a separator in it. *)
Definition noSlash (e : list Ascii.ascii) : Prop :=
  Forall (λ c, isSlash c = false) e.

(** A name that stands for an entry of a directory: it is not empty,
    holds no separator, and is neither [.] nor [..]. *)
Definition isPlain (name : string) : bool :=
  let e := String.list_ascii_of_string name in
  negb (bool_decide (e = [])) && forallb (λ c, negb (isSlash c)) e
  && negb (isDot e) && negb (isDotDot e).

(** Elements as [Clean] leaves them: each one is kept where it comes,
    after those before it. *)
Definition settled (rooted : bool) (out : list (list Ascii.ascii)) : Prop :=
  ∀ p e, p ++ [e] `prefix_of` out →
    cleanStep rooted p e = p ++ [e] ∧ e ≠ [] ∧ noSlash e.

End Filepath.

(** ** Package [internal/storage]: the four backends *)

Module Storage.
Import GoTime Kiteconnect.

(** *** The outside world of a store *)

(** A value handed to a database statement or to the CSV writer.
    [VFloat], [VInt] stand for the number as the driver or [strconv]
    renders it, [VTime] for a [time.Time] passed as such, and
    [VTimeText t] for [t.Format("2006-01-02 15:04:05")]. *)
Inductive Value : Type :=
| VText (s : string)
| VFloat (f : float64)
| VInt (n : Z)
| VTime (t : Time)
| VTimeText (t : Time).

Global Instance Value_eq_dec : EqDecision Value.
Proof. solve_decision. Defined.

(** A row of table [ohlcv], and a record (line) of a CSV file. *)
Definition Row : Type := list Value.
Definition CSVRecord : Type := list Value.

(** What a file holds: an opening part followed by CSV records.  The
    opening part is empty; or a JSON array of candles, as
    [json.MarshalIndent] writes it; or valid JSON of another shape,
    [filled] being what [json.Unmarshal] has put into a slice of candles
    by the time it reports the mismatch; or a database of a driver, with
    the rows of its table [ohlcv] if it has that table; or other bytes,
    which are neither JSON nor a database.  Records after JSON or after
    a database damage it. *)
Inductive Preamble : Type :=
| NoPreamble
| JSONArray (arr : list HistoricalData)
| JSONOther (filled : list HistoricalData)
| SQL (driver : string) (ohlcv : option (list Row))
| RawBytes (bytes : string).

Record File : Type := mkFile {
  preamble : Preamble;
  records : list CSVRecord
}.

Definition emptyFile : File := {| preamble := NoPreamble; records := [] |}.

(** What the world decides and the program cannot see beforehand. *)
Record Faults : Type := mkFaults {
  (* the database at this path cannot be opened, whatever the path
     holds: a lock, missing permissions *)
  connectFails : string → bool;
  (* the engine refuses the row, given the rows that the transaction
     sees: a constraint of a table that was there before [Init], a value
     that a column does not take *)
  refuses : list Row → Row → bool;
  (* [tx.Commit] fails *)
  commitFails : bool;
  (* these records do not fit into the buffer of a [csv.Writer] *)
  bufferFull : list CSVRecord → bool;
  (* the device takes no data: no space left, an I/O error *)
  deviceFails : bool
}.

Inductive Error : Type :=
| ErrConnection (driver : string)     (* "... connection failed" *)
| ErrCreateTable (driver : string)    (* "failed to create ... table" *)
| ErrTransaction                      (* "DB transaction error" *)
| ErrPrepare                          (* "DB prepare error" *)
| ErrCommit                           (* "commit error" *)
| ErrMkdir (backend : string)         (* "failed to create ... storage directory" *)
| ErrOpenCSV                          (* "failed to open CSV file" *)
| ErrCSVHeader                        (* "failed to write CSV header" *)
| ErrMarshalJSON                      (* "failed to marshal JSON data" *)
| ErrWriteJSON.                       (* "failed to write JSON file" *)

(** Lines written to the application logger, by the stores and by the
    fetching loop, which share one logger. *)
Inductive LogEntry : Type :=
| TableReady (driver : string)
| DirectoryReady (backend path : string)
| InsertError (c : HistoricalData)
| CSVWriteError (c : HistoricalData)
| StoredCSV (n : Z) (fileName : string)
| StoredJSON (n : Z) (fileName : string) (total : Z)
| LogProcessing (i total : Z) (instrumentSymbol : string)
| LogChunk (chunk chunks : Z) (chunkFrom chunkTo : Time)
| LogAPIError (err : Kite.Error)
| LogNoData
| LogAPIReturned (n : Z) (first last : option Time)
| LogStoreError (err : Error)
| LogInserted (n : Z)
| LogTotalInserted (instrumentSymbol : string) (n : Z).

(** The file system and the log.  Directories and files are known by
    their cleaned paths; the directory the program runs in, the root and
    the directories above the one the program runs in are there without
    being listed.  A database is a file.  [readOnly]: the file system
    refuses every change. *)
Record World : Type := mkWorld {
  dirs : gset string;
  files : gmap string File;
  readOnly : bool;
  faults : Faults;
  log : list LogEntry
}.

Definition withDirs (d : gset string) (w : World) : World :=
  {| dirs := d; files := files w;
     readOnly := readOnly w; faults := faults w; log := log w |}.
Definition withFiles (f : gmap string File) (w : World) : World :=
  {| dirs := dirs w; files := f;
     readOnly := readOnly w; faults := faults w; log := log w |}.
Definition logLine (e : LogEntry) (w : World) : World :=
  {| dirs := dirs w; files := files w;
     readOnly := readOnly w; faults := faults w; log := log w ++ [e] |}.

(** *** Paths as the operating system resolves them *)

Definition Join (dir name : string) : string := Filepath.Join dir name.

(** A place in the file system: whether it is counted from the root,
    and the names that lead to it, after leading [..] for a place above
    the directory the program runs in. *)
Definition Location : Type := (bool * list (list Ascii.ascii))%type.

(** The cleaned path of a place. *)
Definition keyOf (loc : Location) : string :=
  String.string_of_list_ascii (Filepath.render loc.1 loc.2).

(** The root, the directory the program runs in, and those above it. *)
Definition implicitDir (loc : Location) : bool :=
  forallb Filepath.isDotDot loc.2.

Definition isDir (w : World) (loc : Location) : bool :=
  implicitDir loc || bool_decide (keyOf loc ∈ dirs w).

(** A path as a chain of elements; the empty path names nothing. *)
Definition parse (path : string)
    : option (bool * list (list Ascii.ascii)) :=
  match String.list_ascii_of_string path with
  | [] => None
  | c :: rest =>
      Some (Filepath.isSlash c, Filepath.elements (c :: rest) [])
  end.

(** One element of a path: it is looked up in the place reached so far,
    which has to be a directory.  An empty element and [.] stay there,
    [..] goes up, a name goes down. *)
Definition walkStep (w : World) (rooted : bool)
    (reached : option (list (list Ascii.ascii))) (e : list Ascii.ascii)
    : option (list (list Ascii.ascii)) :=
  match reached with
  | Some cur =>
      if isDir w (rooted, cur) then Some (Filepath.cleanStep rooted cur e)
      else None
  | None => None
  end.

(** The place a path names, whether or not something is there: every
    element before the last has to lead to a directory. *)
Definition resolve (w : World) (path : string) : option Location :=
  match parse path with
  | None => None
  | Some (rooted, elems) =>
      match foldl (walkStep w rooted) (Some []) elems with
      | Some cur => Some (rooted, cur)
      | None => None
      end
  end.

(** *** Package [os] *)

Definition isName (e : list Ascii.ascii) : bool :=
  negb (bool_decide (e = []) || Filepath.isDot e || Filepath.isDotDot e).

(** One element of the path of [os.MkdirAll]: a name that is not there
    is made a directory; a name that is a file, or that cannot be made,
    ends the call with an error. *)
Definition mkdirStep (rooted : bool)
    (st : option (list (list Ascii.ascii)) * World) (e : list Ascii.ascii)
    : option (list (list Ascii.ascii)) * World :=
  match st with
  | (Some cur, w) =>
      if negb (isDir w (rooted, cur)) then (None, w)
      else
        let next := Filepath.cleanStep rooted cur e in
        if isDir w (rooted, next) then (Some next, w)
        else if negb (isName e)
                || bool_decide (is_Some (files w !! keyOf (rooted, next)))
                || readOnly w
        then (None, w)
        else (Some next,
              withDirs ({[keyOf (rooted, next)]} ∪ dirs w) w)
  | (None, w) => (None, w)
  end.

(** [os.MkdirAll]: the directory and the parents it needs; [true] when
    it returns no error.  Nothing to do for a directory that is there. *)
Definition MkdirAll (path : string) (w : World) : bool * World :=
  match parse path with
  | None => (false, w)
  | Some (rooted, elems) =>
      let '(reached, w') := foldl (mkdirStep rooted) (Some [], w) elems in
      (bool_decide (is_Some reached), w')
  end.

(** [os.Stat] returns no error. *)
Definition Stat (path : string) (w : World) : bool :=
  match resolve w path with
  | Some loc => isDir w loc || bool_decide (is_Some (files w !! keyOf loc))
  | None => false
  end.

(** [os.OpenFile(path, O_CREATE|O_WRONLY|O_APPEND, 0644)]: the file that
    is open, by its cleaned path; an absent file is created empty, in a
    directory that is there. *)
Definition OpenFileAppend (path : string) (w : World)
    : option (string * World) :=
  match resolve w path with
  | Some loc =>
      if isDir w loc || readOnly w then None
      else match files w !! keyOf loc with
           | Some _ => Some (keyOf loc, w)
           | None =>
               Some (keyOf loc,
                     withFiles (<[keyOf loc := emptyFile]> (files w)) w)
           end
  | None => None
  end.

(** [os.OpenFile(path, os.O_WRONLY, 0)] returns no error: the path is a
    file that can be written. *)
Definition OpenFileWriteOnly (path : string) (w : World) : bool :=
  match resolve w path with
  | Some loc =>
      negb (isDir w loc) && negb (readOnly w)
      && bool_decide (is_Some (files w !! keyOf loc))
  | None => false
  end.

Definition ReadFile (path : string) (w : World) : option File :=
  match resolve w path with
  | Some loc => if isDir w loc then None else files w !! keyOf loc
  | None => None
  end.

(** What [os.WriteFile] leaves of a file when the device fails: the
    file was emptied when it was opened.  That a part of the data may
    have been written is left out. *)
Definition truncated : File := emptyFile.

(** [os.WriteFile]: the file is opened, created or emptied, and then
    written; [true] when it returns no error.  An error of the write
    comes after the file was emptied. *)
Definition WriteFile (path : string) (content : File) (w : World)
    : bool * World :=
  match resolve w path with
  | Some loc =>
      if isDir w loc || readOnly w then (false, w)
      else if deviceFails (faults w)
      then (false, withFiles (<[keyOf loc := truncated]> (files w)) w)
      else (true, withFiles (<[keyOf loc := content]> (files w)) w)
  | None => (false, w)
  end.

(** A file with records added at its end. *)
Definition extend (f : File) (rs : list CSVRecord) : File :=
  {| preamble := preamble f; records := records f ++ rs |}.

(** Records reach the end of an open file. *)
Definition appendRecords (key : string) (rs : list CSVRecord) (w : World)
    : World :=
  withFiles (alter (λ f, extend f rs) key (files w)) w.

(** *** Package [encoding/csv] *)

Definition csvHeader : CSVRecord :=
  [VText "instrument"; VText "timestamp"; VText "open"; VText "high";
   VText "low"; VText "close"; VText "volume"].

(** A [csv.Writer] on an open file: the records in its buffer and
    whether a write to the file has failed. *)
Record Writer : Type := mkWriter {
  target : string;
  pending : list CSVRecord;
  broken : bool
}.

Definition NewWriter (key : string) : Writer :=
  {| target := key; pending := []; broken := false |}.

(** The buffer is full with these records.  The header alone never
    fills it. *)
Definition full (fl : Faults) (buffered : list CSVRecord) : bool :=
  negb (bool_decide (buffered = [csvHeader])) && bufferFull fl buffered.

(** [Writer.Flush]: what is in the buffer goes to the file.  When the
    device fails, it is lost, and the writer remembers the failure; the
    return value of [Flush] is not looked at by the program. *)
Definition Flush (wr : Writer) (w : World) : Writer * World :=
  if broken wr then (wr, w)
  else match pending wr with
       | [] => (wr, w)
       | _ :: _ =>
           if deviceFails (faults w)
           then ({| target := target wr; pending := []; broken := true |},
                 w)
           else ({| target := target wr; pending := []; broken := false |},
                 appendRecords (target wr) (pending wr) w)
       end.

(** [Writer.Write]: the record goes into the buffer, which is written
    out when it is full; [true] when it returns no error, that is,
    unless a write to the file has failed, now or before.  Records move
    whole: that the buffer is written out in the middle of a record is
    left out. *)
Definition Write (wr : Writer) (w : World) (record : CSVRecord)
    : bool * Writer * World :=
  if broken wr then (false, wr, w)
  else
    let wr1 := {| target := target wr; pending := pending wr ++ [record];
                  broken := false |} in
    if full (faults w) (pending wr1)
    then let '(wr2, w2) := Flush wr1 w in (negb (broken wr2), wr2, w2)
    else (true, wr1, w).

(** *** Package [encoding/json] *)

(** Years 0 to 9999, the range [Time.MarshalJSON] accepts. *)
Definition yearInRange (t : Time) : bool :=
  (ParseDate 0 1 1 <=? t) && (t <? ParseDate 10000 1 1).

(** A candle that [json.Marshal] can encode: no NaN, no infinity, a
    representable year. *)
Definition marshalable (c : HistoricalData) : bool :=
  isFinite (Open c) && isFinite (High c) && isFinite (Low c)
  && isFinite (Close c) && yearInRange (Date c).

(** [json.MarshalIndent] of a candle slice: the document, or an error as
    soon as one element cannot be encoded. *)
Definition MarshalIndent (data : list HistoricalData) : option File :=
  if forallb marshalable data
  then Some {| preamble := JSONArray data; records := [] |}
  else None.

(** The bytes are valid JSON. *)
Definition validJSON (data : File) : bool :=
  match preamble data, records data with
  | JSONArray _, [] | JSONOther _, [] => true
  | _, _ => false
  end.

(** [json.Unmarshal(data, &dst)], with [true] when it returns no error.
    On bytes that are not valid JSON it leaves [dst] as it was; on valid
    JSON of another shape it reports the mismatch after filling in what
    it could. *)
Definition Unmarshal (data : File) (dst : list HistoricalData)
    : list HistoricalData * bool :=
  match preamble data, records data with
  | JSONArray arr, [] => (arr, true)
  | JSONOther filled, [] => (filled, false)
  | _, _ => (dst, false)
  end.

(** *** Package [database/sql] with the drivers go-duckdb and go-sqlite3 *)

(** The drivers registered by the package's imports. *)
Definition drivers : list string := ["duckdb"; "sqlite3"].

Definition database (driver : string) (rows : list Row) : File :=
  {| preamble := SQL driver (Some rows); records := [] |}.

(** The file that a driver creates for a database that is not there.
    SQLite creates an empty file. *)
Definition newDatabase (driver : string) : File :=
  if String.eqb driver "sqlite3" then emptyFile
  else {| preamble := SQL driver None; records := [] |}.

(** The table [ohlcv] of a file, for the driver that reads it: [None]
    when the file is not a database of that driver, [Some None] when it
    is one without the table.  An empty file is an empty SQLite
    database. *)
Definition tableOf (driver : string) (f : File)
    : option (option (list Row)) :=
  match preamble f, records f with
  | SQL d table, [] => if String.eqb d driver then Some table else None
  | NoPreamble, [] =>
      if String.eqb driver "sqlite3" then Some None else None
  | _, _ => None
  end.

(** A driver opens the database file at [path] and creates it if it is
    not there.  DuckDB needs a file it can write and reads it at once;
    SQLite reads it with the first statement. *)
Definition openDatabase (driver path : string) (w : World)
    : option (string * World) :=
  if connectFails (faults w) path then None
  else match resolve w path with
       | Some loc =>
           if isDir w loc then None
           else match files w !! keyOf loc with
                | Some f =>
                    if String.eqb driver "duckdb"
                    then if readOnly w then None
                         else match tableOf driver f with
                              | Some _ => Some (keyOf loc, w)
                              | None => None
                              end
                    else Some (keyOf loc, w)
                | None =>
                    if readOnly w then None
                    else Some (keyOf loc,
                               withFiles (<[keyOf loc := newDatabase driver]>
                                            (files w)) w)
                end
       | None => None
       end.

(** [sql.Open]: it fails for an unknown driver.  go-duckdb opens the
    database at once; go-sqlite3 opens it with the first connection. *)
Definition sqlOpen (driver path : string) (w : World) : option World :=
  if bool_decide (driver ∈ drivers) then
    if String.eqb driver "duckdb"
    then snd <$> openDatabase driver path w
    else Some w
  else None.

(** A connection for a call on the handle.  go-duckdb works on the
    database that [sql.Open] opened, which has to be there; go-sqlite3
    opens the file. *)
Definition connect (driver db : string) (w : World)
    : option (string * World) :=
  if String.eqb driver "duckdb" && negb (Stat db w) then None
  else openDatabase driver db w.

(** [db.Exec] of [CREATE TABLE IF NOT EXISTS ohlcv (...)]. *)
Definition createTableIfNotExists (driver db : string) (w : World)
    : option World :=
  match connect driver db w with
  | Some (key, w1) =>
      match files w1 !! key ≫= tableOf driver with
      | Some (Some _) => Some w1
      | Some None =>
          if readOnly w1 then None
          else Some (withFiles (<[key := database driver []]> (files w1)) w1)
      | None => None
      end
  | None => None
  end.

(** A transaction: the rows it sees, and whether the engine has given
    it up. *)
Record Tx : Type := mkTx {
  seen : list Row;
  aborted : bool
}.

(** [stmt.Exec] of the [INSERT], with [true] when it returns no error.
    SQLite undoes a statement that fails and keeps the transaction;
    DuckDB gives the transaction up, and every later statement in it
    fails.  SQLite cannot insert into a database that it cannot
    write. *)
Definition stmtExec (driver : string) (w : World) (tx : Tx) (r : Row)
    : bool * Tx :=
  if aborted tx then (false, tx)
  else if refuses (faults w) (seen tx) r
          || (String.eqb driver "sqlite3" && readOnly w)
  then (false, {| seen := seen tx;
                  aborted := String.eqb driver "duckdb" |})
  else (true, {| seen := seen tx ++ [r]; aborted := false |}).

(** *** Stores *)

(** The implementations of interface [Store]. *)
Inductive Store : Type :=
| DuckDBStore (db : string)
| SQLiteStore (db : string)
| JSONStore (basePath : string)
| CSVStore (basePath : string).

Definition NewDuckDBStore (path : string) (w : World)
    : (Error + Store) * World :=
  match sqlOpen "duckdb" path w with
  | Some w' => (inr (DuckDBStore path), w')
  | None => (inl (ErrConnection "duckdb"), w)
  end.

Definition NewSQLiteStore (path : string) (w : World)
    : (Error + Store) * World :=
  match sqlOpen "sqlite3" path w with
  | Some w' => (inr (SQLiteStore path), w')
  | None => (inl (ErrConnection "sqlite"), w)
  end.

Definition NewJSONStore (basePath : string) (w : World)
    : (Error + Store) * World :=
  (inr (JSONStore basePath), w).

Definition NewCSVStore (basePath : string) (w : World)
    : (Error + Store) * World :=
  (inr (CSVStore basePath), w).

Definition StorageType : Type := string.
Definition StorageTypeDuckDB : StorageType := "duckdb".
Definition StorageTypeSQLite : StorageType := "sqlite".
Definition StorageTypeJSON : StorageType := "json".
Definition StorageTypeCSV : StorageType := "csv".

Definition NewStore (storageType : StorageType) (path : string) (w : World)
    : (Error + Store) * World :=
  if String.eqb storageType StorageTypeDuckDB then NewDuckDBStore path w
  else if String.eqb storageType StorageTypeSQLite then NewSQLiteStore path w
  else if String.eqb storageType StorageTypeJSON then NewJSONStore path w
  else if String.eqb storageType StorageTypeCSV then NewCSVStore path w
  else NewDuckDBStore path w.

(** *** [Init] *)

Definition DuckDBStore_Init (db : string) (w : World)
    : option Error * World :=
  match createTableIfNotExists "duckdb" db w with
  | None => (Some (ErrCreateTable "DuckDB"), w)
  | Some w' => (None, logLine (TableReady "DuckDB") w')
  end.

Definition SQLiteStore_Init (db : string) (w : World)
    : option Error * World :=
  match createTableIfNotExists "sqlite3" db w with
  | None => (Some (ErrCreateTable "SQLite"), w)
  | Some w' => (None, logLine (TableReady "SQLite") w')
  end.

Definition JSONStore_Init (basePath : string) (w : World)
    : option Error * World :=
  match MkdirAll basePath w with
  | (false, w') => (Some (ErrMkdir "JSON"), w')
  | (true, w') => (None, logLine (DirectoryReady "JSON" basePath) w')
  end.

Definition CSVStore_Init (basePath : string) (w : World)
    : option Error * World :=
  match MkdirAll basePath w with
  | (false, w') => (Some (ErrMkdir "CSV"), w')
  | (true, w') => (None, logLine (DirectoryReady "CSV" basePath) w')
  end.

(** *** [StoreCandles] of the database stores *)

(** The arguments of [stmt.Exec] for one candle. *)
Definition duckdbRow (instrumentSymbol : string) (c : HistoricalData) : Row :=
  [VText instrumentSymbol; VFloat (Open c); VFloat (High c); VFloat (Low c);
   VFloat (Close c); VTime (Date c); VInt (Volume c)].

Definition sqliteRow (instrumentSymbol : string) (c : HistoricalData) : Row :=
  [VText instrumentSymbol; VFloat (Open c); VFloat (High c); VFloat (Low c);
   VFloat (Close c); VTimeText (Date c); VInt (Volume c)].

(** State of the insert loop: the counter [inserted], the transaction,
    and the lines logged. *)
Definition InsertState : Type := (Z * Tx * list LogEntry)%type.

(** One iteration of [for _, c := range candles]: a failed [Exec] is
    logged and the loop goes on. *)
Definition insertCandle (driver : string) (w : World)
    (toRow : HistoricalData → Row) (st : InsertState) (c : HistoricalData)
    : InsertState :=
  let '(inserted, tx, logged) := st in
  match stmtExec driver w tx (toRow c) with
  | (false, tx') => (inserted, tx', logged ++ [InsertError c])
  | (true, tx') => (inserted + 1, tx', logged)
  end.

(** Begin, prepare, insert row by row, commit.  A failed commit leaves
    the table as it was (the deferred rollback).  The commit of a
    transaction that DuckDB has given up returns no error and stores
    nothing. *)
Definition sqlStoreCandles (driver : string)
    (toRow : string → HistoricalData → Row)
    (db : string) (w : World) (instrumentSymbol : string)
    (candles : list HistoricalData) : (Z * option Error) * World :=
  match connect driver db w with
  | None => ((0, Some ErrTransaction), w)
  | Some (key, w0) =>
      match files w0 !! key ≫= tableOf driver with
      | Some (Some rows) =>
          let '(inserted, tx, logged) :=
            foldl (insertCandle driver w0 (toRow instrumentSymbol))
                  (0, {| seen := rows; aborted := false |}, []) candles in
          let w1 := foldl (λ w e, logLine e w) w0 logged in
          if aborted tx then ((inserted, None), w1)
          else if commitFails (faults w1) then ((0, Some ErrCommit), w1)
          else ((inserted, None),
                withFiles (<[key := database driver (seen tx)]> (files w1))
                  w1)
      | _ => ((0, Some ErrPrepare), w0)
      end
  end.

Definition DuckDBStore_StoreCandles := sqlStoreCandles "duckdb" duckdbRow.
Definition SQLiteStore_StoreCandles := sqlStoreCandles "sqlite3" sqliteRow.

(** *** [StoreCandles] of the CSV store *)

Definition csvRecord (instrumentSymbol : string) (c : HistoricalData)
    : CSVRecord :=
  [VText instrumentSymbol; VTimeText (Date c); VFloat (Open c);
   VFloat (High c); VFloat (Low c); VFloat (Close c); VInt (Volume c)].

(** One iteration of the write loop: a failed [Write] is logged and the
    loop goes on. *)
Definition writeCandle (instrumentSymbol : string)
    (st : Z * Writer * World) (c : HistoricalData) : Z * Writer * World :=
  let '(inserted, writer, w) := st in
  let record := csvRecord instrumentSymbol c in
  match Write writer w record with
  | (false, writer', w') => (inserted, writer', logLine (CSVWriteError c) w')
  | (true, writer', w') => (inserted + 1, writer', w')
  end.

(** The deferred [writer.Flush()] runs when the function returns, on
    every path after the writer was made; [file.Close()] follows. *)
Definition CSVStore_StoreCandles (basePath : string) (w : World)
    (instrumentSymbol : string) (candles : list HistoricalData)
    : (Z * option Error) * World :=
  let fileName := instrumentSymbol +:+ ".csv" in
  let filePath := Join basePath fileName in
  let fileExists := Stat filePath w in
  match OpenFileAppend filePath w with
  | None => ((0, Some ErrOpenCSV), w)
  | Some (file, w1) =>
      let writer := NewWriter file in
      let '(headerWritten, writer, w2) :=
        if negb fileExists then Write writer w1 csvHeader
        else (true, writer, w1) in
      if negb headerWritten
      then ((0, Some ErrCSVHeader), snd (Flush writer w2))
      else
        let '(inserted, writer, w3) :=
          foldl (writeCandle instrumentSymbol) (0, writer, w2) candles in
        let w4 := logLine (StoredCSV (Z.of_nat (length candles)) fileName)
                    w3 in
        ((inserted, None), snd (Flush writer w4))
  end.

(** *** [StoreCandles] of the JSON store *)

Definition JSONStore_StoreCandles (basePath : string) (w : World)
    (instrumentSymbol : string) (candles : list HistoricalData)
    : (Z * option Error) * World :=
  let fileName := instrumentSymbol +:+ ".json" in
  let filePath := Join basePath fileName in
  let existingData :=
    match ReadFile filePath w with
    | Some data => fst (Unmarshal data [])    (* the error is dropped *)
    | None => []
    end in
  let allData := existingData ++ candles in
  match MarshalIndent allData with
  | None => ((0, Some ErrMarshalJSON), w)
  | Some jsonData =>
      match WriteFile filePath jsonData w with
      | (false, w') => ((0, Some ErrWriteJSON), w')
      | (true, w') =>
          ((Z.of_nat (length candles), None),
           logLine (StoredJSON (Z.of_nat (length candles)) fileName
                      (Z.of_nat (length allData))) w')
      end
  end.

(** *** The interface [Store] *)

Definition Init (s : Store) (w : World) : option Error * World :=
  match s with
  | DuckDBStore db => DuckDBStore_Init db w
  | SQLiteStore db => SQLiteStore_Init db w
  | JSONStore basePath => JSONStore_Init basePath w
  | CSVStore basePath => CSVStore_Init basePath w
  end.

Definition StoreCandles (s : Store) (w : World) (instrumentSymbol : string)
    (candles : list HistoricalData) : (Z * option Error) * World :=
  match s with
  | DuckDBStore db => DuckDBStore_StoreCandles db w instrumentSymbol candles
  | SQLiteStore db => SQLiteStore_StoreCandles db w instrumentSymbol candles
  | JSONStore basePath =>
      JSONStore_StoreCandles basePath w instrumentSymbol candles
  | CSVStore basePath =>
      CSVStore_StoreCandles basePath w instrumentSymbol candles
  end.

(** [Close]: the database handle is closed; the file stores have
    nothing to release. *)
Definition Close (s : Store) (w : World) : option Error * World := (None, w).

(** *** Specification vocabulary for the stores *)

(** The path that a store hands to the operating system for the data of
    an instrument: that of the database, or that of the instrument's
    file. *)
Definition dataPath (s : Store) (instrumentSymbol : string) : string :=
  match s with
  | DuckDBStore db | SQLiteStore db => db
  | JSONStore basePath => Join basePath (instrumentSymbol +:+ ".json")
  | CSVStore basePath => Join basePath (instrumentSymbol +:+ ".csv")
  end.

(** The driver of a database store. *)
Definition driverOf (s : Store) : string :=
  match s with
  | DuckDBStore _ => "duckdb"
  | _ => "sqlite3"
  end.

(** A candle as an element of the JSON array. *)
Definition jsonObject (c : HistoricalData) : Row :=
  [VTime (Date c); VFloat (Open c); VFloat (High c); VFloat (Low c);
   VFloat (Kiteconnect.Close c); VInt (Volume c); VInt (OI c)].


(** The records that a file holds for a store: the rows of the table,
    the records of a CSV file, the elements of a JSON array as
    [json.Unmarshal] reads them. *)
Definition recordsOf (s : Store) (f : File) : list Row :=
  match s with
  | DuckDBStore _ | SQLiteStore _ =>
      match tableOf (driverOf s) f with
      | Some (Some rows) => rows
      | _ => []
      end
  | JSONStore _ => jsonObject <$> fst (Unmarshal f [])
  | CSVStore _ => records f
  end.

(** The records a store holds for an instrument, as they can be read
    back. *)
Definition durable (s : Store) (w : World) (instrumentSymbol : string)
    : list Row :=
  match ReadFile (dataPath s instrumentSymbol) w with
  | Some f => recordsOf s f
  | None => []
  end.

(** Every directory that a path goes through is there, so that the
    path can name a file. *)
Definition reachable (path : string) (w : World) : bool :=
  bool_decide (is_Some (resolve w path)).

(** The engine accepts these rows one after the other, on top of the
    rows that are there. *)
Fixpoint accepted (fl : Faults) (present : list Row) (rs : list Row) : bool :=
  match rs with
  | [] => true
  | r :: rest => negb (refuses fl present r) && accepted fl (present ++ [r]) rest
  end.

(** Number of header rows among the records of a file. *)
Definition headerCount (f : File) : nat :=
  length (filter (λ r, r = csvHeader) (records f)).

(** The parts of the world that [Init] sets up. *)
Definition sameStorage (w1 w2 : World) : Prop :=
  dirs w1 = dirs w2 ∧ files w1 = files w2.

(** The recognized backend selectors. *)
Definition recognizedStorageTypes : list StorageType :=
  [StorageTypeDuckDB; StorageTypeSQLite; StorageTypeJSON; StorageTypeCSV].

End Storage.

(** ** Package [internal/cli]: the fetching loop *)

Module Cli.
Import GoTime Kiteconnect.

(** The fields of [config.Config] that the loop reads. *)
Record Config : Type := mkConfig {
  Instruments : list string;
  Interval : string
}.

(** Lines printed on the console. *)
Inductive Print : Type :=
| Processing (processed total : Z) (instrumentSymbol : string)
| Progress (percent processed total : Z)
| APIErrorWarning (instrumentSymbol : string) (chunk chunks : Z)
| StorageErrorWarning (instrumentSymbol : string) (chunk chunks : Z)
| Saved (n : Z) (instrumentSymbol : string)
| Completed (totalCandles processedInstruments : Z).

(** The calls the loop makes on its two collaborators, with what they
    returned. *)
Inductive Call : Type :=
| Fetch (instrumentSymbol : string) (token : Z) (chunk : Kite.Chunk)
    (result : Kite.Error + list HistoricalData)
| Store (instrumentSymbol : string) (candles : list HistoricalData)
    (result : Z * option Storage.Error).

(** State of a run: the world of the client, the world of the store,
    the console, and the calls made so far. *)
Record Run : Type := mkRun {
  kite : Kite.World;
  disk : Storage.World;
  console : list Print;
  history : list Call
}.

Definition logf (verbose : bool) (e : Storage.LogEntry) (r : Run) : Run :=
  if verbose
  then {| kite := kite r; disk := Storage.logLine e (disk r);
          console := console r; history := history r |}
  else r.

Definition printf (p : Print) (r : Run) : Run :=
  {| kite := kite r; disk := disk r; console := console r ++ [p];
     history := history r |}.

Definition printfIf (verbose : bool) (p : Print) (r : Run) : Run :=
  if verbose then printf p r else r.

(** [client.GetHistoricalData], recorded. *)
Definition callFetch (r : Run) (instrumentSymbol : string) (token : Z)
    (interval : string) (chunk : Kite.Chunk)
    : (Kite.Error + list HistoricalData) * Run :=
  let '(result, k) :=
    Kite.GetHistoricalData (kite r) token interval chunk.1 chunk.2 in
  (result,
   {| kite := k; disk := disk r; console := console r;
      history := history r ++ [Fetch instrumentSymbol token chunk result] |}).

(** [store.StoreCandles], recorded. *)
Definition callStore (store : Storage.Store) (r : Run)
    (instrumentSymbol : string) (candles : list HistoricalData)
    : (Z * option Storage.Error) * Run :=
  let '(result, d) :=
    Storage.StoreCandles store (disk r) instrumentSymbol candles in
  (result,
   {| kite := kite r; disk := d; console := console r;
      history := history r ++ [Store instrumentSymbol candles result] |}).

(** Body of [for chunkIdx, chunk := range chunks]; the state carries
    [totalInserted]. *)
Definition fetchChunk (verbose : bool) (conf : Config)
    (store : Storage.Store) (instrumentSymbol : string) (token : Z)
    (chunks : Z) (st : Run * Z) (ic : nat * Kite.Chunk) : Run * Z :=
  let '(r, totalInserted) := st in
  let '(chunkIdx, chunk) := ic in
  let r := logf verbose
             (Storage.LogChunk (Z.of_nat chunkIdx + 1) chunks chunk.1 chunk.2)
             r in
  let '(result, r) :=
    callFetch r instrumentSymbol token (Interval conf) chunk in
  match result with
  | inl err =>
      let r := logf verbose (Storage.LogAPIError err) r in
      let r := printfIf verbose
                 (APIErrorWarning instrumentSymbol
                    (Z.of_nat chunkIdx + 1) chunks) r in
      (r, totalInserted)                       (* continue *)
  | inr candles =>
      if Z.of_nat (length candles) =? 0 then
        (logf verbose Storage.LogNoData r, totalInserted)   (* continue *)
      else
        let r := logf verbose
                   (Storage.LogAPIReturned (Z.of_nat (length candles))
                      (Date <$> head candles) (Date <$> last candles)) r in
        let '((inserted, err), r) :=
          callStore store r instrumentSymbol candles in
        match err with
        | Some e =>
            let r := logf verbose (Storage.LogStoreError e) r in
            let r := printfIf verbose
                       (StorageErrorWarning instrumentSymbol
                          (Z.of_nat chunkIdx + 1) chunks) r in
            (r, totalInserted)
        | None =>
            (logf verbose (Storage.LogInserted inserted) r,
             totalInserted + inserted)
        end
  end.

(** A slice with its indices, as [range] yields them. *)
Definition indexed {A : Type} (l : list A) : list (nat * A) :=
  zip (seq 0 (length l)) l.

(** The progress line of the quiet mode: every tenth of the instruments
    and at the last one. *)
Definition progress (processedInstruments total : Z) (r : Run) : Run :=
  let percent := Z.quot (processedInstruments * 100) total in
  let interval := Z.quot total 10 in
  let interval := if interval <? 1 then 1 else interval in
  if (Z.rem processedInstruments interval =? 0)
     || (processedInstruments =? total)
  then printf (Progress percent processedInstruments total) r
  else r.

(** Body of [for i, instrumentSymbol := range conf.Instruments]; the
    state carries [processedInstruments] and [totalCandles]. *)
Definition fetchInstrument (verbose : bool) (conf : Config)
    (tokenMap : gmap string Z) (store : Storage.Store) (from to : Time)
    (st : Run * Z * Z) (ii : nat * string) : Run * Z * Z :=
  let '(r, processedInstruments, totalCandles) := st in
  let '(i, instrumentSymbol) := ii in
  let totalInstruments := Z.of_nat (length (Instruments conf)) in
  match tokenMap !! instrumentSymbol with
  | None => st                                  (* continue *)
  | Some token =>
      let processedInstruments := processedInstruments + 1 in
      let r :=
        if verbose then
          logf verbose
            (Storage.LogProcessing (Z.of_nat i + 1) totalInstruments
               instrumentSymbol)
            (printf (Processing processedInstruments totalInstruments
                       instrumentSymbol) r)
        else progress processedInstruments totalInstruments r in
      let chunks := Kite.GenerateDateChunks from to (Interval conf) in
      let '(r, totalInserted) :=
        foldl (fetchChunk verbose conf store instrumentSymbol token
                 (Z.of_nat (length chunks)))
              (r, 0) (indexed chunks) in
      let r := logf verbose
                 (Storage.LogTotalInserted instrumentSymbol totalInserted)
                 r in
      let r := printfIf verbose (Saved totalInserted instrumentSymbol) r in
      (r, processedInstruments, totalCandles + totalInserted)
  end.

Definition runFetchingLoop (verbose : bool) (conf : Config)
    (tokenMap : gmap string Z) (store : Storage.Store) (from to : Time)
    (r : Run) : Run :=
  let '(r, processedInstruments, totalCandles) :=
    foldl (fetchInstrument verbose conf tokenMap store from to)
          (r, 0, 0) (indexed (Instruments conf)) in
  printf (Completed totalCandles processedInstruments) r.

(** *** Reading the record of calls *)

(** The fetches made: instrument, token and chunk. *)
Definition fetchOf (c : Call) : option (string * Z * Kite.Chunk) :=
  match c with
  | Fetch instrumentSymbol token chunk _ => Some (instrumentSymbol, token, chunk)
  | Store _ _ _ => None
  end.

(** The [StoreCandles] calls made: instrument and batch. *)
Definition storeOf (c : Call) : option (string * list HistoricalData) :=
  match c with
  | Store instrumentSymbol candles _ => Some (instrumentSymbol, candles)
  | Fetch _ _ _ _ => None
  end.

(** The batch a fetch hands over to the store: that of a fetch without
    error that returned at least one candle. *)
Definition handedOver (c : Call) : option (string * list HistoricalData) :=
  match c with
  | Fetch instrumentSymbol _ _ (inr (c0 :: candles)) =>
      Some (instrumentSymbol, c0 :: candles)
  | _ => None
  end.

(** The fetches the plan foresees for one instrument: every chunk, if
    the instrument has a token. *)
Definition plannedFor (conf : Config) (tokenMap : gmap string Z)
    (from to : Time) (instrumentSymbol : string)
    : list (string * Z * Kite.Chunk) :=
  match tokenMap !! instrumentSymbol with
  | Some token =>
      (λ chunk, (instrumentSymbol, token, chunk)) <$>
        Kite.GenerateDateChunks from to (Interval conf)
  | None => []
  end.

(** The fetches the plan foresees: those of every instrument, in order. *)
Definition planned (conf : Config) (tokenMap : gmap string Z)
    (from to : Time) : list (string * Z * Kite.Chunk) :=
  flat_map (plannedFor conf tokenMap from to) (Instruments conf).

Definition isWarning (p : Print) : bool :=
  match p with
  | APIErrorWarning _ _ _ | StorageErrorWarning _ _ _ => true
  | _ => false
  end.

(** The calls that end in an error: the only ones that warn. *)
Definition failed (c : Call) : bool :=
  match c with
  | Fetch _ _ _ (inl _) => true
  | Store _ _ (_, Some _) => true
  | _ => false
  end.

(** What one stretch of a run adds: the calls [made] and the lines
    [printed].  Every call to [StoreCandles] hands over the batch of a
    fetch that succeeded with at least one candle, and the console warns
    only in verbose mode, once per failed call. *)
Definition extends (verbose : bool) (r r' : Run) (made : list Call)
    (printed : list Print) : Prop :=
  history r' = history r ++ made ∧
  console r' = console r ++ printed ∧
  omap storeOf made = omap handedOver made ∧
  length (filter (λ p, isWarning p = true) printed)
  = if verbose then length (filter (λ c, failed c = true) made) else 0%nat.

End Cli.

(** ** Sample data *)

Module Samples.
Import GoTime Kiteconnect Storage.

(** 100.0 and NaN as bit patterns. *)
Definition f100 : float64 := 4636737291354636288.
Definition fNaN : float64 := 9221120237041090560.

Definition candle1 : HistoricalData :=
  mkHistoricalData (ParseDate 2024 1 1) f100 f100 f100 f100 10 0.
Definition candle2 : HistoricalData :=
  mkHistoricalData (ParseDate 2024 1 2) f100 f100 f100 f100 20 0.
Definition candleNaN : HistoricalData :=
  mkHistoricalData (ParseDate 2024 1 3) fNaN f100 f100 f100 30 0.

(** A client that has just made a request: the next token is a third of
    a second away, and the user interrupts after a tenth of a second. *)
Definition busyClient : Kite.World :=
  {| Kite.clock := 0;
     Kite.interrupt := {| Context.cancelAt := Some (Second / 10) |};
     Kite.limiter := {| Rate.limit := 3; Rate.burst := 1;
                        Rate.nextFree := Second / 3 |};
     Kite.upstream := {| Kite.respond := λ _ _ _ _ _, inr [candle1];
                         Kite.calls := 0 |} |}.

Definition candle3 : HistoricalData :=
  mkHistoricalData (ParseDate 2024 1 3) f100 f100 f100 f100 30 0.

(** A table [ohlcv] that was made, before the program ran, with a
    uniqueness constraint on the instrument and the time stamp, the
    first and the sixth column of a row: the engine refuses a row whose
    pair is in the table already.  The table that [Init] makes has no
    constraint, and [CREATE TABLE IF NOT EXISTS] keeps a table that is
    there. *)
Definition uniqueCandles (rows : list Row) (r : Row) : bool :=
  existsb (λ r' : Row,
             bool_decide (r' !! 0%nat = r !! 0%nat
                          ∧ r' !! 5%nat = r !! 5%nat))
          rows.

(** Nothing fails; the buffer of a writer takes 64 records. *)
Definition quiet : Faults :=
  {| connectFails := λ _, false; refuses := λ _ _, false;
     commitFails := false;
     bufferFull := λ buffered, 64 <? Z.of_nat (length buffered);
     deviceFails := false |}.

(** Databases whose table [ohlcv] has the uniqueness constraint. *)
Definition constrained : Faults :=
  {| connectFails := λ _, false; refuses := uniqueCandles;
     commitFails := false;
     bufferFull := λ buffered, 64 <? Z.of_nat (length buffered);
     deviceFails := false |}.


(** An initialised data directory without files. *)
Definition emptyDisk : World :=
  {| dirs := {["data"]}; files := ∅; readOnly := false;
     faults := quiet; log := [] |}.

(** An SQLite and a DuckDB database whose tables hold one row each, under
    the uniqueness constraint. *)
Definition oneRowDisk : World :=
  {| dirs := ∅;
     files := {[ "market.sqlite" :=
                   database "sqlite3" [sqliteRow "SBIN" candle1];
                 "market.duckdb" :=
                   database "duckdb" [duckdbRow "SBIN" candle1] ]};
     readOnly := false; faults := constrained; log := [] |}.

(** A data directory in which [SBIN.json] is not JSON and [SBIN.csv]
    holds a header and one record, and [INFY.json] an array of one
    candle. *)
Definition usedDisk : World :=
  {| dirs := {["data"]};
     files := {[ "data/SBIN.json" :=
                   {| preamble := RawBytes "<html>"; records := [] |};
                 "data/SBIN.csv" :=
                   {| preamble := NoPreamble;
                      records := [csvHeader; csvRecord "SBIN" candle1] |};
                 "data/INFY.json" :=
                   {| preamble := JSONArray [candle1]; records := [] |} ]};
     readOnly := false; faults := quiet; log := [] |}.


(** A data directory in which [INFY.csv] was created empty by another
    program. *)
Definition touchedDisk : World :=
  {| dirs := {["data"]};
     files := {[ "data/INFY.csv" := emptyFile ]};
     readOnly := false; faults := quiet; log := [] |}.

(** An upstream that fails on the first request, has nothing for the
    second, and answers the later ones. *)
Definition moodyUpstream : Kite.Upstream :=
  {| Kite.respond := λ n _ _ _ _,
       match n with
       | O => inl "network"
       | S O => inr []
       | S (S O) => inr [candle1]
       | _ => inr [candle2]
       end;
     Kite.calls := 0 |}.

Definition sampleRun : Cli.Run :=
  {| Cli.kite := {| Kite.clock := 0; Kite.interrupt := Context.Background;
                    Kite.limiter := Rate.NewLimiter 3 1;
                    Kite.upstream := moodyUpstream |};
     Cli.disk := emptyDisk; Cli.console := []; Cli.history := [] |}.

Definition sampleConfig : Cli.Config :=
  {| Cli.Instruments := ["SBIN"; "NOPE"; "INFY"]; Cli.Interval := "minute" |}.

Definition sampleTokens : gmap string Z :=
  {[ "SBIN" := 779521; "INFY" := 408065 ]}.

End Samples.

(** ** Further vocabulary for the stores *)

Module StoreSpec.
Import GoTime Kiteconnect Storage.

Definition isJSONStore (s : Store) : bool :=
  match s with JSONStore _ => true | _ => false end.

Definition isDatabase (s : Store) : bool :=
  match s with DuckDBStore _ | SQLiteStore _ => true | _ => false end.

Definition worldOf (r : (Z * option Error) * World) : World := r.2.

(** The two worlds differ at most in the file that [path] names in the
    first, and in the log: the directories are the same, and so is
    every other file. *)
Definition sameElsewhere (path : string) (w w' : World) : Prop :=
  dirs w' = dirs w ∧ readOnly w' = readOnly w ∧ faults w' = faults w ∧
  match resolve w path with
  | Some loc => ∀ k : string, k ≠ keyOf loc → files w' !! k = files w !! k
  | None => files w' = files w
  end.

(** [Init] has not done its work: a database store finds no table at
    its path; on the way to the file of a file store a directory is
    missing. *)
Definition uninitialised (s : Store) (w : World) (instrumentSymbol : string)
    : bool :=
  match s with
  | DuckDBStore db | SQLiteStore db =>
      match ReadFile db w ≫= tableOf (driverOf s) with
      | Some (Some _) => false
      | _ => true
      end
  | JSONStore _ | CSVStore _ =>
      negb (reachable (dataPath s instrumentSymbol) w)
  end.

(** The name of the file of an instrument in the directory of a file
    store. *)
Definition fileName (s : Store) (instrumentSymbol : string) : string :=
  match s with
  | JSONStore _ => instrumentSymbol +:+ ".json"
  | CSVStore _ => instrumentSymbol +:+ ".csv"
  | DuckDBStore _ | SQLiteStore _ => ""
  end.

(** Nothing stands in the way of a write after [Init].  For a database
    store: the commit goes through.  For a file store: the name of the
    file is a plain name, so that the file lies in the directory of the
    store; the file system can be written and the device takes the
    writes; the place of the file is free or holds a file; and what the
    JSON store has to encode, the candles of the file and the new ones,
    can be encoded. *)
Definition healthy (s : Store) (w : World) (instrumentSymbol : string)
    (candles : list HistoricalData) : bool :=
  match s with
  | DuckDBStore _ | SQLiteStore _ => negb (commitFails (faults w))
  | JSONStore _ | CSVStore _ =>
      Filepath.isPlain (fileName s instrumentSymbol)
      && negb (readOnly w) && negb (deviceFails (faults w))
      && (negb (Stat (dataPath s instrumentSymbol) w)
          || bool_decide (is_Some (ReadFile (dataPath s instrumentSymbol) w)))
      && (negb (isJSONStore s)
          || forallb marshalable
               (match ReadFile (dataPath s instrumentSymbol) w with
                | Some f => (Unmarshal f []).1
                | None => []
                end ++ candles))
  end.

End StoreSpec.

(** ** [time.Parse] with the layout 2006-01-02 *)

Module TimeParse.
Import GoTime.

Definition isDigit (c : Ascii.ascii) : bool :=
  (48 <=? Strings.code c) && (Strings.code c <=? 57).

Definition digit (c : Ascii.ascii) : Z := Strings.code c - 48.

Definition isLeap (year : Z) : bool :=
  (year mod 4 =? 0) && (negb (year mod 100 =? 0) || (year mod 400 =? 0)).

Definition daysIn (month year : Z) : Z :=
  if month =? 2 then (if isLeap year then 29 else 28)
  else if (month =? 4) || (month =? 6) || (month =? 9) || (month =? 11)
       then 30
       else 31.

(** [time.Parse("2006-01-02", value)]: four digits, a dash, two digits, a
    dash, two digits and nothing else; the month from 1 to 12 and the day
    one of that month.  The result is midnight UTC of that date; [None] is
    an error. *)
Definition Parse (value : string) : option Time :=
  match String.list_ascii_of_string value with
  | [y1; y2; y3; y4; s1; m1; m2; s2; d1; d2] =>
      if isDigit y1 && isDigit y2 && isDigit y3 && isDigit y4
         && (Strings.code s1 =? 45)
         && isDigit m1 && isDigit m2
         && (Strings.code s2 =? 45)
         && isDigit d1 && isDigit d2
      then
        let year := 1000 * digit y1 + 100 * digit y2 + 10 * digit y3
                    + digit y4 in
        let month := 10 * digit m1 + digit m2 in
        let day := 10 * digit d1 + digit d2 in
        if (month <=? 0) || (12 <? month) then None
        else if (day <? 1) || (daysIn month year <? day) then None
        else Some (ParseDate year month day)
      else None
  | _ => None
  end.

(** What [from, _ := time.Parse(...)] leaves in [from]: the zero
    [time.Time], midnight of January 1 of year 1, after an error. *)
Definition parseOrZero (value : string) : Time :=
  default (ParseDate 1 1 1) (Parse value).

End TimeParse.

(** ** Package [internal/config] *)

Module Config.
Import GoTime.

Record Config : Type := mkConfig {
  APIKey : string;
  APISecret : string;
  RequestToken : string;
  Instruments : list string;
  FromDate : string;
  ToDate : string;
  Interval : string;
  StorageType : string;
  StoragePath : string;
  LogFile : string;
  DuckDBPath : string
}.

Record ValidationError : Type := mkValidationError {
  Field : string;
  Value : string;
  Message : string
}.

(** [ValidationError.Error]. *)
Definition errorText (e : ValidationError) : string :=
  if negb (String.eqb (Value e) "")
  then Field e +:+ " (" +:+ Value e +:+ "): " +:+ Message e
  else Field e +:+ ": " +:+ Message e.

(** [ValidationResult]: the slice [Errors]. *)
Definition ValidationResult : Type := list ValidationError.

Definition AddError (r : ValidationResult) (field value message : string)
    : ValidationResult :=
  r ++ [{| Field := field; Value := value; Message := message |}].

Definition HasErrors (r : ValidationResult) : bool :=
  0 <? Z.of_nat (length r).

(** [ValidationResult.Error]. *)
Definition Error (r : ValidationResult) : string :=
  if negb (HasErrors r) then ""
  else Strings.Join (errorText <$> r) "; ".

Definition validIntervals : list string :=
  ["minute"; "3minute"; "5minute"; "10minute"; "15minute"; "30minute";
   "60minute"; "day"].

Definition validStorageTypes : list string :=
  ["duckdb"; "sqlite"; "json"; "csv"].

(** The loop [for _, valid := range ... { if x == valid ... }]. *)
Definition oneOf (x : string) (valid : list string) : bool :=
  existsb (String.eqb x) valid.

(** [if cond { result.AddError(...) }]. *)
Definition addErrorIf (cond : bool) (field value message : string)
    (r : ValidationResult) : ValidationResult :=
  if cond then AddError r field value message else r.

(** Body of the loop over the instruments. *)
Definition checkInstrument (r : ValidationResult) (instrument : string)
    : ValidationResult :=
  let r := addErrorIf (String.eqb (Strings.TrimSpace instrument) "")
             "instruments" instrument "empty instrument symbol found" r in
  addErrorIf (20 <? Z.of_nat (String.length instrument))
    "instruments" instrument
    "instrument symbol too long (max 20 characters)" r.

Definition ValidateBasic (c : Config) : ValidationResult :=
  let result : ValidationResult := [] in
  (* required fields *)
  let result := addErrorIf (String.eqb (APIKey c) "")
                  "api_key" "" "is required" result in
  let result := addErrorIf (String.eqb (APISecret c) "")
                  "api_secret" "" "is required" result in
  let result := addErrorIf (Z.of_nat (length (Instruments c)) =? 0)
                  "instruments" ""
                  "at least one instrument must be specified" result in
  let result := addErrorIf (String.eqb (FromDate c) "")
                  "from_date" "" "is required" result in
  let result := addErrorIf (String.eqb (ToDate c) "")
                  "to_date" "" "is required" result in
  let result := addErrorIf (String.eqb (Interval c) "")
                  "interval" "" "is required" result in
  (* date format *)
  let result :=
    addErrorIf (negb (String.eqb (FromDate c) "")
                && negb (bool_decide (is_Some (TimeParse.Parse (FromDate c)))))
      "from_date" (FromDate c) "must be in YYYY-MM-DD format" result in
  let result :=
    addErrorIf (negb (String.eqb (ToDate c) "")
                && negb (bool_decide (is_Some (TimeParse.Parse (ToDate c)))))
      "to_date" (ToDate c) "must be in YYYY-MM-DD format" result in
  (* date range *)
  let result :=
    addErrorIf
      (negb (String.eqb (FromDate c) "") && negb (String.eqb (ToDate c) "")
       && match TimeParse.Parse (FromDate c), TimeParse.Parse (ToDate c) with
          | Some from, Some to => negb (Before from to)
          | _, _ => false
          end)
      "date_range" (FromDate c +:+ " to " +:+ ToDate c)
      "from_date must be before to_date" result in
  (* interval *)
  let result :=
    addErrorIf (negb (String.eqb (Interval c) "")
                && negb (oneOf (Interval c) validIntervals))
      "interval" (Interval c)
      ("must be one of: " +:+ Strings.Join validIntervals ", ") result in
  (* storage type *)
  let result :=
    addErrorIf (negb (String.eqb (StorageType c) "")
                && negb (oneOf (StorageType c) validStorageTypes))
      "storage_type" (StorageType c)
      ("must be one of: " +:+ Strings.Join validStorageTypes ", ") result in
  (* instruments *)
  foldl checkInstrument result (Instruments c).

(** *** [ValidateStorage] and [ValidateComplete] *)

(** [if err := os.MkdirAll(dir, 0755); err != nil { result.AddError(...) }].
    The text of the error of the operating system, which the code appends
    to the message, is left out. *)
Definition mkdirOrError (dir field value message : string)
    (st : ValidationResult * Storage.World)
    : ValidationResult * Storage.World :=
  match Storage.MkdirAll dir st.2 with
  | (true, w') => (st.1, w')
  | (false, w') => (AddError st.1 field value message, w')
  end.

(** The storage type and path that [ValidateStorage] checks. *)
Definition validatedStorage (c : Config) : string * string :=
  let storageType := StorageType c in
  let storagePath := StoragePath c in
  let '(storageType, storagePath) :=
    if String.eqb storagePath "" && negb (String.eqb (DuckDBPath c) "")
    then (if String.eqb storageType "" then "duckdb" else storageType,
          DuckDBPath c)
    else (storageType, storagePath) in
  let storageType :=
    if String.eqb storageType "" then "duckdb" else storageType in
  (storageType, storagePath).

Definition ValidateStorage (c : Config) (w : Storage.World)
    : ValidationResult * Storage.World :=
  let '(storageType, storagePath) := validatedStorage c in
  let st : ValidationResult * Storage.World := ([], w) in
  let st :=
    if negb (String.eqb storagePath "") then
      if String.eqb storageType "duckdb" || String.eqb storageType "sqlite"
      then
        let dir := Filepath.Dir storagePath in
        let st :=
          if negb (String.eqb dir ".")
          then mkdirOrError dir "storage_path" storagePath
                 "cannot create directory: " st
          else st in
        if Storage.Stat storagePath st.2
           && negb (Storage.OpenFileWriteOnly storagePath st.2)
        then (AddError st.1 "storage_path" storagePath
                "file exists but is not writable", st.2)
        else st
      else if String.eqb storageType "json" || String.eqb storageType "csv"
      then mkdirOrError storagePath "storage_path" storagePath
             "cannot create directory: " st
      else st
    else st in
  if negb (String.eqb (LogFile c) "") then
    let logDir := Filepath.Dir (LogFile c) in
    if negb (String.eqb logDir ".")
    then mkdirOrError logDir "log_file" (LogFile c)
           "cannot create log directory: " st
    else st
  else st.

Definition ValidateComplete (c : Config) (w : Storage.World)
    : ValidationResult * Storage.World :=
  let result : ValidationResult := [] in
  let basicResult := ValidateBasic c in
  let result := result ++ basicResult in
  if negb (HasErrors basicResult) then
    let '(storageResult, w') := ValidateStorage c w in
    (result ++ storageResult, w')
  else (result, w).

End Config.

(** *** Specification vocabulary for the configuration *)

Module ConfigSpec.
Import GoTime Config.

(** A configuration that states everything a run needs: both keys, at
    least one instrument, none of them blank or longer than twenty
    bytes, two calendar dates in order, an interval and a storage type
    from the lists of the validator (the storage type may be left
    out). *)
Definition wellFormed (c : Config) : Prop :=
  APIKey c ≠ "" ∧ APISecret c ≠ "" ∧
  Instruments c ≠ [] ∧
  Forall (λ instrument,
            Strings.TrimSpace instrument ≠ ""
            ∧ (String.length instrument ≤ 20)%nat)
         (Instruments c) ∧
  (∃ from to, TimeParse.Parse (FromDate c) = Some from
              ∧ TimeParse.Parse (ToDate c) = Some to ∧ from < to) ∧
  Interval c ∈ validIntervals ∧
  (StorageType c = "" ∨ StorageType c ∈ validStorageTypes).

(** The errors of a result that concern [field]. *)
Definition errorsOn (field : string) (r : ValidationResult)
    : ValidationResult :=
  filter (λ e, Field e = field) r.

(** What a validation may do to the disk: make directories, and
    nothing else; on a disk that cannot be written, nothing at all. *)
Definition onlyDirectories (w w' : Storage.World) : Prop :=
  Storage.files w' = Storage.files w ∧
  Storage.log w' = Storage.log w ∧
  Storage.readOnly w' = Storage.readOnly w ∧
  Storage.faults w' = Storage.faults w ∧
  Storage.dirs w ⊆ Storage.dirs w' ∧
  (Storage.readOnly w = true → Storage.dirs w' = Storage.dirs w).

End ConfigSpec.

(** ** Package [internal/cli]: the [validate] command *)

Module Validate.
Import GoTime.

Definition isValidDate (date : string) : bool :=
  bool_decide (is_Some (TimeParse.Parse date)).

Definition isValidInterval (interval : string) : bool :=
  Config.oneOf interval
    ["minute"; "3minute"; "5minute"; "10minute"; "15minute"; "30minute";
     "60minute"; "day"].

Definition isValidStorageType (storageType : string) : bool :=
  if String.eqb storageType "" then true
  else Config.oneOf storageType ["duckdb"; "sqlite"; "json"; "csv"].

(** The status that [showFieldValidationReport] shows on each line,
    with the name of the line; the value shown beside it is left out. *)
Definition showFieldValidationReport (c : Config.Config)
    : list (string * bool) :=
  let bothValid :=
    isValidDate (Config.FromDate c) && isValidDate (Config.ToDate c) in
  let dateRangeValid :=
    if bothValid
    then Before (TimeParse.parseOrZero (Config.FromDate c))
                (TimeParse.parseOrZero (Config.ToDate c))
    else false in
  let fromDateValid :=
    isValidDate (Config.FromDate c)
    && (dateRangeValid || String.eqb (Config.ToDate c) "") in
  let toDateValid :=
    isValidDate (Config.ToDate c)
    && (dateRangeValid || String.eqb (Config.FromDate c) "") in
  [ ("API Key", negb (String.eqb (Config.APIKey c) ""));
    ("API Secret", negb (String.eqb (Config.APISecret c) ""));
    ("Instruments", 0 <? Z.of_nat (length (Config.Instruments c)));
    ("From Date", fromDateValid);
    ("To Date", toDateValid);
    ("Interval", isValidInterval (Config.Interval c));
    ("Storage Type", isValidStorageType (Config.StorageType c)) ]
  ++ (if bothValid
      then [("Date Range",
             Before (TimeParse.parseOrZero (Config.FromDate c))
                    (TimeParse.parseOrZero (Config.ToDate c)))]
      else []).

(** The [switch storageType] that picks the path of a store that has
    none. *)
Definition defaultPath (storageType : Storage.StorageType) : string :=
  if String.eqb storageType Storage.StorageTypeJSON then "data/json"
  else if String.eqb storageType Storage.StorageTypeCSV then "data/csv"
  else if String.eqb storageType Storage.StorageTypeSQLite
       then "market_data.sqlite"
       else "market_data.duckdb".

(** The store that [testStorage] sets up: its type and its path. *)
Definition testedStorage (c : Config.Config)
    : Storage.StorageType * string :=
  let storageType := Config.StorageType c in
  let storageType :=
    if String.eqb storageType "" then Storage.StorageTypeDuckDB
    else storageType in
  let storagePath := Config.StoragePath c in
  let storagePath :=
    if String.eqb storagePath "" && negb (String.eqb (Config.DuckDBPath c) "")
    then Config.DuckDBPath c else storagePath in
  let storagePath :=
    if String.eqb storagePath "" then defaultPath storageType
    else storagePath in
  (storageType, storagePath).

Inductive TestError : Type :=
| InitializationFailed      (* "initialization failed" *)
| SetupFailed.              (* "setup failed" *)

(** [testStorage]: the store is made, initialised and closed.  The
    logger it hands to the store discards what is written, so the log is
    afterwards what it was. *)
Definition testStorage (c : Config.Config) (w : Storage.World)
    : option TestError * Storage.World :=
  let '(storageType, storagePath) := testedStorage c in
  match Storage.NewStore storageType storagePath w with
  | (inl _, w') => (Some InitializationFailed, w')
  | (inr store, w') =>
      let '(err, w') := Storage.Init store w' in
      let '(_, w') := Storage.Close store w' in
      let w' :=
        {| Storage.dirs := Storage.dirs w'; Storage.files := Storage.files w';
           Storage.readOnly := Storage.readOnly w';
           Storage.faults := Storage.faults w'; Storage.log := Storage.log w |} in
      match err with
      | Some _ => (Some SetupFailed, w')
      | None => (None, w')
      end
  end.

(** The loop of [testInstruments] that counts the requested symbols
    found in the token map. *)
Definition validCount (instruments : list string) (tokenMap : gmap string Z)
    : Z :=
  foldl (λ validCount symbol,
           match tokenMap !! symbol with
           | Some _ => validCount + 1
           | None => validCount
           end)
        0 instruments.

(** The number of API calls that [showExecutionEstimate] prints. *)
Definition estimatedAPICalls (c : Config.Config) : Z :=
  let from := TimeParse.parseOrZero (Config.FromDate c) in
  let to := TimeParse.parseOrZero (Config.ToDate c) in
  let chunks := Kite.GenerateDateChunks from to (Config.Interval c) in
  Z.of_nat (length chunks) * Z.of_nat (length (Config.Instruments c)).

End Validate.

(** ** Package [internal/cli]: the [fetch data] command *)

Module Fetch.
Import GoTime Kiteconnect.

(** The fields of [kiteconnect.Instrument] that the command reads. *)
Record Instrument : Type := mkInstrument {
  InstrumentToken : Z;
  Tradingsymbol : string
}.

(** The store that [runFetchData] uses: its type and its path. *)
Definition selectedStorage (c : Config.Config)
    : Storage.StorageType * string :=
  let storageType := Config.StorageType c in
  let storagePath := Config.StoragePath c in
  let '(storageType, storagePath) :=
    if String.eqb storagePath "" && negb (String.eqb (Config.DuckDBPath c) "")
    then (Storage.StorageTypeDuckDB, Config.DuckDBPath c)
    else (storageType, storagePath) in
  let storageType :=
    if String.eqb storageType "" then Storage.StorageTypeDuckDB
    else storageType in
  let storagePath :=
    if String.eqb storagePath "" then Validate.defaultPath storageType
    else storagePath in
  (storageType, storagePath).

(** [instrumentTokenMap]: filled in the order of the instrument list. *)
Definition tokenMapOf (instruments : list Instrument) : gmap string Z :=
  foldl (λ instrumentTokenMap instr,
           <[Tradingsymbol instr := InstrumentToken instr]> instrumentTokenMap)
        ∅ instruments.

(** What the configuration hands to the plan and to the loop. *)
Definition loopConfig (c : Config.Config) : Cli.Config :=
  {| Cli.Instruments := Config.Instruments c;
     Cli.Interval := Config.Interval c |}.

(** Lines of [calculateAPICalls]: those of the logger, and the one
    printed on the console. *)
Inductive PlanLine : Type :=
| Calculating
| NotFound (instrumentSymbol : string)
| ChunksNeeded (instrumentSymbol : string) (chunks : Z)
| InvalidSkipped (n : Z).

Record Plan : Type := mkPlan {
  totalAPICalls : Z;
  validInstruments : Z;
  invalidInstruments : list string;
  lines : list PlanLine
}.

(** Body of [for _, instrumentSymbol := range conf.Instruments]. *)
Definition countInstrument (verbose : bool) (conf : Cli.Config)
    (tokenMap : gmap string Z) (from to : Time) (p : Plan)
    (instrumentSymbol : string) : Plan :=
  match tokenMap !! instrumentSymbol with
  | None =>
      {| totalAPICalls := totalAPICalls p;
         validInstruments := validInstruments p;
         invalidInstruments := invalidInstruments p ++ [instrumentSymbol];
         lines := if verbose then lines p ++ [NotFound instrumentSymbol]
                  else lines p |}                        (* continue *)
  | Some _ =>
      let chunks := Kite.GenerateDateChunks from to (Cli.Interval conf) in
      {| totalAPICalls := totalAPICalls p + Z.of_nat (length chunks);
         validInstruments := validInstruments p + 1;
         invalidInstruments := invalidInstruments p;
         lines := if verbose
                  then lines p ++ [ChunksNeeded instrumentSymbol
                                     (Z.of_nat (length chunks))]
                  else lines p |}
  end.

Definition calculateAPICalls (verbose : bool) (conf : Cli.Config)
    (tokenMap : gmap string Z) (from to : Time) : Plan :=
  let p := {| totalAPICalls := 0; validInstruments := 0;
              invalidInstruments := [];
              lines := if verbose then [Calculating] else [] |} in
  let p := foldl (countInstrument verbose conf tokenMap from to) p
             (Cli.Instruments conf) in
  if (0 <? Z.of_nat (length (invalidInstruments p))) && negb verbose
  then {| totalAPICalls := totalAPICalls p;
          validInstruments := validInstruments p;
          invalidInstruments := invalidInstruments p;
          lines := lines p
                   ++ [InvalidSkipped
                         (Z.of_nat (length (invalidInstruments p)))] |}
  else p.

(** *** Reading the record of a run *)

(** The candles that the calls to [StoreCandles] reported as stored:
    the counts of the calls that returned no error. *)
Definition insertedBy (made : list Cli.Call) : Z :=
  foldr (λ c total,
           match c with
           | Cli.Store _ _ (inserted, None) => inserted + total
           | _ => total
           end)
        0 made.

(** The storage type that names the kind of a store, and the path
    the store was made for. *)
Definition kindOf (s : Storage.Store) : Storage.StorageType :=
  match s with
  | Storage.DuckDBStore _ => Storage.StorageTypeDuckDB
  | Storage.SQLiteStore _ => Storage.StorageTypeSQLite
  | Storage.JSONStore _ => Storage.StorageTypeJSON
  | Storage.CSVStore _ => Storage.StorageTypeCSV
  end.

Definition pathOf (s : Storage.Store) : string :=
  match s with
  | Storage.DuckDBStore path | Storage.SQLiteStore path
  | Storage.JSONStore path | Storage.CSVStore path => path
  end.

(** The pace of the limiter between two states of the client, [n]
    fetches apart: the limiter is the same but for its next token, which
    is [n] token intervals later; the clock has not moved without a
    fetch, and after one it is at least at the instant of the last
    grant. *)
Definition paced (w w' : Kite.World) (n : nat) : Prop :=
  let interval := Second / Rate.limit (Kite.limiter w) in
  Rate.limit (Kite.limiter w') = Rate.limit (Kite.limiter w) ∧
  Rate.burst (Kite.limiter w') = Rate.burst (Kite.limiter w) ∧
  Kite.ready w' = Kite.ready w + Z.of_nat n * interval ∧
  match n with
  | O => Kite.clock w' = Kite.clock w
  | S k => Kite.ready w + Z.of_nat k * interval <= Kite.clock w'
  end.

(** The account of a stretch of a run: the calls [made], the candles
    that the store reported for them, the number of fetches among them,
    and, for a limiter that lets one event through and has a rate, the
    pace of the client. *)
Definition accounted (r r' : Cli.Run) (made : list Cli.Call) (inserted : Z)
    (fetches : nat) : Prop :=
  Cli.history r' = Cli.history r ++ made ∧
  inserted = insertedBy made ∧
  length (omap Cli.fetchOf made) = fetches ∧
  (1 <= Rate.burst (Kite.limiter (Cli.kite r)) →
   0 <= Second / Rate.limit (Kite.limiter (Cli.kite r)) →
   paced (Cli.kite r) (Cli.kite r') fetches).

(** The instruments of the configuration that have a token. *)
Definition known (tokenMap : gmap string Z) (instruments : list string)
    : list string :=
  filter (λ symbol, is_Some (tokenMap !! symbol)) instruments.

End Fetch.

(** ** The first version of the program: [main.go] *)

Module Legacy.
Import GoTime.

Definition INTRADAY_MAX_DAYS : Z := 60.
Definition DAILY_CHUNK_DAYS : Z := 2000.

(** The [switch interval] of [parseIntervalMinutes]. *)
Definition parseIntervalMinutes (interval : string) : Z :=
  if String.eqb interval "minute" then 1
  else if String.eqb interval "3minute" then 3
  else if String.eqb interval "5minute" then 5
  else if String.eqb interval "10minute" then 10
  else if String.eqb interval "15minute" then 15
  else if String.eqb interval "30minute" then 30
  else if String.eqb interval "60minute" || String.eqb interval "hour" then 60
  else if String.eqb interval "day" then 1440
  else 1.

(** The [for currentStart.Before(to)] loop of [generateDateChunks]. *)
Fixpoint chunkLoop (fuel : nat) (chunkSize : Duration) (to : Time)
    (chunks : list (Time * Time)) (currentStart : Time)
    : option (list (Time * Time)) :=
  if Before currentStart to then
    match fuel with
    | O => None
    | S fuel' =>
        let currentEnd := Add currentStart chunkSize in
        let currentEnd := if After currentEnd to then to else currentEnd in
        chunkLoop fuel' chunkSize to
          (chunks ++ [(currentStart, currentEnd)]) (Add currentEnd Second)
    end
  else Some chunks.

Definition generateDateChunks (from to : Time) (interval : string)
    : list (Time * Time) :=
  let intervalMinutes := parseIntervalMinutes interval in
  let chunkSize :=
    if 1440 <=? intervalMinutes
    then DAILY_CHUNK_DAYS * 24 * Hour
    else INTRADAY_MAX_DAYS * 24 * Hour in
  default []
    (chunkLoop (Kite.iterations from to chunkSize) chunkSize to [] from).

End Legacy.

(** ** The program before that: the [package main] kept in
    [internal/logger/logger.go] *)

Module Prototype.
Import GoTime.

(** [chunkSize] of [generateDateChunks]: a year of daily candles, or as
    many days of intraday candles as stay under ten thousand candles.
    [parseIntervalMinutes] is the [switch] of the later [main.go]. *)
Definition chunkSizeOf (interval : string) : Duration :=
  let intervalMinutes := Legacy.parseIntervalMinutes interval in
  if 1440 <=? intervalMinutes then 365 * 24 * Hour
  else
    let candlesPerDay := Z.quot 1440 intervalMinutes in
    let maxDays := Z.quot 10000 candlesPerDay in
    let maxDays := if maxDays <? 1 then 1 else maxDays in
    (maxDays * 24) * Hour.

Definition generateDateChunks (from to : Time) (interval : string)
    : list (Time * Time) :=
  let chunkSize := chunkSizeOf interval in
  default []
    (Legacy.chunkLoop (Kite.iterations from to chunkSize) chunkSize to []
       from).

End Prototype.

(** * Properties *)

(** ** The chunker and the interval calendar *)

Section ChunkerFacts.
Import GoTime Kite.

Lemma Second_pos : 0 < Second.
Proof. reflexivity. Qed.

Lemma chunkSizeOf_cases interval :
  chunkSizeOf interval = DailyChunkDays * 24 * Hour ∨
  chunkSizeOf interval = IntradayMaxDays * 24 * Hour.
Proof. unfold chunkSizeOf. destruct (IsDailyOrLarger interval); auto. Qed.

Lemma chunkSizeOf_pos interval : 0 < chunkSizeOf interval.
Proof. destruct (chunkSizeOf_cases interval) as [-> | ->]; reflexivity. Qed.

Lemma chunkSizeOf_whole_seconds interval :
  (chunkSizeOf interval) `mod` Second = 0.
Proof. destruct (chunkSizeOf_cases interval) as [-> | ->]; reflexivity. Qed.

Lemma chunkLoop_unfold fuel chunkSize to chunks currentStart :
  chunkLoop (S fuel) chunkSize to chunks currentStart =
  if Before currentStart to then
    chunkLoop fuel chunkSize to
      (chunks ++ [(currentStart, chunkEnd chunkSize to currentStart)])
      (Add (chunkEnd chunkSize to currentStart) Second)
  else Some chunks.
Proof. reflexivity. Qed.

Lemma chunkLoop_done fuel chunkSize to chunks currentStart :
  to <= currentStart →
  chunkLoop fuel chunkSize to chunks currentStart = Some chunks.
Proof.
  intros Hle. destruct fuel; simpl; unfold Before;
    destruct (Z.ltb_spec currentStart to); auto; lia.
Qed.

(** The accumulator is only ever extended. *)
Lemma chunkLoop_acc fuel chunkSize to : ∀ chunks currentStart,
  chunkLoop fuel chunkSize to chunks currentStart =
  (chunks ++.) <$> chunkLoop fuel chunkSize to [] currentStart.
Proof.
  induction fuel as [| fuel IH]; intros chunks currentStart.
  - simpl. destruct (Before currentStart to); simpl; [done |].
    by rewrite app_nil_r.
  - rewrite !chunkLoop_unfold. destruct (Before currentStart to); simpl.
    + rewrite IH. rewrite (IH [_]). simpl.
      destruct (chunkLoop fuel chunkSize to [] _) as [l |]; simpl; [| done].
      by rewrite <- app_assoc.
    + by rewrite app_nil_r.
Qed.

Lemma chunkLoop_step fuel chunkSize to currentStart :
  currentStart < to →
  chunkLoop (S fuel) chunkSize to [] currentStart =
  ((currentStart, chunkEnd chunkSize to currentStart) ::.) <$>
    chunkLoop fuel chunkSize to []
      (chunkEnd chunkSize to currentStart + Second).
Proof.
  intros Hlt. rewrite chunkLoop_unfold. unfold Before.
  destruct (Z.ltb_spec currentStart to); [| lia].
  rewrite chunkLoop_acc. unfold Add. done.
Qed.

Lemma chunkEnd_bounds chunkSize to currentStart :
  0 <= chunkSize → currentStart < to →
  currentStart <= chunkEnd chunkSize to currentStart <= to ∧
  chunkEnd chunkSize to currentStart - currentStart <= chunkSize ∧
  (chunkEnd chunkSize to currentStart = to ∨
   chunkEnd chunkSize to currentStart = currentStart + chunkSize).
Proof.
  intros Hsz Hlt. unfold chunkEnd, After, Add.
  destruct (Z.ltb_spec to (currentStart + chunkSize)); lia.
Qed.

(** More fuel never changes a result. *)
Lemma chunkLoop_more_fuel fuel chunkSize to : ∀ fuel' chunks currentStart l,
  (fuel ≤ fuel')%nat →
  chunkLoop fuel chunkSize to chunks currentStart = Some l →
  chunkLoop fuel' chunkSize to chunks currentStart = Some l.
Proof.
  induction fuel as [| fuel IH]; intros fuel' chunks currentStart l Hle Hrun.
  - simpl in Hrun. destruct (Before currentStart to) eqn:Hb; [done |].
    destruct fuel'; simpl; by rewrite Hb.
  - destruct fuel' as [| fuel']; [lia |].
    rewrite chunkLoop_unfold in *. destruct (Before currentStart to); [| done].
    apply IH; [lia | done].
Qed.

(** The bound [iterations] is enough: the loop terminates. *)
Lemma chunkLoop_terminates chunkSize to : ∀ fuel chunks currentStart,
  0 <= chunkSize →
  (iterations currentStart to chunkSize ≤ fuel)%nat →
  is_Some (chunkLoop fuel chunkSize to chunks currentStart).
Proof.
  intros fuel chunks currentStart Hsz. revert chunks currentStart.
  assert (HS := Second_pos).
  induction fuel as [| fuel IH]; intros chunks currentStart Hfuel.
  - unfold iterations in Hfuel.
    destruct (Z.lt_ge_cases currentStart to) as [Hlt | Hge].
    + assert (0 <= (to - currentStart) / (chunkSize + Second))
        by (apply Z.div_pos; lia). lia.
    + rewrite chunkLoop_done; [eauto | lia].
  - destruct (Z.lt_ge_cases currentStart to) as [Hlt | Hge];
      [| rewrite chunkLoop_done; [eauto | lia]].
    rewrite chunkLoop_unfold. unfold Before.
    destruct (Z.ltb_spec currentStart to); [| lia].
    destruct (chunkEnd_bounds chunkSize to currentStart Hsz Hlt)
      as (Hb & _ & [Heq | Heq]).
    + rewrite chunkLoop_done; [eauto | unfold Add; lia].
    + apply IH. unfold iterations, Add in *. rewrite Heq.
      replace (to - (currentStart + chunkSize + Second))
        with ((to - currentStart) + (-1) * (chunkSize + Second)) by lia.
      rewrite Z.div_add by lia.
      destruct (Z.lt_ge_cases (to - currentStart) (chunkSize + Second)).
      * rewrite Z.div_small by lia. simpl. lia.
      * assert (1 <= (to - currentStart) / (chunkSize + Second))
          by (apply Z.div_le_lower_bound; lia). lia.
Qed.

(** [GenerateDateChunks] is the result of the loop for every sufficient
    number of iterations. *)
Lemma GenerateDateChunks_loop from to interval fuel :
  (iterations from to (chunkSizeOf interval) ≤ fuel)%nat →
  chunkLoop fuel (chunkSizeOf interval) to [] from =
  Some (GenerateDateChunks from to interval).
Proof.
  intros Hfuel. unfold GenerateDateChunks.
  assert (Hpos := chunkSizeOf_pos interval).
  destruct (chunkLoop_terminates (chunkSizeOf interval) to
              (iterations from to (chunkSizeOf interval)) [] from)
    as [l Hl]; [lia | done |].
  simpl. rewrite Hl. simpl.
  by apply (chunkLoop_more_fuel _ _ _ _ _ _ _ Hfuel).
Qed.


Lemma chunkLoop_nil chunkSize to fuel currentStart l :
  chunkLoop fuel chunkSize to [] currentStart = Some l →
  l = [] ↔ ¬ currentStart < to.
Proof.
  intros Hrun. destruct (Z.lt_ge_cases currentStart to) as [Hlt | Hge].
  - destruct fuel as [| fuel].
    + simpl in Hrun. unfold Before in Hrun.
      destruct (Z.ltb_spec currentStart to); [done | lia].
    + rewrite chunkLoop_step in Hrun by done.
      destruct (chunkLoop fuel _ _ _ _); simplify_eq/=. split; [done | lia].
  - rewrite chunkLoop_done in Hrun by lia. simplify_eq. split; [lia | done].
Qed.

(** When [to] is not in the one-second step after a full window, the
    loop yields an exact cover of [currentStart, to]. *)
Lemma chunkLoop_exactCover chunkSize to : ∀ fuel currentStart l,
  0 <= chunkSize →
  currentStart < to →
  0 < (to - currentStart) `mod` (chunkSize + Second) <= chunkSize →
  chunkLoop fuel chunkSize to [] currentStart = Some l →
  exactCover chunkSize to currentStart l = true.
Proof.
  intros fuel currentStart l Hsz. revert currentStart l.
  assert (HS := Second_pos).
  induction fuel as [| fuel IH]; intros currentStart l Hlt Hmod Hrun.
  - simpl in Hrun. unfold Before in Hrun.
    destruct (Z.ltb_spec currentStart to); [done | lia].
  - rewrite chunkLoop_step in Hrun by done.
    destruct (chunkLoop fuel chunkSize to [] _) as [l' |] eqn:Hrest;
      simplify_eq/=.
    destruct (chunkEnd_bounds chunkSize to currentStart Hsz Hlt)
      as (Hb & Hlen & Hend).
    rewrite Z.eqb_refl. simpl.
    destruct (Z.leb_spec currentStart (chunkEnd chunkSize to currentStart));
      [| lia].
    destruct (Z.leb_spec (chunkEnd chunkSize to currentStart - currentStart)
                chunkSize); [| lia].
    simpl.
    destruct (Z.lt_ge_cases (chunkEnd chunkSize to currentStart + Second) to)
      as [Hnext | Hnext].
    + (* another chunk follows: this one is a full window *)
      destruct Hend as [Hend | Hend]; [lia |].
      assert (Hl' : exactCover chunkSize to
                      (chunkEnd chunkSize to currentStart + Second) l' = true).
      { apply IH; [done | | done]. rewrite Hend.
        replace (to - (currentStart + chunkSize + Second))
          with ((to - currentStart) + (-1) * (chunkSize + Second)) by lia.
        by rewrite Z_mod_plus_full. }
      destruct l' as [| c l']; [done | done].
    + (* last chunk *)
      rewrite chunkLoop_done in Hrest by lia. simplify_eq.
      apply Z.eqb_eq. destruct Hend as [Hend | Hend]; [done |].
      destruct (Z.eq_dec (to - currentStart) (chunkSize + Second)) as [He | He].
      * rewrite He, Z_mod_same_full in Hmod. lia.
      * rewrite Z.mod_small in Hmod by lia. lia.
  Qed.

Lemma exactCover_bounds window to : ∀ chunks from,
  exactCover window to from chunks = true →
  Forall (λ c : Chunk, from <= c.1 ∧ c.1 <= c.2) chunks.
Proof.
  induction chunks as [| [s e] rest IH]; intros from Hc; [done |].
  simpl in Hc. repeat (apply andb_prop in Hc as [Hc ?]).
  apply Z.eqb_eq in Hc. apply Z.leb_le in H0. subst s.
  constructor; [simpl; lia |].
  destruct rest as [| c rest]; [constructor |].
  eapply Forall_impl; [apply (IH _ H) |]. simpl. intros ? ?. 
  assert (HS := Second_pos). lia.
Qed.

Lemma exactCover_nonOverlapping window to : ∀ chunks from,
  exactCover window to from chunks = true → nonOverlapping chunks.
Proof.
  induction chunks as [| [s e] rest IH]; intros from Hc i j a b Hij Ha Hb;
    [done |].
  simpl in Hc. repeat (apply andb_prop in Hc as [Hc ?]).
  destruct rest as [| c rest]; [destruct j as [| [|]]; [lia | done | done] |].
  destruct j as [| j]; [lia |]. simpl in Hb.
  destruct i as [| i]; simpl in Ha.
  - simplify_eq. simpl.
    pose proof (exactCover_bounds _ _ _ _ H) as Hall.
    rewrite Forall_forall in Hall.
    destruct (Hall b) as [Hlo _]; [by eapply list_elem_of_lookup_2 |].
    assert (HS := Second_pos). lia.
  - eapply (IH _ H i j); [lia | done | done].
Qed.


(** Every instant of [currentStart, to] that is a whole number of seconds
    after [currentStart], and [to] itself, lies in a chunk. *)
Lemma chunkLoop_covered chunkSize to : ∀ fuel currentStart l t,
  0 <= chunkSize →
  chunkSize `mod` Second = 0 →
  0 < (to - currentStart) `mod` (chunkSize + Second) <= chunkSize →
  chunkLoop fuel chunkSize to [] currentStart = Some l →
  currentStart <= t <= to →
  (t - currentStart) `mod` Second = 0 ∨ t = to →
  covered l t.
Proof.
  intros fuel currentStart l t Hsz Hwhole. revert currentStart l.
  assert (HS := Second_pos).
  induction fuel as [| fuel IH]; intros currentStart l Hmod Hrun Ht Hsec.
  - simpl in Hrun. unfold Before in Hrun.
    destruct (Z.ltb_spec currentStart to); [done |].
    assert (to - currentStart = 0) as Hz by lia.
    rewrite Hz, Z.mod_0_l in Hmod by lia. lia.
  - assert (currentStart < to) as Hlt.
    { destruct (Z.lt_ge_cases currentStart to); [done |].
      assert (to - currentStart = 0) as Hz by lia.
      rewrite Hz, Z.mod_0_l in Hmod by lia. lia. }
    rewrite chunkLoop_step in Hrun by done.
    destruct (chunkLoop fuel chunkSize to [] _) as [l' |] eqn:Hrest;
      simplify_eq/=.
    destruct (chunkEnd_bounds chunkSize to currentStart Hsz Hlt)
      as (Hb & Hlen & Hend).
    destruct (Z.le_gt_cases t (chunkEnd chunkSize to currentStart))
      as [Hin | Hout].
    { exists (currentStart, chunkEnd chunkSize to currentStart).
      split; [left | simpl; lia]. }
    destruct Hend as [Hend | Hend]; [lia |].
    assert (Hrem : (to - (chunkEnd chunkSize to currentStart + Second))
                     `mod` (chunkSize + Second)
                   = (to - currentStart) `mod` (chunkSize + Second)).
    { rewrite Hend.
      replace (to - (currentStart + chunkSize + Second))
        with ((to - currentStart) + (-1) * (chunkSize + Second)) by lia.
      by rewrite Z_mod_plus_full. }
    assert (Hnext : chunkEnd chunkSize to currentStart + Second < to).
    { destruct (Z.lt_ge_cases (chunkEnd chunkSize to currentStart + Second) to)
        as [? | Hge]; [done |]. exfalso.
      destruct (Z.eq_dec (to - currentStart) (chunkSize + Second)) as [He | He].
      - rewrite He, Z_mod_same_full in Hmod. lia.
      - rewrite Z.mod_small in Hmod by lia. lia. }
    assert (Hstep : chunkEnd chunkSize to currentStart + Second <= t ∧
              ((t - (chunkEnd chunkSize to currentStart + Second))
                 `mod` Second = 0 ∨ t = to)).
    { destruct Hsec as [Hsec | ->]; [| split; [lia | by right]].
      apply Z.mod_divide in Hsec; [| lia]. destruct Hsec as [k Hk].
      apply Z.mod_divide in Hwhole; [| lia]. destruct Hwhole as [w Hw].
      rewrite Hend in *. assert (w < k) by nia.
      split; [nia |]. left.
      replace (t - (currentStart + chunkSize + Second))
        with ((k - w - 1) * Second) by lia.
      apply Z_mod_mult. }
    destruct Hstep as [Hle Hsec'].
    destruct (IH (chunkEnd chunkSize to currentStart + Second) l')
      as (c & Hc & Hbounds); [by rewrite Hrem | done | lia | done |].
    exists c. split; [by right | done].
Qed.

(** In general the last chunk ends at [to] or less than, or exactly, one
    second before it, after a full window. *)
Lemma chunkLoop_last chunkSize to : ∀ fuel currentStart l,
  0 <= chunkSize →
  currentStart < to →
  chunkLoop fuel chunkSize to [] currentStart = Some l →
  ∃ c : Chunk, last l = Some c ∧
    (c.2 = to ∨ (c.2 = c.1 + chunkSize ∧ c.2 < to <= c.2 + Second)).
Proof.
  intros fuel currentStart l Hsz. revert currentStart l.
  induction fuel as [| fuel IH]; intros currentStart l Hlt Hrun.
  - simpl in Hrun. unfold Before in Hrun.
    destruct (Z.ltb_spec currentStart to); [done | lia].
  - rewrite chunkLoop_step in Hrun by done.
    destruct (chunkLoop fuel chunkSize to [] _) as [l' |] eqn:Hrest;
      simplify_eq/=.
    destruct (chunkEnd_bounds chunkSize to currentStart Hsz Hlt)
      as (Hb & Hlen & Hend).
    destruct (Z.lt_ge_cases (chunkEnd chunkSize to currentStart + Second) to)
      as [Hnext | Hnext].
    + destruct (IH _ _ Hnext Hrest) as (c & Hlast & Hc).
      exists c. split; [| done].
      destruct l' as [| c' l']; [done |]. by rewrite last_cons, Hlast.
    + rewrite chunkLoop_done in Hrest by lia. simplify_eq.
      exists (currentStart, chunkEnd chunkSize to currentStart).
      split; [done |]. simpl. destruct Hend as [Hend | Hend]; [by left |].
      destruct (Z.eq_dec (chunkEnd chunkSize to currentStart) to);
        [by left | right; lia].
Qed.

(** Calendar dates: two midnights less than 86400 windows apart never
    leave [to] in the step after a full window. *)
Lemma calendar_dates_remainder (days from to : Z) :
  0 < days →
  from `mod` Day = 0 → to `mod` Day = 0 →
  from < to →
  to - from < 86400 * (days * Day + Second) →
  0 < (to - from) `mod` (days * Day + Second) <= days * Day.
Proof.
  intros Hdays Hfrom Hto Hlt Hspan.
  assert (HS : Second = 1000000000) by reflexivity.
  assert (HD : Day = 86400 * Second) by reflexivity.
  apply Z.mod_divide in Hfrom; [| rewrite HD, HS; lia].
  apply Z.mod_divide in Hto; [| rewrite HD, HS; lia].
  destruct Hfrom as [a Ha], Hto as [b Hb].
  set (P := days * Day + Second) in *.
  assert (HP : 0 < P) by (unfold P; nia).
  pose proof (Z.div_mod (to - from) P ltac:(lia)) as Hdm.
  pose proof (Z.mod_pos_bound (to - from) P HP) as Hr.
  set (q := (to - from) / P) in *. set (r := (to - from) `mod` P) in *.
  assert (Hq0 : 0 <= q) by (apply Z.div_pos; lia).
  assert (Hq1 : q < 86400) by (apply Z.div_lt_upper_bound; lia).
  (* r = k * Day - q * Second for the integer k = b - a - q * days *)
  assert (Hk : r = (b - a - q * days) * Day - q * Second) by (unfold P in Hdm; nia).
  set (k := b - a - q * days) in *.
  assert (Hk1 : 1 <= k).
  { destruct (Z.le_gt_cases 1 k); [done |]. exfalso.
    assert (q = 0) by nia. subst q. nia. }
  assert (Hk2 : k <= days).
  { destruct (Z.le_gt_cases k days); [done |]. exfalso. unfold P in Hr. nia. }
  split; nia.
Qed.


Lemma GenerateDateChunks_nil from to interval :
  GenerateDateChunks from to interval = [] ↔ ¬ from < to.
Proof.
  eapply chunkLoop_nil. by apply (GenerateDateChunks_loop from to interval).
Qed.

(** Over calendar dates the chunker always yields an exact cover: the
    callers pass midnights parsed from [2006-01-02] dates, and two dates
    with four-digit years are less than 86400 windows apart. *)
Lemma GenerateDateChunks_calendar_dates from to interval :
  from `mod` Day = 0 → to `mod` Day = 0 →
  from < to →
  to - from < 86400 * (chunkSizeOf interval + Second) →
  exactCover (chunkSizeOf interval) to from
    (GenerateDateChunks from to interval) = true.
Proof.
  intros Hfrom Hto Hlt Hspan.
  assert (Hpos := chunkSizeOf_pos interval).
  eapply chunkLoop_exactCover;
    [lia | done | | by apply (GenerateDateChunks_loop from to interval)].
  destruct (chunkSizeOf_cases interval) as [Hc | Hc]; rewrite Hc in *.
  - apply (calendar_dates_remainder DailyChunkDays); done.
  - apply (calendar_dates_remainder IntradayMaxDays); done.
Qed.

(** The last chunk never overshoots [to] and ends at most one second
    before it. *)
Lemma GenerateDateChunks_last from to interval :
  from < to →
  ∃ c : Chunk, last (GenerateDateChunks from to interval) = Some c ∧
    to - Second <= c.2 <= to.
Proof.
  intros Hlt. assert (Hpos := chunkSizeOf_pos interval).
  destruct (chunkLoop_last (chunkSizeOf interval) to
              (iterations from to (chunkSizeOf interval)) from
              (GenerateDateChunks from to interval))
    as (c & Hlast & Hc); [lia | done | by apply GenerateDateChunks_loop |].
  exists c. assert (HS := Second_pos). split; [done | lia].
Qed.

(** C1 (as amended).  For every [from] strictly before [to] such that
    [to] does not fall in the one-second step that follows a full window
    (the distance from [from] to [to], modulo window plus one second, is
    neither zero nor more than the window), [GenerateDateChunks] returns a
    non-empty ordered sequence of chunks that starts at [from], in which
    every chunk spans at most the interval's window, every next chunk
    starts one second after the end of the one before, and the last chunk
    ends exactly at [to]; the chunks do not overlap, and every whole
    second of [from, to], and [to] itself, lies in a chunk.  For all
    inputs, zero chunks are returned if and only if [from] is not strictly
    before [to]. *)
Theorem GenerateDateChunks_exact_cover from to interval :
  from < to →
  0 < (to - from) `mod` (chunkSizeOf interval + Second)
    <= chunkSizeOf interval →
  exactCover (chunkSizeOf interval) to from
    (GenerateDateChunks from to interval) = true ∧
  nonOverlapping (GenerateDateChunks from to interval) ∧
  (∀ t : Time, from <= t <= to →
     (t - from) `mod` Second = 0 ∨ t = to →
     covered (GenerateDateChunks from to interval) t) ∧
  (∀ from' to' : Time,
     GenerateDateChunks from' to' interval = [] ↔ ¬ from' < to').
Proof.
  intros Hlt Hmod.
  assert (Hpos := chunkSizeOf_pos interval).
  assert (Hrun := GenerateDateChunks_loop from to interval _ (le_n _)).
  assert (Hexact : exactCover (chunkSizeOf interval) to from
                     (GenerateDateChunks from to interval) = true).
  { eapply chunkLoop_exactCover; [lia | done | done | exact Hrun]. }
  split; [done |]. split; [by eapply exactCover_nonOverlapping |].
  split; [| intros; apply GenerateDateChunks_nil].
  intros t Ht Hsec.
  eapply chunkLoop_covered;
    [| apply chunkSizeOf_whole_seconds | exact Hmod | exact Hrun | done | done].
  lia.
Qed.

Lemma GenerateDateChunks_exact_cover_witness :
  exactCover (chunkSizeOf "minute") (ParseDate 2024 4 1) (ParseDate 2024 1 1)
    (GenerateDateChunks (ParseDate 2024 1 1) (ParseDate 2024 4 1) "minute")
  = true.
Proof.
  apply (GenerateDateChunks_exact_cover
           (ParseDate 2024 1 1) (ParseDate 2024 4 1) "minute").
  - reflexivity.
  - vm_compute. split; [reflexivity | discriminate].
Defined.

(** C1 fails as stated: with [to] one second after the end of the first
    60-day window, the only chunk ends one second before [to]. *)
Lemma GenerateDateChunks_stops_short_of_to :
  ParseDate 2024 1 1 < ParseDate 2024 3 1 + Second ∧
  GenerateDateChunks (ParseDate 2024 1 1) (ParseDate 2024 3 1 + Second)
    "minute"
  = [(ParseDate 2024 1 1, ParseDate 2024 3 1)] ∧
  exactCover (chunkSizeOf "minute")
    (ParseDate 2024 3 1 + Second) (ParseDate 2024 1 1)
    (GenerateDateChunks (ParseDate 2024 1 1) (ParseDate 2024 3 1 + Second)
       "minute")
  = false.
Proof. vm_compute. done. Qed.

(** C5.  For interval "day" from 2024-01-01 to 2024-01-05 the chunker
    returns exactly one chunk; for interval "minute" from 2024-01-01 to
    2024-04-01, under the 60-day intraday cap, it returns exactly two
    chunks and the second ends exactly at [to]. *)
Theorem GenerateDateChunks_scenarios :
  GenerateDateChunks (ParseDate 2024 1 1) (ParseDate 2024 1 5) "day"
  = [(ParseDate 2024 1 1, ParseDate 2024 1 5)] ∧
  IntradayMaxDays = 60 ∧
  GenerateDateChunks (ParseDate 2024 1 1) (ParseDate 2024 4 1) "minute"
  = [(ParseDate 2024 1 1, ParseDate 2024 3 1);
     (ParseDate 2024 3 1 + Second, ParseDate 2024 4 1)].
Proof. vm_compute. done. Qed.

(** C6.  For every interval token outside the recognized set,
    [parseIntervalMinutes] returns 1; the interval is therefore not daily
    and is chunked with the 60-day intraday window, exactly like
    "minute". *)
Theorem parseIntervalMinutes_unrecognized interval :
  interval ∉ recognizedIntervals →
  parseIntervalMinutes interval = 1 ∧
  IsDailyOrLarger interval = false ∧
  chunkSizeOf interval = IntradayMaxDays * 24 * Hour ∧
  ∀ from to : Time,
    GenerateDateChunks from to interval
    = GenerateDateChunks from to "minute".
Proof.
  intros Hnot.
  assert (Hmin : parseIntervalMinutes interval = 1).
  { unfold parseIntervalMinutes, intervalMap.
    rewrite (not_elem_of_list_to_map_1 _ interval); [done |].
    exact Hnot. }
  assert (Hdaily : IsDailyOrLarger interval = false).
  { unfold IsDailyOrLarger. by rewrite Hmin. }
  assert (Hsize : chunkSizeOf interval = IntradayMaxDays * 24 * Hour).
  { unfold chunkSizeOf. by rewrite Hdaily. }
  repeat split; try done.
  intros from to. unfold GenerateDateChunks. by rewrite Hsize.
Qed.

Lemma parseIntervalMinutes_unrecognized_witness :
  parseIntervalMinutes "week" = 1.
Proof.
  apply (parseIntervalMinutes_unrecognized "week").
  unfold recognizedIntervals. rewrite !elem_of_cons, elem_of_nil.
  intros H; repeat destruct H as [H | H]; discriminate || done.
Defined.

End ChunkerFacts.

(** ** The client *)

Section ClientFacts.
Import GoTime Kiteconnect Kite.

(** On [context.Background()] the wait only ends with the token. *)
Lemma Wait_Background (lim : Rate.Limiter) (now : Time) :
  1 <= Rate.burst lim →
  Rate.Wait lim Context.Background now =
  (None, Z.max now (Rate.nextFree lim),
   {| Rate.limit := Rate.limit lim; Rate.burst := Rate.burst lim;
      Rate.nextFree := Z.max now (Rate.nextFree lim)
                       + Second / Rate.limit lim |}).
Proof.
  intros Hburst. unfold Rate.Wait.
  destruct (Z.ltb_spec (Rate.burst lim) 1); [lia |]. done.
Qed.

Lemma Wait_Background_not_cancelled (lim : Rate.Limiter) (now : Time) :
  (Rate.Wait lim Context.Background now).1.1 ≠ Some Rate.ErrCanceled.
Proof.
  unfold Rate.Wait. destruct (Rate.burst lim <? 1); simpl; done.
Qed.

(** C3 (as amended).  [GetHistoricalData] takes no context from its
    caller and waits for its token on [context.Background()]: whatever
    the state of the signal that cancels the run, the call gives the same
    result, which is never a cancellation failure; with the client's
    limiter (burst at least one) it returns only once the limiter grants
    the token, and its result is the answer of the upstream API. *)
Theorem GetHistoricalData_not_cancellable
    (w : World) (ctx : Context.Context) (instrumentToken : Z)
    (interval : string) (from to : Time) :
  1 <= Rate.burst (limiter w) →
  (GetHistoricalData (withInterrupt ctx w) instrumentToken interval
     from to).1
  = (GetHistoricalData w instrumentToken interval from to).1 ∧
  ¬ isCancellation
      (GetHistoricalData (withInterrupt ctx w) instrumentToken interval
         from to).1 ∧
  clock (GetHistoricalData (withInterrupt ctx w) instrumentToken interval
           from to).2 = ready w ∧
  (GetHistoricalData (withInterrupt ctx w) instrumentToken interval
     from to).1
  = match respond (upstream w) (calls (upstream w)) instrumentToken
            interval from to with
    | inl err => inl (APIError err)
    | inr candles => inr candles
    end.
Proof.
  intros Hburst. unfold GetHistoricalData, isCancellation, ready. simpl.
  rewrite (Wait_Background _ _ Hburst).
  destruct (respond (upstream w) (calls (upstream w)) instrumentToken
              interval from to); simpl; repeat split; done.
Qed.

Lemma GetHistoricalData_not_cancellable_witness :
  (GetHistoricalData Samples.busyClient 256265 "day"
     (ParseDate 2024 1 1) (ParseDate 2024 1 5)).1
  = inr [Samples.candle1].
Proof.
  pose proof (GetHistoricalData_not_cancellable Samples.busyClient
                (interrupt Samples.busyClient) 256265 "day"
                (ParseDate 2024 1 1) (ParseDate 2024 1 5)) as H.
  destruct H as (_ & _ & _ & H); [vm_compute; discriminate |].
  exact H.
Defined.

(** C3 fails as stated: the interrupt fires while the fetch waits for
    its token, and the fetch still waits, returns when the token is
    there, and succeeds. *)
Lemma GetHistoricalData_waits_through_interrupt :
  cancelledWhileWaiting Samples.busyClient ∧
  (GetHistoricalData Samples.busyClient 256265 "day"
     (ParseDate 2024 1 1) (ParseDate 2024 1 5)).1
  = inr [Samples.candle1] ∧
  clock (GetHistoricalData Samples.busyClient 256265 "day"
           (ParseDate 2024 1 1) (ParseDate 2024 1 5)).2
  = Second / 3 ∧
  ¬ isCancellation
      (GetHistoricalData Samples.busyClient 256265 "day"
         (ParseDate 2024 1 1) (ParseDate 2024 1 5)).1.
Proof.
  split.
  - exists (Second / 10). split; [done |]. vm_compute.
    split; [discriminate | done].
  - split; [done |]. split; [done |]. intros H. discriminate H.
Qed.

End ClientFacts.

(** ** Paths *)

Section FilepathFacts.
Import Filepath.

Lemma elements_app s1 s2 : ∀ cur,
  elements (s1 ++ slash :: s2) cur = elements s1 cur ++ elements s2 [].
Proof.
  induction s1 as [| c r IH]; intros cur; cbn [app elements].
  - done.
  - destruct (isSlash c); [by rewrite IH | apply IH].
Qed.

Lemma elements_noSlash s : ∀ cur,
  noSlash s → elements s cur = [rev cur ++ s].
Proof.
  induction s as [| c r IH]; intros cur Hs; cbn [elements].
  - by rewrite app_nil_r.
  - apply Forall_cons in Hs as [-> Hr]. rewrite IH by done.
    cbn [rev]. by rewrite <- app_assoc.
Qed.

Lemma elements_all_noSlash s : ∀ cur,
  noSlash cur → Forall noSlash (elements s cur).
Proof.
  induction s as [| c r IH]; intros cur Hcur; cbn [elements].
  - apply Forall_singleton. by apply Forall_rev.
  - destruct (isSlash c) eqn:Hc.
    + apply Forall_cons. split; [by apply Forall_rev |].
      apply IH. constructor.
    + apply IH. by apply Forall_cons.
Qed.

(** What one step of [Clean] does to the elements so far. *)
Lemma cleanStep_cases rooted out e :
  cleanStep rooted out e = out
  ∨ cleanStep rooted out e = removelast out
  ∨ (cleanStep rooted out e = out ++ [e] ∧ e ≠ []).
Proof.
  unfold cleanStep. destruct e as [| c e']; [by left |].
  destruct (isDot (c :: e')); [by left |].
  destruct (isDotDot (c :: e')).
  - destruct (last out) as [prev |].
    + destruct (isDotDot prev); [by right; right | by right; left].
    + destruct rooted; [by left | by right; right].
  - by right; right.
Qed.

Lemma prefix_snoc_cases {A} (p l : list A) x :
  p `prefix_of` l ++ [x] → p = l ++ [x] ∨ p `prefix_of` l.
Proof.
  intros [k Hk]. destruct k as [| y k' _] using rev_ind.
  - left. by rewrite app_nil_r in Hk.
  - right. rewrite app_assoc in Hk. apply app_inj_tail in Hk as [-> _].
    by exists k'.
Qed.

Lemma prefix_removelast {A} (p l : list A) :
  p `prefix_of` removelast l → p `prefix_of` l.
Proof.
  destruct l as [| x l' _] using rev_ind; [done |].
  rewrite removelast_last. apply prefix_app_r.
Qed.

Lemma settled_nil rooted : settled rooted [].
Proof.
  intros p e Hp. apply prefix_nil_inv in Hp. by destruct p.
Qed.

Lemma settled_prefix rooted out out' :
  out' `prefix_of` out → settled rooted out → settled rooted out'.
Proof. intros Hpre Hout p e Hp. apply Hout. by etrans. Qed.

Lemma settled_snoc rooted out e :
  settled rooted out → cleanStep rooted out e = out ++ [e] →
  e ≠ [] → noSlash e → settled rooted (out ++ [e]).
Proof.
  intros Hout Hstep Hne Hns p e' [Heq | Hp]%prefix_snoc_cases.
  - apply app_inj_tail in Heq as [-> ->]. done.
  - by apply Hout.
Qed.

Lemma settled_cleanStep rooted out e :
  settled rooted out → noSlash e → settled rooted (cleanStep rooted out e).
Proof.
  intros Hout Hns.
  destruct (cleanStep_cases rooted out e) as [-> | [-> | [Hstep Hne]]].
  - done.
  - apply (settled_prefix _ out); [| done].
    by apply prefix_removelast.
  - rewrite Hstep. by apply settled_snoc.
Qed.

Lemma settled_foldl rooted els : ∀ out,
  Forall noSlash els → settled rooted out →
  settled rooted (foldl (cleanStep rooted) out els).
Proof.
  induction els as [| e l IH]; intros out Hall Hout; [done |].
  apply Forall_cons in Hall as [He Hl]. cbn [foldl].
  apply IH; [done |]. by apply settled_cleanStep.
Qed.

Lemma settled_elements rooted out :
  settled rooted out → Forall (λ e, e ≠ [] ∧ noSlash e) out.
Proof.
  induction out as [| e l IH] using rev_ind; intros Hout; [constructor |].
  apply Forall_app. split.
  - apply IH. apply (settled_prefix _ (l ++ [e])); [| done].
    by apply prefix_app_r.
  - apply Forall_singleton. by destruct (Hout l e).
Qed.

(** The elements of a rendered path are those it was rendered from. *)
Lemma elements_joinElements out :
  out ≠ [] → Forall noSlash out → elements (joinElements out) [] = out.
Proof.
  induction out as [| e l IH]; intros Hne Hall; [done |].
  apply Forall_cons in Hall as [He Hl].
  destruct l as [| e2 l'].
  - cbn. by rewrite elements_noSlash.
  - change (joinElements (e :: e2 :: l'))
      with (e ++ slash :: joinElements (e2 :: l')).
    rewrite elements_app, (elements_noSlash e) by done.
    by rewrite IH.
Qed.

Lemma joinElements_head e l :
  e ≠ [] → ∃ c rest tail, e = c :: rest ∧ joinElements (e :: l) = c :: tail.
Proof.
  intros Hne. destruct e as [| c rest]; [done |].
  exists c, rest. destruct l as [| e2 l']; cbn; eauto.
Qed.

Lemma list_ascii_of_string_app s1 s2 :
  String.list_ascii_of_string (s1 +:+ s2)
  = String.list_ascii_of_string s1 ++ String.list_ascii_of_string s2.
Proof.
  induction s1 as [| c s1 IH]; [done |].
  change (String c s1 +:+ s2) with (String c (s1 +:+ s2)).
  cbn [String.list_ascii_of_string app]. by f_equal.
Qed.

Lemma isPlain_bytes name :
  isPlain name = true →
  String.list_ascii_of_string name ≠ [] ∧
  noSlash (String.list_ascii_of_string name) ∧
  isDot (String.list_ascii_of_string name) = false ∧
  isDotDot (String.list_ascii_of_string name) = false.
Proof.
  unfold isPlain. cbn zeta.
  intros [[[Hne Hns]%andb_true_iff Hd]%andb_true_iff Hdd]%andb_true_iff.
  apply negb_true_iff in Hne, Hd, Hdd. apply bool_decide_eq_false in Hne.
  repeat split; try done.
  apply Forall_forall. intros c Hc.
  rewrite forallb_forall in Hns. apply negb_true_iff, Hns.
  by apply list_elem_of_In.
Qed.

Lemma cleanStep_plain rooted out e :
  e ≠ [] → isDot e = false → isDotDot e = false →
  cleanStep rooted out e = out ++ [e].
Proof.
  intros Hne Hd Hdd. unfold cleanStep. destruct e; [done |].
  by rewrite Hd, Hdd.
Qed.

(** [Join] of a directory and a plain name: the elements of the cleaned
    directory, then the name. *)
Lemma Join_plain base name c rest :
  String.list_ascii_of_string base = c :: rest →
  isPlain name = true →
  Join base name
  = String.string_of_list_ascii
      (render (isSlash c)
         (foldl (cleanStep (isSlash c)) [] (elements (c :: rest) [])
          ++ [String.list_ascii_of_string name])).
Proof.
  intros Hbase (Hne & Hns & Hd & Hdd)%isPlain_bytes. unfold Join.
  assert (String.eqb base "" = false) as ->.
  { apply String.eqb_neq. intros ->. done. }
  cbn [negb]. unfold Clean. f_equal.
  rewrite !list_ascii_of_string_app, Hbase.
  change (String.list_ascii_of_string "/") with [slash].
  cbn [app]. unfold cleanBytes, render.
  change (c :: rest ++ slash :: String.list_ascii_of_string name)
    with ((c :: rest) ++ slash :: String.list_ascii_of_string name).
  rewrite elements_app.
  rewrite (elements_noSlash (String.list_ascii_of_string name)) by done.
  cbn [rev app].
  rewrite foldl_app. cbn [foldl]. rewrite cleanStep_plain by done.
  destruct (isSlash c); [done |]. by destruct (joinElements _).
Qed.

End FilepathFacts.

Section PathFacts.
Import Filepath Storage.

Lemma foldl_walkStep_none w rooted els :
  foldl (walkStep w rooted) None els = None.
Proof. induction els as [| e l IH]; [done | exact IH]. Qed.

(** A walk ends where [Clean] ends. *)
Lemma walk_clean w rooted els : ∀ cur final,
  foldl (walkStep w rooted) (Some cur) els = Some final →
  final = foldl (cleanStep rooted) cur els.
Proof.
  induction els as [| e l IH]; intros cur final; cbn [foldl walkStep].
  - by intros [= ->].
  - destruct (isDir w (rooted, cur)); [apply IH |].
    by rewrite foldl_walkStep_none.
Qed.

(** A walk goes through directories: where it ends, every place before
    is one. *)
Lemma walk_dirs w rooted els : ∀ cur final,
  foldl (walkStep w rooted) (Some cur) els = Some final →
  (∀ p, p `prefix_of` cur → p ≠ cur → isDir w (rooted, p) = true) →
  (∀ p, p `prefix_of` final → p ≠ final → isDir w (rooted, p) = true).
Proof.
  induction els as [| e l IH]; intros cur final; cbn [foldl walkStep].
  - by intros [= ->].
  - destruct (isDir w (rooted, cur)) eqn:Hcur;
      [| by rewrite foldl_walkStep_none].
    intros Hwalk Hbefore. apply (IH _ _ Hwalk).
    assert (∀ p, p `prefix_of` cur → isDir w (rooted, p) = true) as Hall.
    { intros p Hp. destruct (decide (p = cur)) as [-> | Hne]; auto. }
    intros p Hp Hne.
    destruct (cleanStep_cases rooted cur e) as [E | [E | [E _]]];
      rewrite E in Hp, Hne.
    + by apply Hall.
    + by apply Hall, prefix_removelast.
    + apply prefix_snoc_cases in Hp as [-> | Hp]; [done | by apply Hall].
Qed.

(** Settled elements, walked through directories, are where the walk
    ends. *)
Lemma walk_settled w rooted out :
  settled rooted out →
  (∀ p, p `prefix_of` out → p ≠ out → isDir w (rooted, p) = true) →
  ∀ q p, out = p ++ q → foldl (walkStep w rooted) (Some p) q = Some out.
Proof.
  intros Hout Hdirs q. induction q as [| e q' IH]; intros p Heq.
  - cbn. by rewrite Heq, app_nil_r.
  - cbn [foldl walkStep]. rewrite Hdirs.
    + destruct (Hout p e) as [-> _].
      { rewrite Heq. exists q'. by rewrite <- app_assoc. }
      apply IH. rewrite Heq. by rewrite <- app_assoc.
    + by exists (e :: q').
    + intros ->. apply (f_equal length) in Heq.
      rewrite length_app in Heq. cbn in Heq. lia.
Qed.

Lemma isSlash_slash : isSlash slash = true.
Proof. reflexivity. Qed.

Lemma resolve_render w rooted out :
  settled rooted out → out ≠ [] →
  (∀ p, p `prefix_of` out → p ≠ out → isDir w (rooted, p) = true) →
  resolve w (String.string_of_list_ascii (render rooted out))
  = Some (rooted, out).
Proof.
  intros Hout Hne Hdirs.
  pose proof (settled_elements _ _ Hout) as Hall.
  assert (Forall noSlash out) as Hns.
  { eapply Forall_impl; [exact Hall |]. by intros e [_ ?]. }
  unfold resolve, parse.
  rewrite String.list_ascii_of_string_of_list_ascii. unfold render.
  destruct rooted.
  - rewrite isSlash_slash. cbn [elements]. rewrite isSlash_slash.
    rewrite elements_joinElements by done. cbn [rev foldl walkStep].
    change (isDir w (true, [])) with true. cbn [cleanStep].
    by rewrite (walk_settled w true out Hout Hdirs out []).
  - destruct out as [| e l]; [done |].
    apply Forall_cons in Hall as [[He Hes] _].
    destruct (joinElements_head e l He) as (c & rest & tail & -> & Hj).
    rewrite Hj. apply Forall_cons in Hes as [Hc _]. rewrite Hc.
    rewrite <- Hj, elements_joinElements by done.
    by rewrite (walk_settled w false _ Hout Hdirs _ []).
Qed.

(** A plain name in a directory that is there: the path that [Join]
    gives is the place of the name in the directory. *)
Lemma resolve_Join_plain w base name loc :
  resolve w base = Some loc → isDir w loc = true →
  isPlain name = true →
  resolve w (Join base name)
  = Some (loc.1, loc.2 ++ [String.list_ascii_of_string name]) ∧
  keyOf (loc.1, loc.2 ++ [String.list_ascii_of_string name])
  = Join base name.
Proof.
  intros Hres Hdir Hplain. unfold resolve, parse in Hres.
  destruct (String.list_ascii_of_string base) as [| c rest] eqn:Hbase;
    [done |].
  destruct (foldl (walkStep w (isSlash c)) (Some []) _) as [cur |] eqn:Hwalk;
    [| done].
  injection Hres as <-. cbn [fst snd].
  pose proof (walk_clean _ _ _ _ _ Hwalk) as Hcur.
  unfold Storage.Join. rewrite (Join_plain _ _ _ _ Hbase Hplain), <- Hcur.
  split; [| done].
  destruct (isPlain_bytes _ Hplain) as (Hne & Hns & Hd & Hdd).
  apply resolve_render.
  - apply settled_snoc; try done; [| by apply cleanStep_plain].
    rewrite Hcur. apply settled_foldl; [| apply settled_nil].
    apply elements_all_noSlash. constructor.
  - by destruct cur.
  - intros p [-> | Hp]%prefix_snoc_cases Hneq; [done |].
    destruct (decide (p = cur)) as [-> | Hnc]; [done |].
    apply (walk_dirs _ _ _ _ _ Hwalk); [| done | done].
    intros p' Hp' Hne'. apply prefix_nil_inv in Hp'. done.
Qed.

End PathFacts.

(** ** The stores *)

Section StorageFacts.
Import GoTime Kiteconnect Storage.

(** *** The file system *)

Lemma foldl_logLine (l : list LogEntry) : ∀ w : World,
  dirs (foldl (λ w e, logLine e w) w l) = dirs w ∧
  files (foldl (λ w e, logLine e w) w l) = files w ∧
  readOnly (foldl (λ w e, logLine e w) w l) = readOnly w ∧
  faults (foldl (λ w e, logLine e w) w l) = faults w.
Proof.
  induction l as [| e l IH]; intros w; [done |].
  cbn [foldl]. destruct (IH (logLine e w)) as (-> & -> & -> & ->). done.
Qed.

Lemma log_foldl_logLine (l : list LogEntry) : ∀ w : World,
  log (foldl (λ w e, logLine e w) w l) = log w ++ l.
Proof.
  induction l as [| e l IH]; intros w; cbn [foldl].
  - by rewrite app_nil_r.
  - rewrite IH. cbn. by rewrite <- app_assoc.
Qed.

(** Looking up a path reads the directories and nothing else. *)
Lemma isDir_dirs w w' loc : dirs w' = dirs w → isDir w' loc = isDir w loc.
Proof. unfold isDir. by intros ->. Qed.

Lemma isDir_mono w w' loc :
  dirs w ⊆ dirs w' → isDir w loc = true → isDir w' loc = true.
Proof.
  unfold isDir. intros Hsub [Himp | Hin%bool_decide_eq_true]%orb_true_iff.
  - by rewrite Himp.
  - apply orb_true_iff. right. apply bool_decide_eq_true. set_solver.
Qed.

Lemma foldl_walkStep_None w rooted elems :
  foldl (walkStep w rooted) None elems = None.
Proof. induction elems as [| e l IH]; [done | exact IH]. Qed.

Lemma foldl_walkStep_dirs w w' rooted elems : ∀ reached,
  dirs w' = dirs w →
  foldl (walkStep w' rooted) reached elems
  = foldl (walkStep w rooted) reached elems.
Proof.
  induction elems as [| e l IH]; intros reached Hd; [done |].
  cbn [foldl]. rewrite IH by done. f_equal.
  destruct reached as [cur |]; [| done]. cbn [walkStep].
  by rewrite (isDir_dirs w w').
Qed.

Lemma resolve_dirs w w' path :
  dirs w' = dirs w → resolve w' path = resolve w path.
Proof.
  intros Hd. unfold resolve. destruct (parse path) as [[rooted elems] |];
    [| done]. by rewrite (foldl_walkStep_dirs w w').
Qed.

(** A path whose directories are all there keeps its place when
    directories are added. *)
Lemma foldl_walkStep_mono w w' rooted elems : ∀ cur final,
  dirs w ⊆ dirs w' →
  foldl (walkStep w rooted) (Some cur) elems = Some final →
  foldl (walkStep w' rooted) (Some cur) elems = Some final.
Proof.
  induction elems as [| e l IH]; intros cur final Hsub; [done |].
  cbn [foldl walkStep].
  destruct (isDir w (rooted, cur)) eqn:Hdir;
    [| by rewrite foldl_walkStep_None].
  rewrite (isDir_mono w w') by done. by apply IH.
Qed.

Lemma resolve_mono w w' path loc :
  dirs w ⊆ dirs w' → resolve w path = Some loc → resolve w' path = Some loc.
Proof.
  intros Hsub. unfold resolve.
  destruct (parse path) as [[rooted elems] |]; [| done].
  destruct (foldl (walkStep w rooted) _ _) as [cur |] eqn:Hw; [| done].
  by rewrite (foldl_walkStep_mono w w' rooted elems [] cur).
Qed.

(** *** [os.MkdirAll] *)

Lemma foldl_mkdirStep_None rooted elems w :
  foldl (mkdirStep rooted) (None, w) elems = (None, w).
Proof. induction elems as [| e l IH]; [done | exact IH]. Qed.

(** [MkdirAll] adds directories and changes nothing else; it adds none
    to a file system that cannot be written. *)
Lemma mkdirStep_frame rooted st e :
  let st' := mkdirStep rooted st e in
  files st'.2 = files st.2 ∧ log st'.2 = log st.2 ∧
  readOnly st'.2 = readOnly st.2 ∧ faults st'.2 = faults st.2 ∧
  dirs st.2 ⊆ dirs st'.2 ∧ (readOnly st.2 = true → dirs st'.2 = dirs st.2).
Proof.
  destruct st as [[cur |] w]; cbn [mkdirStep fst snd]; [| by repeat split].
  destruct (negb (isDir w (rooted, cur))); [by repeat split |].
  destruct (isDir w (rooted, _)); [by repeat split |].
  destruct (negb (isName e)); cbn [orb]; [by repeat split |].
  destruct (bool_decide (is_Some _)); cbn [orb]; [by repeat split |].
  destruct (readOnly w) eqn:Hro; [by repeat split |].
  cbn. repeat split; try done. set_solver.
Qed.

Lemma foldl_mkdirStep_frame rooted elems : ∀ st,
  let st' := foldl (mkdirStep rooted) st elems in
  files st'.2 = files st.2 ∧ log st'.2 = log st.2 ∧
  readOnly st'.2 = readOnly st.2 ∧ faults st'.2 = faults st.2 ∧
  dirs st.2 ⊆ dirs st'.2 ∧ (readOnly st.2 = true → dirs st'.2 = dirs st.2).
Proof.
  induction elems as [| e l IH]; intros st; [by repeat split |].
  cbn [foldl]. cbn zeta.
  destruct (IH (mkdirStep rooted st e)) as (Hf & Hl & Hr & Hx & Hd & Hro).
  destruct (mkdirStep_frame rooted st e) as (Hf1 & Hl1 & Hr1 & Hx1 & Hd1 & Hro1).
  cbn zeta in *. rewrite Hf, Hl, Hr, Hx, Hf1, Hl1, Hr1, Hx1.
  repeat split; try done; [by etrans |].
  intros H. rewrite Hro, Hro1; [done | done | by rewrite Hr1].
Qed.

Lemma MkdirAll_frame path w :
  files (MkdirAll path w).2 = files w ∧ log (MkdirAll path w).2 = log w ∧
  readOnly (MkdirAll path w).2 = readOnly w ∧
  faults (MkdirAll path w).2 = faults w ∧
  dirs w ⊆ dirs (MkdirAll path w).2 ∧
  (readOnly w = true → dirs (MkdirAll path w).2 = dirs w).
Proof.
  unfold MkdirAll. destruct (parse path) as [[rooted elems] |];
    [| by repeat split].
  pose proof (foldl_mkdirStep_frame rooted elems (Some [], w)) as H.
  cbn zeta in H. destruct (foldl (mkdirStep rooted) _ _) as [reached w'].
  exact H.
Qed.

(** Running [MkdirAll] again on what it left gives the same answer and
    changes nothing. *)
Lemma foldl_mkdirStep_again rooted elems : ∀ cur w reached w',
  foldl (mkdirStep rooted) (Some cur, w) elems = (reached, w') →
  foldl (mkdirStep rooted) (Some cur, w') elems = (reached, w').
Proof.
  induction elems as [| e l IH]; intros cur w reached w' Hrun.
  - cbn in *. by simplify_eq.
  - cbn [foldl] in *.
    pose proof (foldl_mkdirStep_frame rooted l (mkdirStep rooted (Some cur, w) e))
      as (_ & _ & _ & _ & Hsub & _).
    cbn zeta in Hsub. rewrite Hrun in Hsub. cbn [snd] in Hsub.
    cbn [mkdirStep] in *.
    destruct (isDir w (rooted, cur)) eqn:Hcur; cbn [negb] in *.
    2:{ rewrite foldl_mkdirStep_None in Hrun. simplify_eq.
        rewrite Hcur. cbn [negb]. apply foldl_mkdirStep_None. }
    cbn [snd] in Hsub.
    destruct (isDir w (rooted, Filepath.cleanStep rooted cur e)) eqn:Hnext.
    + cbn [snd] in Hsub.
      rewrite (isDir_mono w w') by done. cbn [negb].
      rewrite (isDir_mono w w') by done. by eapply IH.
    + destruct (negb (isName e)
                || bool_decide (is_Some (files w !! _)) || readOnly w)
        eqn:Hobstacle.
      * rewrite foldl_mkdirStep_None in Hrun. simplify_eq.
        rewrite Hcur, Hnext, Hobstacle. cbn [negb].
        apply foldl_mkdirStep_None.
      * cbn [snd] in Hsub.
        assert (isDir w' (rooted, cur) = true) as ->.
        { apply (isDir_mono w); [| done]. cbn in Hsub. set_solver. }
        cbn [negb].
        assert (isDir w' (rooted, Filepath.cleanStep rooted cur e) = true)
          as ->.
        { unfold isDir. apply orb_true_iff. right.
          apply bool_decide_eq_true. cbn in Hsub. set_solver. }
        by eapply IH.
Qed.

Lemma MkdirAll_again path w :
  MkdirAll path (MkdirAll path w).2 = MkdirAll path w.
Proof.
  unfold MkdirAll. destruct (parse path) as [[rooted elems] |]; [| done].
  destruct (foldl (mkdirStep rooted) (Some [], w) elems) as [reached w']
    eqn:Hrun.
  cbn [snd]. by rewrite (foldl_mkdirStep_again _ _ _ _ _ _ Hrun).
Qed.

(** The log does not bear on [MkdirAll]. *)
Lemma mkdirStep_logLine rooted x cur w e :
  mkdirStep rooted (cur, logLine x w) e
  = ((mkdirStep rooted (cur, w) e).1, logLine x (mkdirStep rooted (cur, w) e).2).
Proof.
  destruct cur as [cur |]; cbn [mkdirStep]; [| done].
  rewrite !(isDir_dirs w (logLine x w)) by done. cbn [files readOnly logLine].
  repeat match goal with |- context [if ?b then _ else _] => destruct b end;
    done.
Qed.

Lemma foldl_mkdirStep_logLine rooted x elems : ∀ cur w,
  foldl (mkdirStep rooted) (cur, logLine x w) elems
  = ((foldl (mkdirStep rooted) (cur, w) elems).1,
     logLine x (foldl (mkdirStep rooted) (cur, w) elems).2).
Proof.
  induction elems as [| e l IH]; intros cur w; [done |].
  cbn [foldl]. rewrite mkdirStep_logLine.
  destruct (mkdirStep rooted (cur, w) e) as [cur1 w1]. apply IH.
Qed.

Lemma MkdirAll_logLine path x w :
  MkdirAll path (logLine x w)
  = ((MkdirAll path w).1, logLine x (MkdirAll path w).2).
Proof.
  unfold MkdirAll. destruct (parse path) as [[rooted elems] |]; [| done].
  rewrite foldl_mkdirStep_logLine.
  by destruct (foldl (mkdirStep rooted) (Some [], w) elems).
Qed.

(** [MkdirAll] succeeds exactly on a path that then names a directory. *)
Lemma foldl_mkdirStep_makes rooted elems : ∀ cur w final w',
  foldl (mkdirStep rooted) (Some cur, w) elems = (Some final, w') →
  foldl (walkStep w' rooted) (Some cur) elems = Some final ∧
  (isDir w (rooted, cur) = true → isDir w' (rooted, final) = true).
Proof.
  induction elems as [| e l IH]; intros cur w final w' Hrun.
  - cbn in *. by simplify_eq.
  - cbn [foldl] in *.
    pose proof (foldl_mkdirStep_frame rooted l (mkdirStep rooted (Some cur, w) e))
      as (_ & _ & _ & _ & Hsub & _).
    cbn zeta in Hsub. rewrite Hrun in Hsub. cbn [snd] in Hsub.
    cbn [mkdirStep walkStep] in *.
    destruct (isDir w (rooted, cur)) eqn:Hcur; cbn [negb] in *;
      [| by rewrite foldl_mkdirStep_None in Hrun].
    destruct (isDir w (rooted, Filepath.cleanStep rooted cur e)) eqn:Hnext.
    + cbn [snd] in Hsub. rewrite (isDir_mono w w') by done.
      destruct (IH _ _ _ _ Hrun) as [Hwalk Hdir]. split; [done |].
      intros _. by apply Hdir.
    + destruct (negb (isName e)
                || bool_decide (is_Some (files w !! _)) || readOnly w);
        [by rewrite foldl_mkdirStep_None in Hrun |].
      cbn [snd] in Hsub.
      assert (isDir w' (rooted, cur) = true) as ->.
      { apply (isDir_mono w); [| done]. cbn in Hsub.
        etrans; [apply union_subseteq_r | exact Hsub]. }
      destruct (IH _ _ _ _ Hrun) as [Hwalk Hdir]. split; [done |].
      intros _. apply Hdir. unfold isDir. apply orb_true_iff. right.
      apply bool_decide_eq_true. cbn.
      apply elem_of_union_l. by apply elem_of_singleton.
Qed.

Lemma MkdirAll_makes path w w' :
  MkdirAll path w = (true, w') →
  ∃ loc, resolve w' path = Some loc ∧ isDir w' loc = true.
Proof.
  unfold MkdirAll, resolve.
  destruct (parse path) as [[rooted elems] |]; [| done].
  destruct (foldl (mkdirStep rooted) (Some [], w) elems) as [reached w1]
    eqn:Hrun.
  intros Heq. simplify_eq. destruct reached as [final |]; [| done].
  destruct (foldl_mkdirStep_makes _ _ _ _ _ _ Hrun) as [-> Hdir].
  exists (rooted, final). split; [done |]. by apply Hdir.
Qed.

Lemma foldl_mkdirStep_ready rooted elems w : ∀ cur final,
  foldl (walkStep w rooted) (Some cur) elems = Some final →
  isDir w (rooted, final) = true →
  foldl (mkdirStep rooted) (Some cur, w) elems = (Some final, w).
Proof.
  induction elems as [| e l IH]; intros cur final Hwalk Hdir.
  - cbn in *. by simplify_eq.
  - cbn [foldl walkStep mkdirStep] in *.
    destruct (isDir w (rooted, cur)) eqn:Hcur;
      [| by rewrite foldl_walkStep_None in Hwalk].
    cbn [negb].
    assert (isDir w (rooted, Filepath.cleanStep rooted cur e) = true) as ->.
    { destruct l as [| e' l']; cbn [foldl walkStep] in Hwalk.
      - by simplify_eq.
      - destruct (isDir w (rooted, Filepath.cleanStep rooted cur e));
          [done | by rewrite foldl_walkStep_None in Hwalk]. }
    by apply IH.
Qed.

Lemma MkdirAll_ready path w loc :
  resolve w path = Some loc → isDir w loc = true →
  MkdirAll path w = (true, w).
Proof.
  unfold MkdirAll, resolve.
  destruct (parse path) as [[rooted elems] |]; [| done].
  destruct (foldl (walkStep w rooted) (Some []) elems) as [final |] eqn:Hwalk;
    [| done].
  intros Heq Hdir. simplify_eq.
  by rewrite (foldl_mkdirStep_ready _ _ _ _ _ Hwalk Hdir).
Qed.

(** *** The databases *)

Lemma tableOf_database driver rows :
  tableOf driver (database driver rows) = Some (Some rows).
Proof. unfold tableOf, database. cbn. by rewrite String.eqb_refl. Qed.

Lemma tableOf_Some driver f rows :
  tableOf driver f = Some (Some rows) → f = database driver rows.
Proof.
  unfold tableOf, database. destruct f as [[| | | d table |] [|]]; cbn;
    try done.
  - by destruct (String.eqb driver "sqlite3").
  - destruct (String.eqb d driver) eqn:E; [| done].
    apply String.eqb_eq in E. by intros [= ->]; subst.
Qed.

Lemma tableOf_newDatabase driver :
  driver ∈ drivers → tableOf driver (newDatabase driver) = Some None.
Proof.
  unfold drivers. intros Hin.
  assert (driver = "duckdb" ∨ driver = "sqlite3") as [-> | ->]; [| done..].
  apply elem_of_cons in Hin as [-> | Hin]; [by left |].
  apply elem_of_cons in Hin as [-> | Hin]; [by right |].
  by apply elem_of_nil in Hin.
Qed.

(** A database that is in place for a driver: the file is there, holds
    the table, and a connection can be made. *)
Lemma connect_ready driver db w rows :
  connectFails (faults w) db = false →
  ReadFile db w = Some (database driver rows) →
  (driver = "duckdb" → readOnly w = false) →
  ∃ loc, resolve w db = Some loc ∧ isDir w loc = false ∧
         files w !! keyOf loc = Some (database driver rows) ∧
         connect driver db w = Some (keyOf loc, w).
Proof.
  intros Hconn Hread Hro. unfold ReadFile in Hread.
  destruct (resolve w db) as [loc |] eqn:Hres; [| done].
  destruct (isDir w loc) eqn:Hdir; [done |].
  exists loc. repeat split; try done.
  unfold connect, Stat, openDatabase. rewrite Hres, Hdir, Hread, Hconn.
  cbn [orb bool_decide]. rewrite bool_decide_eq_true_2 by done.
  cbn [negb]. rewrite andb_false_r.
  destruct (String.eqb driver "duckdb") eqn:E; [| done].
  apply String.eqb_eq in E. rewrite (Hro E). by rewrite (tableOf_database driver rows).
Qed.

Lemma createTableIfNotExists_ready driver db w rows :
  connectFails (faults w) db = false →
  ReadFile db w = Some (database driver rows) →
  (driver = "duckdb" → readOnly w = false) →
  createTableIfNotExists driver db w = Some w.
Proof.
  intros Hconn Hread Hro.
  destruct (connect_ready _ _ _ _ Hconn Hread Hro)
    as (loc & _ & _ & Hfile & Hc).
  unfold createTableIfNotExists. rewrite Hc, Hfile. cbn -[tableOf database].
  by rewrite tableOf_database.
Qed.

(** What [CREATE TABLE IF NOT EXISTS] leaves: a database in place. *)
Lemma createTableIfNotExists_makes driver db w w' :
  driver ∈ drivers →
  createTableIfNotExists driver db w = Some w' →
  dirs w' = dirs w ∧ readOnly w' = readOnly w ∧ faults w' = faults w ∧
  log w' = log w ∧
  connectFails (faults w') db = false ∧
  (driver = "duckdb" → readOnly w' = false) ∧
  ∃ rows, ReadFile db w' = Some (database driver rows).
Proof.
  intros Hdrv. unfold createTableIfNotExists, connect, openDatabase.
  destruct (String.eqb driver "duckdb" && negb (Stat db w)) eqn:Hstat;
    [done |].
  destruct (connectFails (faults w) db) eqn:Hconn; [done |].
  unfold ReadFile, Stat in *.
  destruct (resolve w db) as [loc |] eqn:Hres; [| done].
  destruct (isDir w loc) eqn:Hdir; [done |].
  assert (∀ (fs : gmap string File) f,
            fs !! keyOf loc = Some f →
            match resolve (withFiles fs w) db with
            | Some loc0 =>
                if isDir (withFiles fs w) loc0 then None
                else files (withFiles fs w) !! keyOf loc0
            | None => None
            end = Some f) as Hback.
  { intros fs f Hf. rewrite (resolve_dirs w) by done. rewrite Hres.
    rewrite (isDir_dirs w) by done. by rewrite Hdir. }
  destruct (files w !! keyOf loc) as [f |] eqn:Hfile.
  - destruct (String.eqb driver "duckdb") eqn:E.
    + destruct (readOnly w) eqn:Hro; [done |].
      destruct (tableOf driver f) as [[rows |] |] eqn:Htab; [| | done].
      * cbn. rewrite Hfile. cbn. rewrite Htab. intros [= <-].
        rewrite Hres, Hdir, Hfile. repeat split; try done.
        exists rows. by rewrite (tableOf_Some _ _ _ Htab).
      * cbn. rewrite Hfile. cbn. rewrite Htab, Hro. intros [= <-].
        cbn [dirs readOnly faults log withFiles]. repeat split; try done.
        exists []. apply Hback. by rewrite lookup_insert_eq.
    + cbn. rewrite Hfile. cbn.
      assert (driver = "duckdb" → readOnly w = false) as Hnot.
      { intros ->. done. }
      destruct (tableOf driver f) as [[rows |] |] eqn:Htab; [| | done].
      * intros [= <-]. rewrite Hres, Hdir, Hfile. repeat split; try done.
        exists rows. by rewrite (tableOf_Some _ _ _ Htab).
      * destruct (readOnly w) eqn:Hro; [done |]. intros [= <-].
        cbn [dirs readOnly faults log withFiles]. repeat split; try done.
        exists []. apply Hback. by rewrite lookup_insert_eq.
  - destruct (readOnly w) eqn:Hro; [done |]. cbn.
    rewrite lookup_insert_eq. cbn. rewrite tableOf_newDatabase by done.
    rewrite Hro. intros [= <-].
    cbn [dirs readOnly faults log withFiles]. repeat split; try done.
    exists []. apply Hback. by rewrite lookup_insert_eq.
Qed.

Lemma ReadFile_logLine path x w : ReadFile path (logLine x w) = ReadFile path w.
Proof.
  unfold ReadFile. rewrite (resolve_dirs w) by done.
  destruct (resolve w path) as [loc |]; [| done].
  by rewrite (isDir_dirs w).
Qed.

Lemma createTableIfNotExists_again driver db w w' x :
  driver ∈ drivers →
  createTableIfNotExists driver db w = Some w' →
  createTableIfNotExists driver db (logLine x w') = Some (logLine x w').
Proof.
  intros Hdrv Hrun.
  destruct (createTableIfNotExists_makes _ _ _ _ Hdrv Hrun)
    as (_ & _ & _ & _ & Hconn & Hro & rows & Hread).
  apply (createTableIfNotExists_ready driver db _ rows); [done | | done].
  by rewrite ReadFile_logLine.
Qed.

Lemma sqlInit_again driver name db w w1 r :
  driver ∈ drivers →
  match createTableIfNotExists driver db w with
  | None => (Some (ErrCreateTable name), w)
  | Some w' => (None, logLine (TableReady name) w')
  end = (r, w1) →
  ∃ w2,
    match createTableIfNotExists driver db w1 with
    | None => (Some (ErrCreateTable name), w1)
    | Some w' => (None, logLine (TableReady name) w')
    end = (r, w2) ∧ sameStorage w1 w2.
Proof.
  intros Hdrv.
  destruct (createTableIfNotExists driver db w) as [w' |] eqn:Hrun;
    intros [= <- <-].
  - rewrite (createTableIfNotExists_again _ _ _ _ _ Hdrv Hrun). by eexists.
  - rewrite Hrun. by eexists.
Qed.

Lemma mkdirInit_again name path w w1 r :
  match MkdirAll path w with
  | (false, w') => (Some (ErrMkdir name), w')
  | (true, w') => (None, logLine (DirectoryReady name path) w')
  end = (r, w1) →
  ∃ w2,
    match MkdirAll path w1 with
    | (false, w') => (Some (ErrMkdir name), w')
    | (true, w') => (None, logLine (DirectoryReady name path) w')
    end = (r, w2) ∧ sameStorage w1 w2.
Proof.
  pose proof (MkdirAll_again path w) as Hagain.
  destruct (MkdirAll path w) as [[|] w'] eqn:Hrun; intros [= <- <-];
    cbn [snd] in Hagain.
  - rewrite MkdirAll_logLine, Hagain. by eexists.
  - rewrite Hagain. by eexists.
Qed.

(** C8.  [Init] can be called again on the world it leaves: it returns
    what it returned the first time (no error after no error, the same
    error after an error) and leaves the directories and the files, the
    tables in them included, as the first call left them. *)
Theorem Init_idempotent (s : Store) (w w1 : World) (r : option Error) :
  Init s w = (r, w1) →
  ∃ w2, Init s w1 = (r, w2) ∧ sameStorage w1 w2.
Proof.
  destruct s as [db | db | basePath | basePath]; cbn [Init].
  - apply sqlInit_again. unfold drivers. set_solver.
  - apply sqlInit_again. unfold drivers. set_solver.
  - apply mkdirInit_again.
  - apply mkdirInit_again.
Qed.

Lemma Init_idempotent_witness :
  Init (CSVStore "out") Samples.emptyDisk
  = (None, logLine (DirectoryReady "CSV" "out")
             (withDirs ({["out"]} ∪ dirs Samples.emptyDisk) Samples.emptyDisk))
  ∧ ∃ w2, Init (CSVStore "out")
            (logLine (DirectoryReady "CSV" "out")
               (withDirs ({["out"]} ∪ dirs Samples.emptyDisk)
                  Samples.emptyDisk))
          = (None, w2)
          ∧ sameStorage
              (logLine (DirectoryReady "CSV" "out")
                 (withDirs ({["out"]} ∪ dirs Samples.emptyDisk)
                    Samples.emptyDisk)) w2.
Proof.
  split; [reflexivity |].
  apply (Init_idempotent (CSVStore "out") Samples.emptyDisk). reflexivity.
Defined.

(** *** The factory *)

Lemma recognized_tokens (t : StorageType) :
  t ∉ recognizedStorageTypes →
  String.eqb t StorageTypeDuckDB = false ∧
  String.eqb t StorageTypeSQLite = false ∧
  String.eqb t StorageTypeJSON = false ∧
  String.eqb t StorageTypeCSV = false.
Proof.
  unfold recognizedStorageTypes. intros Hnot.
  repeat split; apply String.eqb_neq; intros ->; apply Hnot; set_solver.
Qed.

(** C10 (as amended).  A token outside the recognized set is not turned
    down: [NewStore] treats it as it treats the token [duckdb].  It
    hands the path to [NewDuckDBStore] and returns what that returns: a
    DuckDB store whenever the DuckDB database at the path opens, and
    otherwise the DuckDB connection error, with nothing changed. *)
Theorem NewStore_unknown_type (storageType : StorageType) (path : string)
    (w : World) :
  storageType ∉ recognizedStorageTypes →
  NewStore storageType path w = NewStore StorageTypeDuckDB path w ∧
  NewStore storageType path w = NewDuckDBStore path w ∧
  (∀ w', sqlOpen "duckdb" path w = Some w' →
         NewStore storageType path w = (inr (DuckDBStore path), w')) ∧
  (sqlOpen "duckdb" path w = None →
   NewStore storageType path w = (inl (ErrConnection "duckdb"), w)).
Proof.
  intros (Hd & Hs & Hj & Hc)%recognized_tokens.
  unfold NewStore. rewrite Hd, Hs, Hj, Hc. cbn [String.eqb Ascii.eqb].
  unfold NewDuckDBStore. repeat split.
  - intros w' ->. done.
  - intros ->. done.
Qed.

Lemma NewStore_unknown_type_witness :
  ("postgres" ∉ recognizedStorageTypes) ∧
  NewStore "postgres" "market.db" Samples.emptyDisk
  = NewStore StorageTypeDuckDB "market.db" Samples.emptyDisk ∧
  NewStore "postgres" "market.db" Samples.emptyDisk
  = (inr (DuckDBStore "market.db"),
     withFiles (<["market.db" := newDatabase "duckdb"]>
                  (files Samples.emptyDisk)) Samples.emptyDisk).
Proof.
  assert ("postgres" ∉ recognizedStorageTypes) as Hnot.
  { unfold recognizedStorageTypes. intros H.
    repeat (apply elem_of_cons in H as [H | H]; [discriminate H |]).
    by apply elem_of_nil in H. }
  destruct (NewStore_unknown_type "postgres" "market.db" Samples.emptyDisk
              Hnot) as (H1 & _ & H3 & _).
  split; [exact Hnot |]. split; [exact H1 |]. apply H3. reflexivity.
Defined.

(** C10 fails as stated: the fallback opens a DuckDB database, and
    where the path is a directory, [NewStore] returns the connection
    error for the unknown token. *)
Lemma NewStore_unknown_type_fails :
  ("postgres" ∉ recognizedStorageTypes) ∧
  NewStore "postgres" "data" Samples.emptyDisk
  = (inl (ErrConnection "duckdb"), Samples.emptyDisk).
Proof.
  split; [| reflexivity].
  unfold recognizedStorageTypes. intros H.
  repeat (apply elem_of_cons in H as [H | H]; [discriminate H |]).
  by apply elem_of_nil in H.
Qed.

(** *** Files *)

(** Writing the files leaves every path where it was. *)
Lemma ReadFile_withFiles path fs w loc :
  resolve w path = Some loc → isDir w loc = false →
  ReadFile path (withFiles fs w) = fs !! keyOf loc.
Proof.
  intros Hres Hdir. unfold ReadFile.
  rewrite (resolve_dirs w) by done. rewrite Hres.
  rewrite (isDir_dirs w) by done. by rewrite Hdir.
Qed.

Lemma ReadFile_resolve path w f :
  ReadFile path w = Some f →
  ∃ loc, resolve w path = Some loc ∧ isDir w loc = false ∧
         files w !! keyOf loc = Some f.
Proof.
  unfold ReadFile. destruct (resolve w path) as [loc |]; [| done].
  destruct (isDir w loc) eqn:Hdir; [done |]. by exists loc.
Qed.

Lemma WriteFile_ok path content w loc :
  resolve w path = Some loc → isDir w loc = false →
  readOnly w = false → deviceFails (faults w) = false →
  WriteFile path content w
  = (true, withFiles (<[keyOf loc := content]> (files w)) w).
Proof.
  intros Hres Hdir Hro Hdev. unfold WriteFile.
  by rewrite Hres, Hdir, Hro, Hdev.
Qed.

(** *** The JSON store *)

Lemma Unmarshal_invalid f dst : validJSON f = false → Unmarshal f dst = (dst, false).
Proof.
  unfold validJSON, Unmarshal.
  by destruct (preamble f) as [| | | |], (records f) as [|].
Qed.

Lemma JSONStore_StoreCandles_ok basePath w sym candles existing loc :
  let path := Join basePath (sym +:+ ".json") in
  resolve w path = Some loc → isDir w loc = false →
  (match files w !! keyOf loc with
   | Some f => (Unmarshal f []).1
   | None => []
   end) = existing →
  forallb marshalable (existing ++ candles) = true →
  readOnly w = false → deviceFails (faults w) = false →
  JSONStore_StoreCandles basePath w sym candles
  = ((Z.of_nat (length candles), None),
     logLine (StoredJSON (Z.of_nat (length candles)) (sym +:+ ".json")
                (Z.of_nat (length (existing ++ candles))))
       (withFiles (<[keyOf loc := {| preamble := JSONArray (existing ++ candles);
                                     records := [] |}]> (files w)) w)).
Proof.
  intros path Hres Hdir Hexisting Hok Hro Hdev.
  unfold JSONStore_StoreCandles, ReadFile. fold path.
  rewrite Hres, Hdir, Hexisting. unfold MarshalIndent. rewrite Hok.
  by rewrite (WriteFile_ok _ _ _ _ Hres Hdir Hro Hdev).
Qed.

(** C9.  When the file of the instrument is there and does not hold valid
    JSON, [json.Unmarshal] leaves the slice empty, the error is dropped,
    and the call, on a file system that takes the write, replaces the
    file by the array of the new batch alone and returns
    [len(candles)] with no error. *)
Theorem JSONStore_discards_invalid_file (basePath : string) (w : World)
    (sym : string) (candles : list HistoricalData) (f : File) :
  ReadFile (Join basePath (sym +:+ ".json")) w = Some f →
  validJSON f = false →
  forallb marshalable candles = true →
  readOnly w = false →
  deviceFails (faults w) = false →
  Unmarshal f [] = ([], false) ∧
  ∃ w', StoreCandles (JSONStore basePath) w sym candles
        = ((Z.of_nat (length candles), None), w') ∧
        ReadFile (Join basePath (sym +:+ ".json")) w'
        = Some {| preamble := JSONArray candles; records := [] |}.
Proof.
  intros (loc & Hres & Hdir & Hfile)%ReadFile_resolve Hinvalid Hok Hro Hdev.
  split; [by apply Unmarshal_invalid |].
  eexists. split.
  - cbn [StoreCandles].
    apply (JSONStore_StoreCandles_ok basePath w sym candles [] loc);
      try done.
    rewrite Hfile. by rewrite Unmarshal_invalid.
  - rewrite ReadFile_logLine, (ReadFile_withFiles _ _ _ loc) by done.
    by rewrite lookup_insert_eq.
Qed.

Lemma JSONStore_discards_invalid_file_witness :
  ∃ w', StoreCandles (JSONStore "data") Samples.usedDisk "SBIN"
          [Samples.candle2]
        = ((1, None), w') ∧
        ReadFile "data/SBIN.json" w'
        = Some {| preamble := JSONArray [Samples.candle2]; records := [] |}.
Proof.
  apply (JSONStore_discards_invalid_file "data" Samples.usedDisk "SBIN"
           [Samples.candle2]
           {| preamble := RawBytes "<html>"; records := [] |});
    reflexivity.
Defined.

(** *** The CSV store *)

Lemma extend_nil f : extend f [] = f.
Proof. unfold extend. destruct f. cbn. by rewrite app_nil_r. Qed.

Lemma extend_extend f rs rs' : extend (extend f rs) rs' = extend f (rs ++ rs').
Proof. unfold extend. cbn. by rewrite app_assoc. Qed.

Lemma appendRecords_insert key rs w f :
  files w !! key = Some f →
  appendRecords key rs w = withFiles (<[key := extend f rs]> (files w)) w.
Proof.
  intros Hf. unfold appendRecords. f_equal. apply map_eq. intros k.
  destruct (decide (k = key)) as [-> | Hne].
  - by rewrite lookup_alter_eq, lookup_insert_eq, Hf.
  - by rewrite lookup_alter_ne, lookup_insert_ne.
Qed.

(** The write loop on a device that takes the writes: every record is
    counted, none is logged, and each is in the file or in the buffer. *)
Lemma foldl_writeCandle_ok sym candles : ∀ n wr w f,
  broken wr = false → deviceFails (faults w) = false →
  files w !! target wr = Some f →
  ∃ wr' flushed,
    foldl (writeCandle sym) (n, wr, w) candles
    = (n + Z.of_nat (length candles), wr',
       withFiles (<[target wr := extend f flushed]> (files w)) w) ∧
    broken wr' = false ∧ target wr' = target wr ∧
    flushed ++ pending wr' = pending wr ++ (csvRecord sym <$> candles).
Proof.
  induction candles as [| c l IH]; intros n wr w f Hb Hdev Hf.
  - exists wr, []. cbn. rewrite extend_nil, insert_id by done.
    rewrite Z.add_0_r, app_nil_r. by destruct w.
  - cbn [foldl writeCandle]. unfold Write. rewrite Hb.
    destruct (full (faults w) _) eqn:Hfull.
    + unfold Flush. cbn [broken pending target].
      destruct (pending wr ++ [csvRecord sym c]) as [| r0 rs] eqn:Hp;
        [by destruct (pending wr) |].
      rewrite Hdev. cbn [negb broken].
      rewrite (appendRecords_insert _ _ _ f) by done.
      edestruct (IH (n + 1)
                   {| target := target wr; pending := []; broken := false |}
                   (withFiles (<[target wr := extend f (r0 :: rs)]> (files w)) w)
                   (extend f (r0 :: rs)))
        as (wr' & flushed & Hrun & Hb' & Ht' & Hacc); try done.
      { cbn. by rewrite lookup_insert_eq. }
      exists wr', ((r0 :: rs) ++ flushed). rewrite Hrun.
      cbn [target files withFiles dirs readOnly faults log].
      rewrite insert_insert_eq, extend_extend.
      repeat split; try done.
      * replace (n + Z.of_nat (length (c :: l)))
          with (n + 1 + Z.of_nat (length l)) by (cbn [length]; lia).
        done.
      * rewrite <- app_assoc, Hacc. cbn [pending app fmap list_fmap].
        change (r0 :: rs ++ (csvRecord sym <$> l))
          with ((r0 :: rs) ++ (csvRecord sym <$> l)).
        rewrite <- Hp. by rewrite <- app_assoc.
    + edestruct (IH (n + 1)
                   {| target := target wr;
                      pending := pending wr ++ [csvRecord sym c];
                      broken := false |} w f)
        as (wr' & flushed & Hrun & Hb' & Ht' & Hacc); try done.
      exists wr', flushed. rewrite Hrun. cbn [target] in *.
      repeat split; try done.
      * replace (n + Z.of_nat (length (c :: l)))
          with (n + 1 + Z.of_nat (length l)) by (cbn [length]; lia).
        done.
      * rewrite Hacc. cbn [pending fmap list_fmap]. by rewrite <- app_assoc.
Qed.

Lemma Flush_ok wr w f :
  broken wr = false → deviceFails (faults w) = false →
  files w !! target wr = Some f →
  (Flush wr w).2
  = withFiles (<[target wr := extend f (pending wr)]> (files w)) w.
Proof.
  intros Hb Hdev Hf. unfold Flush. rewrite Hb.
  destruct (pending wr) as [| r rs] eqn:Hp.
  - cbn. rewrite extend_nil, insert_id by done. by destruct w.
  - rewrite Hdev. cbn [snd]. by rewrite (appendRecords_insert _ _ _ f).
Qed.

(** [CSVStore.StoreCandles] on a file that opens and a device that
    takes the writes: the file as it was, a header when there was no
    file, and the record of every candle. *)
Lemma CSVStore_StoreCandles_ok basePath w sym candles loc :
  let path := Join basePath (sym +:+ ".csv") in
  resolve w path = Some loc → isDir w loc = false →
  readOnly w = false → deviceFails (faults w) = false →
  CSVStore_StoreCandles basePath w sym candles
  = ((Z.of_nat (length candles), None),
     logLine (StoredCSV (Z.of_nat (length candles)) (sym +:+ ".csv"))
       (withFiles
          (<[keyOf loc :=
               match files w !! keyOf loc with
               | Some f => extend f (csvRecord sym <$> candles)
               | None => extend emptyFile
                           (csvHeader :: (csvRecord sym <$> candles))
               end]> (files w)) w)).
Proof.
  intros path Hres Hdir Hro Hdev.
  unfold CSVStore_StoreCandles, Stat, OpenFileAppend. fold path.
  rewrite Hres, Hdir, Hro. cbn [orb].
  destruct (files w !! keyOf loc) as [f |] eqn:Hf.
  - rewrite bool_decide_eq_true_2 by done. cbn [negb].
    destruct (foldl_writeCandle_ok sym candles 0 (NewWriter (keyOf loc)) w f)
      as (wr' & flushed & Hrun & Hb' & Ht' & Hacc); try done.
    rewrite Hrun. cbn [target NewWriter pending app] in *.
    rewrite (Flush_ok _ _ (extend f flushed)); try done.
    2:{ rewrite Ht'. cbn. by rewrite lookup_insert_eq. }
    rewrite Ht'. cbn [files logLine withFiles dirs readOnly faults log].
    rewrite insert_insert_eq, extend_extend, Hacc. done.
  - rewrite bool_decide_eq_false_2 by (by intros [? ?]). cbn [negb].
    unfold Write at 1. cbn [broken NewWriter pending target app].
    unfold full at 1. rewrite bool_decide_eq_true_2 by done. cbn [negb andb].
    cbn [negb].
    destruct (foldl_writeCandle_ok sym candles 0
                {| target := keyOf loc; pending := [csvHeader];
                   broken := false |}
                (withFiles (<[keyOf loc := emptyFile]> (files w)) w) emptyFile)
      as (wr' & flushed & Hrun & Hb' & Ht' & Hacc); try done.
    { cbn. by rewrite lookup_insert_eq. }
    rewrite Hrun. cbn [target pending app] in *.
    rewrite (Flush_ok _ _ (extend emptyFile flushed)); try done.
    2:{ rewrite Ht'. cbn. by rewrite lookup_insert_eq. }
    rewrite Ht'. cbn [files logLine withFiles dirs readOnly faults log].
    rewrite !insert_insert_eq, extend_extend, Hacc. done.
Qed.

(** *** The insert loop *)

(** Rows that the engine accepts are counted and seen by the
    transaction. *)
Lemma foldl_insertCandle_accepted driver w toRow candles : ∀ n present logged,
  (String.eqb driver "sqlite3" && readOnly w) = false →
  accepted (faults w) present (toRow <$> candles) = true →
  foldl (insertCandle driver w toRow)
        (n, {| seen := present; aborted := false |}, logged) candles
  = (n + Z.of_nat (length candles),
     {| seen := present ++ (toRow <$> candles); aborted := false |}, logged).
Proof.
  induction candles as [| c l IH]; intros n present logged Hw Hacc.
  - cbn. by rewrite Z.add_0_r, app_nil_r.
  - cbn [fmap list_fmap accepted] in Hacc.
    apply andb_true_iff in Hacc as [Hc%negb_true_iff Hl].
    cbn [foldl insertCandle]. unfold stmtExec. cbn [aborted seen].
    rewrite Hc, Hw. cbn [orb]. rewrite IH by done.
    cbn [fmap list_fmap]. rewrite <- app_assoc. cbn [app length].
    f_equal. f_equal. lia.
Qed.

(** A row that the engine refuses is logged and not counted; SQLite
    keeps the transaction, DuckDB gives it up. *)
Lemma insertCandle_refused driver w toRow n present logged c :
  refuses (faults w) present (toRow c) = true →
  insertCandle driver w toRow
    (n, {| seen := present; aborted := false |}, logged) c
  = (n, {| seen := present; aborted := String.eqb driver "duckdb" |},
     logged ++ [InsertError c]).
Proof.
  intros Href. cbn [insertCandle]. unfold stmtExec. cbn [aborted seen].
  by rewrite Href.
Qed.

(** In a transaction that was given up every statement fails. *)
Lemma foldl_insertCandle_aborted driver w toRow candles : ∀ n present logged,
  foldl (insertCandle driver w toRow)
        (n, {| seen := present; aborted := true |}, logged) candles
  = (n, {| seen := present; aborted := true |},
     logged ++ (InsertError <$> candles)).
Proof.
  induction candles as [| c l IH]; intros n present logged.
  - cbn. by rewrite app_nil_r.
  - cbn [foldl insertCandle]. unfold stmtExec. cbn [aborted].
    rewrite IH. cbn [fmap list_fmap]. by rewrite <- app_assoc.
Qed.

(** The loop on a batch of which the engine refuses one row. *)
Lemma foldl_insertCandle_one_refused driver w toRow pre bad post present :
  (String.eqb driver "sqlite3" && readOnly w) = false →
  accepted (faults w) present (toRow <$> pre) = true →
  refuses (faults w) (present ++ (toRow <$> pre)) (toRow bad) = true →
  accepted (faults w) (present ++ (toRow <$> pre)) (toRow <$> post) = true →
  foldl (insertCandle driver w toRow)
        (0, {| seen := present; aborted := false |}, [])
        (pre ++ bad :: post)
  = if String.eqb driver "duckdb"
    then (Z.of_nat (length pre),
          {| seen := present ++ (toRow <$> pre); aborted := true |},
          InsertError <$> (bad :: post))
    else (Z.of_nat (length (pre ++ post)),
          {| seen := present ++ (toRow <$> (pre ++ post));
             aborted := false |},
          [InsertError bad]).
Proof.
  intros Hw Hpre Hbad Hpost.
  rewrite foldl_app, foldl_insertCandle_accepted by done.
  cbn [foldl]. rewrite insertCandle_refused by done.
  destruct (String.eqb driver "duckdb").
  - by rewrite foldl_insertCandle_aborted.
  - rewrite foldl_insertCandle_accepted by done.
    rewrite fmap_app, length_app, Nat2Z.inj_add, <- app_assoc. done.
Qed.

Lemma sqlStoreCandles_ready driver toRow db w sym candles rows loc :
  resolve w db = Some loc → isDir w loc = false →
  files w !! keyOf loc = Some (database driver rows) →
  connect driver db w = Some (keyOf loc, w) →
  sqlStoreCandles driver toRow db w sym candles
  = let '(inserted, tx, logged) :=
      foldl (insertCandle driver w (toRow sym))
            (0, {| seen := rows; aborted := false |}, []) candles in
    let w1 := foldl (λ w e, logLine e w) w logged in
    if aborted tx then ((inserted, None), w1)
    else if commitFails (faults w1) then ((0, Some ErrCommit), w1)
    else ((inserted, None),
          withFiles (<[keyOf loc := database driver (seen tx)]> (files w1))
            w1).
Proof.
  intros Hres Hdir Hfile Hconn. unfold sqlStoreCandles.
  rewrite Hconn, Hfile. cbn -[tableOf database].
  by rewrite tableOf_database.
Qed.

Lemma ReadFile_foldl_logLine path l w :
  ReadFile path (foldl (λ w e, logLine e w) w l) = ReadFile path w.
Proof.
  revert w. induction l as [| e l IH]; intros w; [done |].
  cbn [foldl]. by rewrite IH, ReadFile_logLine.
Qed.

Lemma resolve_foldl_logLine path l w :
  resolve (foldl (λ w e, logLine e w) w l) path = resolve w path.
Proof. apply resolve_dirs. apply foldl_logLine. Qed.

(** *** Partial success *)

Lemma sqlStoreCandles_one_refused driver toRow db w sym pre bad post rows :
  driver ∈ drivers →
  readOnly w = false →
  connectFails (faults w) db = false →
  ReadFile db w = Some (database driver rows) →
  commitFails (faults w) = false →
  accepted (faults w) rows (toRow sym <$> pre) = true →
  refuses (faults w) (rows ++ (toRow sym <$> pre)) (toRow sym bad) = true →
  accepted (faults w) (rows ++ (toRow sym <$> pre)) (toRow sym <$> post)
  = true →
  ∃ w',
    sqlStoreCandles driver toRow db w sym (pre ++ bad :: post)
    = ((if String.eqb driver "duckdb" then Z.of_nat (length pre)
        else Z.of_nat (length (pre ++ bad :: post)) - 1, None), w') ∧
    ReadFile db w'
    = Some (database driver
              (if String.eqb driver "duckdb" then rows
               else rows ++ (toRow sym <$> (pre ++ post)))) ∧
    log w'
    = log w ++ (if String.eqb driver "duckdb"
                then InsertError <$> (bad :: post) else [InsertError bad]).
Proof.
  intros Hdrv Hro Hconn Hread Hcommit Hpre Hbad Hpost.
  destruct (connect_ready driver db w rows Hconn Hread (λ _, Hro))
    as (loc & Hres & Hdir & Hfile & Hc).
  rewrite (sqlStoreCandles_ready _ _ _ _ _ _ rows loc) by done.
  rewrite foldl_insertCandle_one_refused; try done;
    [| by rewrite Hro, andb_false_r].
  destruct (String.eqb driver "duckdb") eqn:E.
  - cbn [aborted]. eexists. split; [done |].
    split; [by rewrite ReadFile_foldl_logLine |].
    apply log_foldl_logLine.
  - cbn [aborted seen foldl]. cbn [faults logLine]. rewrite Hcommit.
    eexists. split; [| split].
    + f_equal. f_equal. rewrite !length_app. cbn [length]. lia.
    + rewrite (ReadFile_withFiles _ _ _ loc); [| done..].
      by rewrite lookup_insert_eq.
    + done.
Qed.

Lemma durable_database s w sym rows :
  (s = DuckDBStore (dataPath s sym) ∨ s = SQLiteStore (dataPath s sym)) →
  ReadFile (dataPath s sym) w = Some (database (driverOf s) rows) →
  durable s w sym = rows.
Proof.
  intros Hs Hread. unfold durable. rewrite Hread.
  destruct Hs as [-> | ->]; cbn [recordsOf driverOf];
    by rewrite tableOf_database.
Qed.

Lemma forallb_one_false {A} (P : A → bool) (before pre post : list A) bad :
  P bad = false → forallb P (before ++ pre ++ bad :: post) = false.
Proof.
  intros Hbad. rewrite !forallb_app. cbn [forallb]. rewrite Hbad.
  cbn. by rewrite !andb_false_r.
Qed.

Lemma OpenFileAppend_resolve path w :
  is_Some (OpenFileAppend path w) →
  ∃ loc, resolve w path = Some loc ∧ isDir w loc = false ∧
         readOnly w = false.
Proof.
  unfold OpenFileAppend. destruct (resolve w path) as [loc |];
    [| by intros [? ?]].
  destruct (isDir w loc) eqn:Hdir; [by intros [? ?] |].
  destruct (readOnly w) eqn:Hro; [by intros [? ?] |]. by exists loc.
Qed.

(** What the CSV store holds after a call that went through. *)
Lemma CSVStore_StoreCandles_durable basePath w sym candles :
  is_Some (OpenFileAppend (dataPath (CSVStore basePath) sym) w) →
  deviceFails (faults w) = false →
  ∃ w',
    StoreCandles (CSVStore basePath) w sym candles
    = ((Z.of_nat (length candles), None), w') ∧
    ReadFile (dataPath (CSVStore basePath) sym) w'
    = Some (match ReadFile (dataPath (CSVStore basePath) sym) w with
            | Some f => extend f (csvRecord sym <$> candles)
            | None => extend emptyFile
                        (csvHeader :: (csvRecord sym <$> candles))
            end) ∧
    Stat (dataPath (CSVStore basePath) sym) w
    = bool_decide (is_Some (ReadFile (dataPath (CSVStore basePath) sym) w)).
Proof.
  intros (loc & Hres & Hdir & Hro)%OpenFileAppend_resolve Hdev.
  cbn [dataPath StoreCandles] in *.
  rewrite (CSVStore_StoreCandles_ok _ _ _ _ loc) by done.
  eexists. split; [done |].
  rewrite ReadFile_logLine, (ReadFile_withFiles _ _ _ loc) by done.
  rewrite lookup_insert_eq. unfold ReadFile, Stat. rewrite Hres, Hdir.
  done.
Qed.

(** C2 (as amended).  On a file system that can be written:
    [SQLiteStore.StoreCandles], on a database that opens, holds the
    table and commits, given a batch of n candles of which the engine
    refuses exactly one, returns n-1 and no error, and the table then
    holds the rows it held followed by the rows of the n-1 other
    candles, in order: the count is the number of rows added.
    [CSVStore.StoreCandles] refuses no candle: when the file opens and
    the device takes the writes it counts and writes all n, after the
    header of a new file.  [JSONStore.StoreCandles] is all-or-nothing:
    a batch with a candle that cannot be encoded returns 0 with the
    marshalling error and leaves everything as it was. *)
Theorem StoreCandles_partial_success (w : World) (sym : string)
    (pre post : list HistoricalData) (bad : HistoricalData) :
  readOnly w = false →
  (∀ db rows,
     connectFails (faults w) db = false →
     ReadFile db w = Some (database "sqlite3" rows) →
     commitFails (faults w) = false →
     accepted (faults w) rows (sqliteRow sym <$> pre) = true →
     refuses (faults w) (rows ++ (sqliteRow sym <$> pre)) (sqliteRow sym bad)
     = true →
     accepted (faults w) (rows ++ (sqliteRow sym <$> pre))
       (sqliteRow sym <$> post) = true →
     ∃ w',
       StoreCandles (SQLiteStore db) w sym (pre ++ bad :: post)
       = ((Z.of_nat (length (pre ++ bad :: post)) - 1, None), w') ∧
       durable (SQLiteStore db) w sym = rows ∧
       durable (SQLiteStore db) w' sym
       = rows ++ (sqliteRow sym <$> (pre ++ post))) ∧
  (∀ basePath,
     is_Some (OpenFileAppend (dataPath (CSVStore basePath) sym) w) →
     deviceFails (faults w) = false →
     ∃ w',
       StoreCandles (CSVStore basePath) w sym (pre ++ bad :: post)
       = ((Z.of_nat (length (pre ++ bad :: post)), None), w') ∧
       durable (CSVStore basePath) w' sym
       = durable (CSVStore basePath) w sym
         ++ (if Stat (dataPath (CSVStore basePath) sym) w then []
             else [csvHeader])
         ++ (csvRecord sym <$> (pre ++ bad :: post))) ∧
  (∀ basePath,
     marshalable bad = false →
     StoreCandles (JSONStore basePath) w sym (pre ++ bad :: post)
     = ((0, Some ErrMarshalJSON), w)).
Proof.
  intros Hro. split; [| split].
  - intros db rows Hconn Hread Hcommit Hpre Hbad Hpost.
    destruct (sqlStoreCandles_one_refused "sqlite3" sqliteRow db w sym
                pre bad post rows) as (w' & Hrun & Hread' & _); try done.
    { unfold drivers. set_solver. }
    exists w'. cbn [String.eqb Ascii.eqb Bool.eqb] in *.
    split; [exact Hrun |].
    split; by apply durable_database; [right |].
  - intros basePath Hopen Hdev.
    destruct (CSVStore_StoreCandles_durable basePath w sym
                (pre ++ bad :: post) Hopen Hdev) as (w' & Hrun & Hread' & Hstat).
    exists w'. split; [exact Hrun |].
    unfold durable. rewrite Hread', Hstat. cbn [recordsOf].
    destruct (ReadFile _ w) as [f |].
    + rewrite bool_decide_eq_true_2 by done. done.
    + rewrite bool_decide_eq_false_2 by (by intros [? ?]). done.
  - intros basePath Hbad. cbn [StoreCandles].
    unfold JSONStore_StoreCandles, MarshalIndent.
    by rewrite forallb_one_false.
Qed.

Lemma StoreCandles_partial_success_witness :
  ∃ w',
    StoreCandles (SQLiteStore "market.sqlite") Samples.oneRowDisk "SBIN"
      [Samples.candle2; Samples.candle1; Samples.candle3]
    = ((2, None), w') ∧
    durable (SQLiteStore "market.sqlite") Samples.oneRowDisk "SBIN"
    = [sqliteRow "SBIN" Samples.candle1] ∧
    durable (SQLiteStore "market.sqlite") w' "SBIN"
    = [sqliteRow "SBIN" Samples.candle1; sqliteRow "SBIN" Samples.candle2;
       sqliteRow "SBIN" Samples.candle3].
Proof.
  destruct (StoreCandles_partial_success Samples.oneRowDisk "SBIN"
              [Samples.candle2] [Samples.candle3] Samples.candle1 eq_refl)
    as [Hsqlite _].
  apply (Hsqlite "market.sqlite" [sqliteRow "SBIN" Samples.candle1]);
    reflexivity.
Defined.

(** C2 fails as stated for the JSON store: of a batch of two candles of
    which one holds a NaN, nothing is stored and the count is 0, not
    1. *)
Lemma JSONStore_drops_whole_batch :
  marshalable Samples.candle1 = true ∧
  marshalable Samples.candleNaN = false ∧
  StoreCandles (JSONStore "data") Samples.emptyDisk "SBIN"
    [Samples.candle1; Samples.candleNaN]
  = ((0, Some ErrMarshalJSON), Samples.emptyDisk) ∧
  (0 ≠ Z.of_nat (length [Samples.candle1; Samples.candleNaN]) - 1) ∧
  durable (JSONStore "data") Samples.emptyDisk "SBIN" = [].
Proof. vm_compute. repeat split; done. Qed.

(** *** Merging with an existing file *)

Lemma csvRecord_not_header sym c : csvRecord sym c ≠ csvHeader.
Proof. unfold csvRecord, csvHeader. congruence. Qed.

Lemma headerCount_extend f sym candles :
  headerCount (extend f (csvRecord sym <$> candles)) = headerCount f.
Proof.
  unfold headerCount, extend. cbn [records]. rewrite filter_app, length_app.
  replace (filter (λ r, r = csvHeader) (csvRecord sym <$> candles))
    with (@nil CSVRecord); [cbn; lia |].
  induction candles as [| c l IH]; [done |].
  cbn [fmap list_fmap].
  rewrite filter_cons_False by apply csvRecord_not_header. exact IH.
Qed.

Lemma reachable_resolve path w :
  reachable path w = true → ∃ loc, resolve w path = Some loc.
Proof.
  unfold reachable. intros H. apply bool_decide_eq_true in H as [loc Hloc].
  by exists loc.
Qed.

(** C7 (as amended).  On a file system that can be written and a device
    that takes the writes, for a batch of any length:
    the CSV store appends the records of the batch to a file that is
    there, whatever it holds, and writes no header; it creates a file
    that is not there, in a directory that is, with one header followed
    by the records of the batch.  The JSON store, when the file that is
    there parses as an array of candles and every candle of the array
    and of the batch can be encoded, replaces the file by the array
    followed by the batch. *)
Theorem StoreCandles_merges_existing_file (basePath : string) (w : World)
    (sym : string) (candles : list HistoricalData) :
  readOnly w = false →
  deviceFails (faults w) = false →
  (∀ f,
     ReadFile (dataPath (CSVStore basePath) sym) w = Some f →
     ∃ w',
       StoreCandles (CSVStore basePath) w sym candles
       = ((Z.of_nat (length candles), None), w') ∧
       ReadFile (dataPath (CSVStore basePath) sym) w'
       = Some (extend f (csvRecord sym <$> candles)) ∧
       headerCount (extend f (csvRecord sym <$> candles)) = headerCount f) ∧
  (Stat (dataPath (CSVStore basePath) sym) w = false →
   reachable (dataPath (CSVStore basePath) sym) w = true →
   ∃ w',
     StoreCandles (CSVStore basePath) w sym candles
     = ((Z.of_nat (length candles), None), w') ∧
     ReadFile (dataPath (CSVStore basePath) sym) w'
     = Some {| preamble := NoPreamble;
               records := csvHeader :: (csvRecord sym <$> candles) |} ∧
     headerCount {| preamble := NoPreamble;
                    records := csvHeader :: (csvRecord sym <$> candles) |}
     = 1%nat) ∧
  (∀ f arr,
     ReadFile (dataPath (JSONStore basePath) sym) w = Some f →
     Unmarshal f [] = (arr, true) →
     forallb marshalable (arr ++ candles) = true →
     ∃ w',
       StoreCandles (JSONStore basePath) w sym candles
       = ((Z.of_nat (length candles), None), w') ∧
       ReadFile (dataPath (JSONStore basePath) sym) w'
       = Some {| preamble := JSONArray (arr ++ candles); records := [] |}).
Proof.
  intros Hro Hdev. split; [| split].
  - intros f Hread.
    destruct (ReadFile_resolve _ _ _ Hread) as (loc & Hres & Hdir & Hfile).
    destruct (CSVStore_StoreCandles_durable basePath w sym candles)
      as (w' & Hrun & Hread' & _); [| done |].
    { unfold OpenFileAppend. rewrite Hres, Hdir, Hro, Hfile. by eexists. }
    exists w'. rewrite Hread in Hread'.
    split; [done |]. split; [done |]. apply headerCount_extend.
  - intros Hstat (loc & Hres)%reachable_resolve.
    unfold Stat in Hstat. rewrite Hres in Hstat.
    apply orb_false_iff in Hstat as [Hdir Hfile].
    apply bool_decide_eq_false in Hfile.
    destruct (CSVStore_StoreCandles_durable basePath w sym candles)
      as (w' & Hrun & Hread' & _); [| done |].
    { unfold OpenFileAppend. rewrite Hres, Hdir, Hro.
      cbn [orb]. destruct (files w !! keyOf loc); by eexists. }
    exists w'. split; [done |].
    assert (ReadFile (dataPath (CSVStore basePath) sym) w = None) as Hnone.
    { unfold ReadFile. rewrite Hres, Hdir.
      destruct (files w !! keyOf loc) eqn:E; [| done].
      exfalso. apply Hfile. by eexists. }
    rewrite Hnone in Hread'. split; [exact Hread' |].
    pose proof (headerCount_extend
                  {| preamble := NoPreamble; records := [csvHeader] |}
                  sym candles) as Hcount.
    exact Hcount.
  - intros f arr Hread Hparse Hok.
    destruct (ReadFile_resolve _ _ _ Hread) as (loc & Hres & Hdir & Hfile).
    cbn [dataPath StoreCandles] in *.
    rewrite (JSONStore_StoreCandles_ok basePath w sym candles arr loc);
      try done; [| by rewrite Hfile, Hparse].
    eexists. split; [done |].
    rewrite ReadFile_logLine, (ReadFile_withFiles _ _ _ loc) by done.
    by rewrite lookup_insert_eq.
Qed.

Lemma StoreCandles_merges_existing_file_witness :
  (∃ w',
     StoreCandles (CSVStore "data") Samples.usedDisk "SBIN" [Samples.candle2]
     = ((1, None), w') ∧
     ReadFile "data/SBIN.csv" w'
     = Some {| preamble := NoPreamble;
               records := [csvHeader; csvRecord "SBIN" Samples.candle1;
                           csvRecord "SBIN" Samples.candle2] |} ∧
     headerCount {| preamble := NoPreamble;
                    records := [csvHeader; csvRecord "SBIN" Samples.candle1;
                                csvRecord "SBIN" Samples.candle2] |}
     = 1%nat) ∧
  (∃ w',
     StoreCandles (JSONStore "data") Samples.usedDisk "INFY" [Samples.candle2]
     = ((1, None), w') ∧
     ReadFile "data/INFY.json" w'
     = Some {| preamble := JSONArray [Samples.candle1; Samples.candle2];
               records := [] |}).
Proof.
  split.
  - destruct (StoreCandles_merges_existing_file "data" Samples.usedDisk "SBIN"
                [Samples.candle2] eq_refl eq_refl) as (Hcsv & _ & _).
    apply (Hcsv {| preamble := NoPreamble;
                   records := [csvHeader;
                               csvRecord "SBIN" Samples.candle1] |}).
    reflexivity.
  - destruct (StoreCandles_merges_existing_file "data" Samples.usedDisk "INFY"
                [Samples.candle2] eq_refl eq_refl) as (_ & _ & Hjson).
    apply (Hjson {| preamble := JSONArray [Samples.candle1]; records := [] |}
             [Samples.candle1]); reflexivity.
Defined.

(** C7 fails as stated.  For the JSON store, a file that is there and
    does not parse is replaced by the new batch alone.  For the CSV
    store, a file that is there without a header never gets one. *)
Lemma JSONStore_overwrites_existing_file :
  (ReadFile "data/SBIN.json" Samples.usedDisk
   = Some {| preamble := RawBytes "<html>"; records := [] |} ∧
   fst (StoreCandles (JSONStore "data") Samples.usedDisk "SBIN"
          [Samples.candle2]) = (1, None) ∧
   ReadFile "data/SBIN.json"
     (snd (StoreCandles (JSONStore "data") Samples.usedDisk "SBIN"
             [Samples.candle2]))
   = Some {| preamble := JSONArray [Samples.candle2]; records := [] |}) ∧
  (ReadFile "data/INFY.csv" Samples.touchedDisk = Some emptyFile ∧
   fst (StoreCandles (CSVStore "data") Samples.touchedDisk "INFY"
          [Samples.candle1]) = (1, None) ∧
   ReadFile "data/INFY.csv"
     (snd (StoreCandles (CSVStore "data") Samples.touchedDisk "INFY"
             [Samples.candle1]))
   = Some {| preamble := NoPreamble;
             records := [csvRecord "INFY" Samples.candle1] |}).
Proof. vm_compute. repeat split; done. Qed.

End StorageFacts.

(** ** The fetching loop *)

Section FetchingLoopFacts.
Import GoTime Kiteconnect Cli.

Variables (conf : Config) (store : Storage.Store).

Lemma extends_refl verbose r : extends verbose r r [] [].
Proof.
  unfold Cli.extends. rewrite !app_nil_r. repeat split; try done.
  by destruct verbose.
Qed.

Lemma extends_trans verbose r1 r2 r3 made1 made2 printed1 printed2 :
  extends verbose r1 r2 made1 printed1 → extends verbose r2 r3 made2 printed2 →
  extends verbose r1 r3 (made1 ++ made2) (printed1 ++ printed2).
Proof.
  intros (Hh1 & Hc1 & Hs1 & Hw1) (Hh2 & Hc2 & Hs2 & Hw2).
  unfold Cli.extends. rewrite Hh2, Hh1, Hc2, Hc1, <- !app_assoc.
  repeat split; try done.
  - by rewrite !omap_app, Hs1, Hs2.
  - rewrite !filter_app, !length_app, Hw1, Hw2. by destruct verbose.
Qed.

Lemma extends_logf verbose e r : extends verbose r (logf verbose e r) [] [].
Proof.
  unfold logf. destruct verbose; [| apply extends_refl].
  unfold Cli.extends. simpl. rewrite !app_nil_r. done.
Qed.

Lemma history_logf v e r : history (logf v e r) = history r.
Proof. by destruct v. Qed.

Lemma console_logf v e r : console (logf v e r) = console r.
Proof. by destruct v. Qed.

(** One chunk: one fetch, followed by one [StoreCandles] exactly when
    the fetch succeeded with at least one candle. *)
Lemma fetchChunk_extends verbose sym token chunks r totalInserted idx chunk :
  ∃ made printed,
    extends verbose r
      (fetchChunk verbose conf store sym token chunks (r, totalInserted)
         (idx, chunk)).1
      made printed ∧
    omap fetchOf made = [(sym, token, chunk)].
Proof.
  unfold fetchChunk, callFetch, callStore, printfIf, printf.
  destruct (Kite.GetHistoricalData _ _ _ _ _) as [[err | candles] k] eqn:Hk.
  - (* the fetch failed *)
    exists [Fetch sym token chunk (inl err)].
    exists (if verbose then [APIErrorWarning sym (Z.of_nat idx + 1) chunks]
            else []).
    unfold Cli.extends. destruct verbose; simpl; rewrite ?app_nil_r; done.
  - destruct candles as [| c0 candles].
    + (* no candle *)
      exists [Fetch sym token chunk (inr [])], [].
      unfold Cli.extends. destruct verbose; simpl; rewrite ?app_nil_r; done.
    + cbn [length]. rewrite Nat2Z.inj_succ.
      destruct (Z.eqb_spec (Z.succ (Z.of_nat (length candles))) 0); [lia |].
      destruct (Storage.StoreCandles _ _ _ _) as [[inserted [e |]] d] eqn:Hd.
      * exists [Fetch sym token chunk (inr (c0 :: candles));
                Store sym (c0 :: candles) (inserted, Some e)].
        exists (if verbose
                then [StorageErrorWarning sym (Z.of_nat idx + 1) chunks]
                else []).
        unfold Cli.extends.
        destruct verbose; simpl; rewrite <- ?app_assoc, ?app_nil_r; done.
      * exists [Fetch sym token chunk (inr (c0 :: candles));
                Store sym (c0 :: candles) (inserted, None)], [].
        unfold Cli.extends.
        destruct verbose; simpl; rewrite <- ?app_assoc, ?app_nil_r; done.
Qed.

(** The chunks of one instrument: every chunk is fetched, in order,
    whatever came before. *)
Lemma foldl_fetchChunk_extends verbose sym token chunks
    (l : list (nat * Kite.Chunk)) :
  ∀ r totalInserted,
  ∃ made printed,
    extends verbose r
      (foldl (fetchChunk verbose conf store sym token chunks)
         (r, totalInserted) l).1
      made printed ∧
    omap fetchOf made = (λ ic, (sym, token, ic.2)) <$> l.
Proof.
  induction l as [| [idx chunk] l IH]; intros r totalInserted.
  - exists [], []. split; [apply extends_refl | done].
  - cbn [foldl].
    destruct (fetchChunk_extends verbose sym token chunks r totalInserted idx chunk)
      as (made1 & printed1 & Hext1 & Hf1).
    destruct (fetchChunk verbose conf store sym token chunks
                (r, totalInserted) (idx, chunk)) as [r1 t1].
    destruct (IH r1 t1) as (made2 & printed2 & Hext2 & Hf2).
    exists (made1 ++ made2), (printed1 ++ printed2).
    split; [by eapply extends_trans |].
    rewrite omap_app, Hf1, Hf2. done.
Qed.

Lemma indexed_snd {A} (l : list A) : (indexed l).*2 = l.
Proof. unfold indexed. apply snd_zip. by rewrite length_seq. Qed.

Lemma extends_quiet verbose r r' printed :
  history r' = history r → console r' = console r ++ printed →
  Forall (λ p, isWarning p = false) printed →
  extends verbose r r' [] printed.
Proof.
  intros Hh Hc Hq. unfold Cli.extends. rewrite Hh, Hc, app_nil_r.
  repeat split; try done.
  assert (filter (λ p, isWarning p = true) printed = []) as ->.
  { clear Hc. induction Hq as [| p l Hp Hl IH]; [done |].
    rewrite filter_cons_False by (rewrite Hp; done). done. }
  by destruct verbose.
Qed.

Lemma progress_extends verbose processed total r :
  ∃ printed, extends verbose r (progress processed total r) [] printed.
Proof.
  unfold progress.
  destruct (_ || _).
  - eexists [_]. apply extends_quiet; [done | done |].
    by repeat constructor.
  - exists []. apply extends_refl.
Qed.

Variables (tokenMap : gmap string Z) (from to : Time).

Lemma fetchInstrument_extends verbose r processed total i sym :
  ∃ made printed,
    extends verbose r
      (fetchInstrument verbose conf tokenMap store from to
         (r, processed, total) (i, sym)).1.1
      made printed ∧
    omap fetchOf made = plannedFor conf tokenMap from to sym.
Proof.
  unfold fetchInstrument, plannedFor.
  destruct (tokenMap !! sym) as [token |];
    [| exists [], []; split; [apply extends_refl | done]].
  set (chunks := Kite.GenerateDateChunks from to (Interval conf)).
  match goal with
  | |- context [foldl ?f (?r1, 0) (indexed chunks)] =>
      set (start := r1);
      destruct (foldl_fetchChunk_extends verbose sym token
                  (Z.of_nat (length chunks)) (indexed chunks) start 0)
        as (made & printed & Hext & Hf);
      destruct (foldl f (start, 0) (indexed chunks)) as [r2 totalInserted]
  end.
  assert (Hstart : ∃ printed0, extends verbose r start [] printed0).
  { subst start. destruct verbose eqn:Hv.
    - eexists [_]. apply extends_quiet; [done | done |].
      by repeat constructor.
    - apply progress_extends. }
  destruct Hstart as [printed0 Hstart].
  assert (Hend : ∃ printed1,
            extends verbose r2
              (printfIf verbose (Saved totalInserted sym)
                 (logf verbose
                    (Storage.LogTotalInserted sym totalInserted) r2))
              [] printed1).
  { unfold printfIf. destruct verbose eqn:Hv.
    - eexists [_]. apply extends_quiet; [done | done |].
      by repeat constructor.
    - exists []. apply extends_refl. }
  destruct Hend as [printed1 Hend].
  exists (([] ++ made) ++ []), ((printed0 ++ printed) ++ printed1).
  split.
  - cbn [fst]. eapply extends_trans; [| exact Hend].
    eapply extends_trans; [exact Hstart | exact Hext].
  - rewrite app_nil_r. simpl. rewrite Hf.
    rewrite <- (indexed_snd chunks) at 2.
    by rewrite <- list_fmap_compose.
Qed.

Lemma foldl_fetchInstrument_extends verbose (l : list (nat * string)) :
  ∀ r processed total,
  ∃ made printed,
    extends verbose r
      (foldl (fetchInstrument verbose conf tokenMap store from to)
         (r, processed, total) l).1.1
      made printed ∧
    omap fetchOf made = flat_map (plannedFor conf tokenMap from to) (l.*2).
Proof.
  induction l as [| [i sym] l IH]; intros r processed total.
  - exists [], []. split; [apply extends_refl | done].
  - cbn [foldl].
    destruct (fetchInstrument_extends verbose r processed total i sym)
      as (made1 & printed1 & Hext1 & Hf1).
    destruct (fetchInstrument verbose conf tokenMap store from to
                (r, processed, total) (i, sym)) as [[r1 p1] t1].
    destruct (IH r1 p1 t1) as (made2 & printed2 & Hext2 & Hf2).
    exists (made1 ++ made2), (printed1 ++ printed2).
    split; [by eapply extends_trans |].
    rewrite omap_app, Hf1, Hf2. done.
Qed.

(** C4.  In the fetching loop, for every instrument that has a token and
    every chunk, exactly one fetch is made, in order, whatever the
    outcome of the fetches before: no outcome ends the instrument or the
    run.  [StoreCandles] is called exactly for the fetches that returned
    without error and with at least one candle, with that batch: a fetch
    error and an empty result both skip the chunk without a call to
    [StoreCandles].  The console warns only for calls that failed (and
    only in verbose mode): an empty result is passed over without a
    warning. *)
Theorem runFetchingLoop_skips_and_continues verbose (r : Run) :
  ∃ made printed,
    history (runFetchingLoop verbose conf tokenMap store from to r)
    = history r ++ made ∧
    console (runFetchingLoop verbose conf tokenMap store from to r)
    = console r ++ printed ∧
    omap fetchOf made = planned conf tokenMap from to ∧
    omap storeOf made = omap handedOver made ∧
    length (filter (λ p, isWarning p = true) printed)
    = if verbose
      then length (filter (λ c, failed c = true) made)
      else 0%nat.
Proof.
  unfold runFetchingLoop.
  destruct (foldl_fetchInstrument_extends verbose (indexed (Instruments conf))
              r 0 0) as (made & printed & Hext & Hf).
  destruct (foldl _ _ _) as [[r1 processed] total].
  assert (Hlast : extends verbose r1 (printf (Completed total processed) r1)
                    [] [Completed total processed]).
  { apply extends_quiet; [done | done | by repeat constructor]. }
  pose proof (extends_trans _ _ _ _ _ _ _ _ Hext Hlast)
    as (Hh & Hc & Hs & Hw).
  rewrite app_nil_r in *.
  exists made, (printed ++ [Completed total processed]).
  repeat split; try done.
  rewrite Hf, indexed_snd. done.
Qed.


(** A run over three instruments, one of them unknown, in which the
    first fetch fails and the second returns nothing: four fetches, and
    two calls to [StoreCandles], for the two fetches that brought
    candles. *)
Example runFetchingLoop_sample :
  omap fetchOf
    (history (runFetchingLoop false Samples.sampleConfig
                Samples.sampleTokens (Storage.CSVStore "data")
                (ParseDate 2024 1 1) (ParseDate 2024 4 1)
                Samples.sampleRun))
  = [("SBIN", 779521, (ParseDate 2024 1 1, ParseDate 2024 3 1));
     ("SBIN", 779521, (ParseDate 2024 3 1 + Second, ParseDate 2024 4 1));
     ("INFY", 408065, (ParseDate 2024 1 1, ParseDate 2024 3 1));
     ("INFY", 408065, (ParseDate 2024 3 1 + Second, ParseDate 2024 4 1))] ∧
  omap storeOf
    (history (runFetchingLoop false Samples.sampleConfig
                Samples.sampleTokens (Storage.CSVStore "data")
                (ParseDate 2024 1 1) (ParseDate 2024 4 1)
                Samples.sampleRun))
  = [("INFY", [Samples.candle1]); ("INFY", [Samples.candle2])].
Proof. vm_compute. done. Qed.

End FetchingLoopFacts.

(** ** What every call to [StoreCandles] keeps *)

Section StoreInvariants.
Import GoTime Kiteconnect Storage StoreSpec.

(** *** The database stores *)

(** The insert loop, whatever the engine refuses: the rows that the
    transaction has seen in the end are rows of the batch, in the order
    of the batch, and the counter has counted them. *)
Lemma foldl_insertCandle_accounting driver w toRow candles : ∀ n tx logged,
  ∃ added tx' logged',
    foldl (insertCandle driver w toRow) (n, tx, logged) candles
    = (n + Z.of_nat (length added), tx', logged') ∧
    seen tx' = seen tx ++ added ∧
    sublist added (toRow <$> candles) ∧
    (aborted tx' = true → aborted tx = true ∨ driver = "duckdb").
Proof.
  induction candles as [| c l IH]; intros n tx logged.
  - exists [], tx, logged. cbn. rewrite Z.add_0_r, app_nil_r.
    repeat split; [constructor | by left].
  - cbn [foldl insertCandle]. unfold stmtExec.
    destruct (aborted tx) eqn:Hab.
    + destruct (IH n tx (logged ++ [InsertError c]))
        as (added & tx' & logged' & -> & Hseen & Hsub & Hab').
      exists added, tx', logged'. repeat split; try done.
      * by apply sublist_cons_r; left.
      * by left.
    + destruct (refuses (faults w) (seen tx) (toRow c)
                || String.eqb driver "sqlite3" && readOnly w).
      * destruct (IH n {| seen := seen tx;
                          aborted := String.eqb driver "duckdb" |}
                    (logged ++ [InsertError c]))
          as (added & tx' & logged' & -> & Hseen & Hsub & Hab').
        exists added, tx', logged'. repeat split; try done.
        -- by apply sublist_cons_r; left.
        -- intros H. destruct (Hab' H) as [E | E]; [| by right].
           cbn in E. apply String.eqb_eq in E. by right.
      * destruct (IH (n + 1) {| seen := seen tx ++ [toRow c];
                                aborted := false |} logged)
          as (added & tx' & logged' & -> & Hseen & Hsub & Hab').
        exists (toRow c :: added), tx', logged'. repeat split.
        -- f_equal. f_equal. cbn [length]. lia.
        -- rewrite Hseen. cbn [seen]. by rewrite <- app_assoc.
        -- cbn [fmap list_fmap]. by apply sublist_skip.
        -- intros H. destruct (Hab' H) as [E | E]; [done | by right].
Qed.

Lemma openDatabase_cases driver path w key w0 :
  openDatabase driver path w = Some (key, w0) →
  ∃ loc, resolve w path = Some loc ∧ isDir w loc = false ∧ key = keyOf loc ∧
         (w0 = w ∧ is_Some (files w !! key)
          ∨ files w !! key = None
            ∧ w0 = withFiles (<[key := newDatabase driver]> (files w)) w).
Proof.
  unfold openDatabase. destruct (connectFails (faults w) path); [done |].
  destruct (resolve w path) as [loc |]; [| done].
  destruct (isDir w loc) eqn:Hdir; [done |].
  destruct (files w !! keyOf loc) as [f |] eqn:Hfile.
  - destruct (String.eqb driver "duckdb").
    + destruct (readOnly w); [done |].
      destruct (tableOf driver f); [| done].
      intros [= <- <-]. exists loc. rewrite Hfile. eauto 10.
    + intros [= <- <-]. exists loc. rewrite Hfile. eauto 10.
  - destruct (readOnly w); [done |].
    intros [= <- <-]. exists loc. eauto 10.
Qed.

Lemma connect_cases driver db w key w0 :
  connect driver db w = Some (key, w0) →
  ∃ loc, resolve w db = Some loc ∧ isDir w loc = false ∧ key = keyOf loc ∧
         (w0 = w ∧ is_Some (files w !! key)
          ∨ files w !! key = None
            ∧ w0 = withFiles (<[key := newDatabase driver]> (files w)) w).
Proof.
  unfold connect. destruct (_ && _); [done |]. apply openDatabase_cases.
Qed.

(** The rows of the table that a driver finds at a path. *)
Lemma tableOf_recordsOf s f :
  isDatabase s = true →
  recordsOf s f = match tableOf (driverOf s) f with
                  | Some (Some rows) => rows
                  | _ => []
                  end.
Proof. by destruct s. Qed.

Lemma sameElsewhere_refl path w : sameElsewhere path w w.
Proof. unfold sameElsewhere. by destruct (resolve w path). Qed.

Lemma sameElsewhere_key path w loc w' :
  resolve w path = Some loc →
  dirs w' = dirs w → readOnly w' = readOnly w → faults w' = faults w →
  (∀ k, k ≠ keyOf loc → files w' !! k = files w !! k) →
  sameElsewhere path w w'.
Proof. intros Hres ? ? ? ?. unfold sameElsewhere. by rewrite Hres. Qed.

Lemma sublist_length_Z {A} (l1 l2 : list A) :
  sublist l1 l2 → Z.of_nat (length l1) ≤ Z.of_nat (length l2).
Proof. intros H%sublist_length. lia. Qed.

Lemma files_foldl_logLine l w k :
  files (foldl (λ w e, logLine e w) w l) !! k = files w !! k.
Proof. by destruct (foldl_logLine l w) as (_ & -> & _). Qed.

(** [StoreCandles] of a database store, in every world and whatever
    fails. *)
Lemma sqlStoreCandles_accounting driver toRow db w sym candles :
  driver ∈ drivers →
  let r := sqlStoreCandles driver toRow db w sym candles in
  let table := λ w : World,
    match ReadFile db w ≫= tableOf driver with
    | Some (Some rows) => rows
    | _ => []
    end in
  ∃ added,
    table r.2 = table w ++ added ∧
    sublist added (toRow sym <$> candles) ∧
    Z.of_nat (length added) ≤ r.1.1 ≤ Z.of_nat (length candles) ∧
    (driver ≠ "duckdb" → r.1.2 = None → r.1.1 = Z.of_nat (length added)) ∧
    (is_Some r.1.2 → added = [] ∧ r.1.1 = 0) ∧
    sameElsewhere db w r.2.
Proof.
  intros Hdrv r table. subst r. unfold sqlStoreCandles.
  assert (Hnone : ∃ added : list Row,
            table w = table w ++ added ∧
            sublist added (toRow sym <$> candles) ∧
            Z.of_nat (length added) ≤ 0 ≤ Z.of_nat (length candles) ∧
            (driver ≠ "duckdb" → Some ErrTransaction = None
             → 0 = Z.of_nat (length added)) ∧
            (is_Some (Some ErrTransaction) → added = [] ∧ 0 = 0) ∧
            sameElsewhere db w w).
  { exists []. rewrite app_nil_r.
    split; [done |]. split; [apply sublist_nil_l |].
    split; [cbn [length]; lia |]. split; [done |]. split; [done |].
    apply sameElsewhere_refl. }
  destruct (connect driver db w) as [[key w0] |] eqn:Hconn; [| exact Hnone].
  clear Hnone.
  destruct (connect_cases _ _ _ _ _ Hconn)
    as (loc & Hres & Hdir & -> & Hcase).
  assert (Hread : ∀ w', dirs w' = dirs w →
            ReadFile db w' = files w' !! keyOf loc).
  { intros w' Hd. unfold ReadFile. rewrite (resolve_dirs w) by done.
    rewrite Hres, (isDir_dirs w) by done. by rewrite Hdir. }
  assert (Hfail : ∀ e : Error,
            table w0 = table w → sameElsewhere db w w0 →
            ∃ added : list Row,
              table w0 = table w ++ added ∧
              sublist added (toRow sym <$> candles) ∧
              Z.of_nat (length added) ≤ 0 ≤ Z.of_nat (length candles) ∧
              (driver ≠ "duckdb" → Some e = None
               → 0 = Z.of_nat (length added)) ∧
              (is_Some (Some e) → added = [] ∧ 0 = 0) ∧
              sameElsewhere db w w0).
  { intros e Htab Hsame. exists []. rewrite app_nil_r.
    split; [done |]. split; [apply sublist_nil_l |].
    split; [cbn [length]; lia |]. split; [done |]. split; [done |]. done. }
  destruct Hcase as [[-> [f Hfile]] | [Hfile ->]].
  - rewrite Hfile. cbn -[tableOf].
    destruct (tableOf driver f) as [[rows |] |] eqn:Htab;
      [| apply (Hfail ErrPrepare); [done | apply sameElsewhere_refl]..].
    destruct (foldl_insertCandle_accounting driver w (toRow sym) candles 0
                {| seen := rows; aborted := false |} [])
      as (added & tx & logged & -> & Hseen & Hsub & Hab).
    cbn [seen] in Hseen. rewrite Z.add_0_l.
    set (w1 := foldl (λ w e, logLine e w) w logged).
    destruct (foldl_logLine logged w) as (Hd1 & Hf1 & Hr1 & Hx1).
    fold w1 in Hd1, Hf1, Hr1, Hx1.
    assert (table w = rows) as Hbefore.
    { unfold table. rewrite Hread by done. rewrite Hfile. cbn -[tableOf].
      by rewrite Htab. }
    assert (table w1 = rows) as Hlogged.
    { unfold table. rewrite Hread by done. rewrite Hf1, Hfile.
      cbn -[tableOf]. by rewrite Htab. }
    assert (sameElsewhere db w w1) as Hsame1.
    { apply (sameElsewhere_key _ _ loc); try done.
      intros k _. by rewrite Hf1. }
    pose proof (sublist_length_Z _ _ Hsub) as Hlen.
    rewrite length_fmap in Hlen.
    destruct (aborted tx) eqn:Habort; cbn [fst snd].
    + exists []. rewrite app_nil_r, Hbefore, Hlogged.
      split; [done |]. split; [apply sublist_nil_l |].
      split; [cbn [length]; lia |].
      split; [intros Hne _; destruct (Hab eq_refl); done |].
      split; [by intros [? ?] | done].
    + destruct (commitFails (faults w1)); cbn [fst snd].
      * exists []. rewrite app_nil_r, Hbefore, Hlogged.
        split; [done |]. split; [apply sublist_nil_l |].
        split; [cbn [length]; lia |]. split; [done |]. split; [done |].
        done.
      * exists added. split; [| split; [done |]].
        { unfold table at 1. rewrite Hread by done.
          cbn [files withFiles]. rewrite lookup_insert_eq.
          cbn -[tableOf database]. rewrite tableOf_database.
          by rewrite Hbefore, Hseen. }
        split; [lia |]. split; [done |]. split; [by intros [? ?] |].
        apply (sameElsewhere_key _ _ loc); try done.
        intros k Hk. cbn. rewrite lookup_insert_ne by done.
        by rewrite Hf1.
  - cbn [files withFiles]. rewrite lookup_insert_eq. cbn -[tableOf].
    rewrite tableOf_newDatabase by done.
    apply (Hfail ErrPrepare).
    + unfold table. rewrite !Hread by done. cbn [files withFiles].
      rewrite lookup_insert_eq, Hfile. cbn -[tableOf].
      by rewrite tableOf_newDatabase.
    + apply (sameElsewhere_key _ _ loc); try done.
      intros k Hk. cbn. by rewrite lookup_insert_ne.
Qed.

(** *** The CSV store *)







(** *** The JSON store *)



Lemma durable_table s w sym :
  isDatabase s = true →
  durable s w sym
  = match ReadFile (dataPath s sym) w ≫= tableOf (driverOf s) with
    | Some (Some rows) => rows
    | _ => []
    end.
Proof.
  intros Hs. unfold durable. destruct (ReadFile _ w) as [f |]; [| done].
  by rewrite tableOf_recordsOf.
Qed.






(** X4.  Where [Init] has not done its work, [StoreCandles] stores
    nothing: without the table, or with a directory missing on the way
    to the file of the instrument, it returns count 0 with an error,
    and the store holds afterwards what it held.  The world is as it
    was, except that SQLite may have made its database file, without a
    table. *)
Theorem StoreCandles_without_Init
    (s : Store) (w : World) (sym : string) (candles : list HistoricalData) :
  uninitialised s w sym = true →
  ∃ e : Error,
    (StoreCandles s w sym candles).1 = (0, Some e) ∧
    durable s (worldOf (StoreCandles s w sym candles)) sym = durable s w sym ∧
    ((∀ db, s ≠ SQLiteStore db) → worldOf (StoreCandles s w sym candles) = w) ∧
    sameElsewhere (dataPath s sym) w (worldOf (StoreCandles s w sym candles)).
Proof.
  intros Hun. unfold worldOf.
  assert (Hsql : ∀ driver toRow db,
            driver ∈ drivers →
            match ReadFile db w ≫= tableOf driver with
            | Some (Some _) => false
            | _ => true
            end = true →
            ∃ e : Error,
              (sqlStoreCandles driver toRow db w sym candles).1 = (0, Some e) ∧
              (driver = "duckdb" →
               (sqlStoreCandles driver toRow db w sym candles).2 = w)).
  { intros driver toRow db Hdrv Hno. unfold sqlStoreCandles, connect.
    destruct (String.eqb driver "duckdb" && negb (Stat db w)) eqn:Hstat;
      [by exists ErrTransaction |].
    destruct (openDatabase driver db w) as [[key w0] |] eqn:Hopen;
      [| by exists ErrTransaction].
    destruct (openDatabase_cases _ _ _ _ _ Hopen)
      as (loc & Hres & Hdir & -> & [[-> [f Hfile]] | [Hfile ->]]).
    - unfold ReadFile in Hno. rewrite Hres, Hdir, Hfile in Hno.
      rewrite Hfile. cbn -[tableOf] in *.
      destruct (tableOf driver f) as [[rows |] |]; [done | |];
        by exists ErrPrepare.
    - cbn [files withFiles]. rewrite lookup_insert_eq. cbn -[tableOf].
      rewrite tableOf_newDatabase by done.
      exists ErrPrepare. split; [done |]. intros ->.
      unfold Stat in Hstat. rewrite Hres, Hdir, Hfile in Hstat.
      cbn in Hstat. done. }
  destruct s as [db | db | basePath | basePath];
    cbn [StoreCandles uninitialised dataPath driverOf] in *.
  - destruct (Hsql "duckdb" duckdbRow db) as (e & Hrun & Hw); [| done |].
    { unfold drivers. set_solver. }
    exists e. unfold DuckDBStore_StoreCandles. split; [exact Hrun |].
    rewrite (Hw eq_refl). split; [done |].
    split; [done | apply sameElsewhere_refl].
  - destruct (Hsql "sqlite3" sqliteRow db) as (e & Hrun & _); [| done |].
    { unfold drivers. set_solver. }
    destruct (sqlStoreCandles_accounting "sqlite3" sqliteRow db w sym candles)
      as (added & Hd & _ & _ & _ & Herr & Hsame).
    { unfold drivers. set_solver. }
    unfold SQLiteStore_StoreCandles.
    exists e. split; [exact Hrun |].
    destruct Herr as [-> _]; [by rewrite Hrun |].
    rewrite app_nil_r in Hd. rewrite !durable_table by done.
    split; [exact Hd |]. split; [| exact Hsame].
    intros Hne. by destruct (Hne db).
  - apply negb_true_iff in Hun. unfold reachable in Hun.
    apply bool_decide_eq_false in Hun.
    assert (resolve w (Join basePath (sym +:+ ".json")) = None) as Hres.
    { destruct (resolve w _) eqn:E; [| done]. exfalso. apply Hun. by eexists. }
    unfold JSONStore_StoreCandles, WriteFile. rewrite Hres.
    destruct (MarshalIndent _); eexists; cbn [fst snd];
      (split; [done |]); (split; [done |]); (split; [done |]);
      apply sameElsewhere_refl.
  - apply negb_true_iff in Hun. unfold reachable in Hun.
    apply bool_decide_eq_false in Hun.
    assert (resolve w (Join basePath (sym +:+ ".csv")) = None) as Hres.
    { destruct (resolve w _) eqn:E; [| done]. exfalso. apply Hun. by eexists. }
    unfold CSVStore_StoreCandles, OpenFileAppend. rewrite Hres.
    eexists; cbn [fst snd];
      (split; [done |]); (split; [done |]); (split; [done |]);
      apply sameElsewhere_refl.
Qed.

Lemma StoreCandles_without_Init_witness :
  ∃ e : Error,
    (StoreCandles (CSVStore "data") Samples.emptyDisk "NSE/SBIN"
       [Samples.candle1]).1 = (0, Some e) ∧
    worldOf (StoreCandles (CSVStore "data") Samples.emptyDisk "NSE/SBIN"
               [Samples.candle1]) = Samples.emptyDisk.
Proof.
  destruct (StoreCandles_without_Init (CSVStore "data") Samples.emptyDisk
              "NSE/SBIN" [Samples.candle1] eq_refl)
    as (e & Hrun & _ & Hworld & _).
  exists e. split; [exact Hrun |]. by apply Hworld.
Defined.

(** *** After [Init] *)

Lemma sqlStoreCandles_after_Init driver toRow db w w' x sym candles :
  driver ∈ drivers →
  createTableIfNotExists driver db w = Some w' →
  commitFails (faults w') = false →
  ∃ n w2,
    sqlStoreCandles driver toRow db (logLine x w') sym candles
    = ((n, None), w2) ∧
    0 ≤ n ≤ Z.of_nat (length candles).
Proof.
  intros Hdrv Hinit Hcommit.
  destruct (createTableIfNotExists_makes _ _ _ _ Hdrv Hinit)
    as (_ & _ & _ & _ & Hconn & Hro & rows & Hread).
  rewrite <- (ReadFile_logLine db x) in Hread.
  destruct (connect_ready driver db (logLine x w') rows Hconn Hread Hro)
    as (loc & Hres & Hdir & Hfile & Hc).
  pose proof (sqlStoreCandles_accounting driver toRow db (logLine x w') sym
                candles Hdrv) as (added & _ & _ & Hn & _).
  revert Hn.
  rewrite (sqlStoreCandles_ready _ _ _ _ _ _ rows loc) by done.
  destruct (foldl _ _ candles) as [[inserted tx] logged].
  destruct (foldl_logLine logged (logLine x w')) as (_ & _ & _ & Hx).
  cbn zeta. rewrite Hx. cbn [faults logLine]. rewrite Hcommit.
  destruct (aborted tx); cbn [fst snd]; intros Hn; eexists _, _;
    (split; [done | lia]).
Qed.

Lemma free_or_file path w loc :
  resolve w path = Some loc →
  negb (Stat path w) || bool_decide (is_Some (ReadFile path w)) = true →
  isDir w loc = false.
Proof.
  intros Hres. unfold Stat, ReadFile. rewrite Hres.
  destruct (isDir w loc); [| done]. cbn. done.
Qed.

(** After [Init], the file of an instrument with a plain name has its
    place in the directory of the store. *)
Lemma fileStore_after_Init basePath name w w' x :
  MkdirAll basePath w = (true, w') →
  Filepath.isPlain name = true →
  ∃ loc, resolve (logLine x w') (Join basePath name) = Some loc.
Proof.
  intros (loc & Hres & Hdir)%MkdirAll_makes Hplain.
  rewrite <- (resolve_dirs w' (logLine x w')) in Hres by done.
  rewrite <- (isDir_dirs w' (logLine x w')) in Hdir by done.
  destruct (resolve_Join_plain _ _ _ _ Hres Hdir Hplain) as [Hjoin _].
  by eexists.
Qed.

(** X5.  After an [Init] without error, a [StoreCandles] that nothing
    stands in the way of returns no error.  A file store, for an
    instrument whose file name is a plain name, then returns the size of
    the batch; a database store returns a count between 0 and the size
    of the batch. *)
Theorem StoreCandles_after_Init
    (s : Store) (w w1 : World) (sym : string)
    (candles : list HistoricalData) :
  Init s w = (None, w1) →
  healthy s w1 sym candles = true →
  ∃ n w2,
    StoreCandles s w1 sym candles = ((n, None), w2) ∧
    0 ≤ n ≤ Z.of_nat (length candles) ∧
    (isDatabase s = false → n = Z.of_nat (length candles)).
Proof.
  intros Hinit Hhealthy.
  destruct s as [db | db | basePath | basePath];
    cbn [Init StoreCandles healthy fileName dataPath isJSONStore isDatabase]
      in *.
  - unfold DuckDBStore_Init in Hinit.
    destruct (createTableIfNotExists "duckdb" db w) as [w' |] eqn:Hc;
      simplify_eq.
    apply negb_true_iff in Hhealthy.
    destruct (sqlStoreCandles_after_Init "duckdb" duckdbRow db w w'
                (TableReady "DuckDB") sym candles)
      as (n & w2 & Hrun & Hn); [unfold drivers; set_solver | done | done |].
    by exists n, w2.
  - unfold SQLiteStore_Init in Hinit.
    destruct (createTableIfNotExists "sqlite3" db w) as [w' |] eqn:Hc;
      simplify_eq.
    apply negb_true_iff in Hhealthy.
    destruct (sqlStoreCandles_after_Init "sqlite3" sqliteRow db w w'
                (TableReady "SQLite") sym candles)
      as (n & w2 & Hrun & Hn); [unfold drivers; set_solver | done | done |].
    by exists n, w2.
  - unfold JSONStore_Init in Hinit.
    destruct (MkdirAll basePath w) as [[|] w'] eqn:Hmk; simplify_eq.
    apply andb_true_iff in Hhealthy as [Hhealthy Hok].
    apply andb_true_iff in Hhealthy as [Hhealthy Hfree].
    apply andb_true_iff in Hhealthy as [Hhealthy Hdev].
    apply andb_true_iff in Hhealthy as [Hplain Hro].
    apply negb_true_iff in Hro, Hdev. cbn [negb orb] in Hok.
    destruct (fileStore_after_Init basePath (sym +:+ ".json") w w'
                (DirectoryReady "JSON" basePath) Hmk Hplain) as [loc Hres].
    pose proof (free_or_file _ _ _ Hres Hfree) as Hdir.
    unfold ReadFile in Hok. rewrite Hres, Hdir in Hok.
    rewrite (JSONStore_StoreCandles_ok basePath _ sym candles _ loc
               Hres Hdir eq_refl Hok Hro Hdev).
    eexists _, _. split; [done |]. split; [lia | done].
  - unfold CSVStore_Init in Hinit.
    destruct (MkdirAll basePath w) as [[|] w'] eqn:Hmk; simplify_eq.
    apply andb_true_iff in Hhealthy as [Hhealthy _].
    apply andb_true_iff in Hhealthy as [Hhealthy Hfree].
    apply andb_true_iff in Hhealthy as [Hhealthy Hdev].
    apply andb_true_iff in Hhealthy as [Hplain Hro].
    apply negb_true_iff in Hro, Hdev.
    destruct (fileStore_after_Init basePath (sym +:+ ".csv") w w'
                (DirectoryReady "CSV" basePath) Hmk Hplain) as [loc Hres].
    pose proof (free_or_file _ _ _ Hres Hfree) as Hdir.
    rewrite (CSVStore_StoreCandles_ok basePath _ sym candles loc
               Hres Hdir Hro Hdev).
    eexists _, _. split; [done |]. split; [lia | done].
Qed.

Lemma StoreCandles_after_Init_witness :
  ∃ n w2,
    StoreCandles (CSVStore "out/csv")
      (Init (CSVStore "out/csv") Samples.emptyDisk).2 "SBIN"
      [Samples.candle1; Samples.candleNaN]
    = ((n, None), w2) ∧
    n = 2.
Proof.
  destruct (StoreCandles_after_Init (CSVStore "out/csv") Samples.emptyDisk
              (Init (CSVStore "out/csv") Samples.emptyDisk).2 "SBIN"
              [Samples.candle1; Samples.candleNaN])
    as (n & w2 & Hrun & _ & Hn); [reflexivity | reflexivity |].
  exists n, w2. split; [exact Hrun |]. by apply Hn.
Defined.

(** X22.  [DuckDBStore.StoreCandles] and a row that the engine
    refuses: DuckDB gives the transaction up, every later insert of the
    batch fails and is logged, and the commit returns no error.  On a
    database that opens, holds the table and commits, a batch of which
    the engine refuses one row returns the number of candles before
    that row, with no error, and the table is left as it was: nothing
    of the batch is stored. *)
Theorem DuckDBStore_gives_up_batch (w : World) (db sym : string)
    (pre post : list HistoricalData) (bad : HistoricalData)
    (rows : list Row) :
  readOnly w = false →
  connectFails (faults w) db = false →
  ReadFile db w = Some (database "duckdb" rows) →
  commitFails (faults w) = false →
  accepted (faults w) rows (duckdbRow sym <$> pre) = true →
  refuses (faults w) (rows ++ (duckdbRow sym <$> pre)) (duckdbRow sym bad)
  = true →
  ∃ w',
    StoreCandles (DuckDBStore db) w sym (pre ++ bad :: post)
    = ((Z.of_nat (length pre), None), w') ∧
    durable (DuckDBStore db) w' sym = durable (DuckDBStore db) w sym ∧
    durable (DuckDBStore db) w sym = rows ∧
    log w' = log w ++ (InsertError <$> (bad :: post)).
Proof.
  intros Hro Hconn Hread Hcommit Hpre Hbad.
  destruct (connect_ready "duckdb" db w rows Hconn Hread (λ _, Hro))
    as (loc & Hres & Hdir & Hfile & Hc).
  cbn [StoreCandles]. unfold DuckDBStore_StoreCandles.
  rewrite (sqlStoreCandles_ready _ _ _ _ _ _ rows loc) by done.
  rewrite foldl_app, foldl_insertCandle_accepted by done.
  cbn [foldl]. rewrite insertCandle_refused by done.
  cbn [String.eqb Ascii.eqb Bool.eqb].
  rewrite foldl_insertCandle_aborted. cbn [aborted app Z.add].
  eexists. split; [done |].
  unfold durable. cbn [dataPath]. rewrite ReadFile_foldl_logLine, Hread.
  cbn [recordsOf driverOf]. rewrite tableOf_database.
  split; [done |]. split; [done |].
  by rewrite log_foldl_logLine.
Qed.

Lemma DuckDBStore_gives_up_batch_witness :
  ∃ w',
    StoreCandles (DuckDBStore "market.duckdb") Samples.oneRowDisk "SBIN"
      [Samples.candle2; Samples.candle1; Samples.candle3]
    = ((1, None), w') ∧
    durable (DuckDBStore "market.duckdb") w' "SBIN"
    = [duckdbRow "SBIN" Samples.candle1].
Proof.
  destruct (DuckDBStore_gives_up_batch Samples.oneRowDisk "market.duckdb"
              "SBIN" [Samples.candle2] [Samples.candle3] Samples.candle1
              [duckdbRow "SBIN" Samples.candle1])
    as (w' & Hrun & Hsame & Hrows & _); try reflexivity.
  exists w'. split; [exact Hrun |]. by rewrite Hsame, Hrows.
Defined.

End StoreInvariants.

(** ** The configuration and its validation *)

Section ConfigFacts.
Import GoTime Config ConfigSpec.

Lemma digit_range c : TimeParse.isDigit c = true → 0 <= TimeParse.digit c <= 9.
Proof.
  unfold TimeParse.isDigit, TimeParse.digit.
  rewrite andb_true_iff, !Z.leb_le. lia.
Qed.

Lemma daysIn_le month year : TimeParse.daysIn month year <= 31.
Proof.
  unfold TimeParse.daysIn.
  repeat match goal with |- context [if ?b then _ else _] => destruct b end;
    lia.
Qed.

(** A date that parses is a calendar date with a year of four digits. *)
Lemma Parse_Some value t :
  TimeParse.Parse value = Some t →
  ∃ year month day,
    0 <= year <= 9999 ∧ 1 <= month <= 12 ∧ 1 <= day <= 31 ∧
    t = ParseDate year month day.
Proof.
  unfold TimeParse.Parse.
  destruct (String.list_ascii_of_string value)
    as [| y1 [| y2 [| y3 [| y4 [| s1 [| m1 [| m2 [| s2 [| d1 [| d2 [| ? ?]]]]]]]]]]];
    try discriminate.
  destruct (TimeParse.isDigit y1) eqn:Hy1; [| discriminate].
  destruct (TimeParse.isDigit y2) eqn:Hy2; [| discriminate].
  destruct (TimeParse.isDigit y3) eqn:Hy3; [| discriminate].
  destruct (TimeParse.isDigit y4) eqn:Hy4; [| discriminate].
  destruct (Strings.code s1 =? 45); [| discriminate].
  destruct (TimeParse.isDigit m1) eqn:Hm1; [| discriminate].
  destruct (TimeParse.isDigit m2) eqn:Hm2; [| discriminate].
  destruct (Strings.code s2 =? 45); [| discriminate].
  destruct (TimeParse.isDigit d1) eqn:Hd1; [| discriminate].
  destruct (TimeParse.isDigit d2) eqn:Hd2; [| discriminate].
  cbn [andb].
  apply digit_range in Hy1, Hy2, Hy3, Hy4, Hm1, Hm2, Hd1, Hd2.
  set (year := 1000 * _ + _ + _ + _).
  set (month := 10 * _ + _).
  set (day := 10 * TimeParse.digit d1 + _).
  destruct (_ || _) eqn:Hmonth; [discriminate |].
  destruct ((day <? 1) || _) eqn:Hday; [discriminate |].
  intros [= <-].
  apply orb_false_iff in Hmonth as [Hm0 Hm12], Hday as [Hd0 Hd31].
  apply Z.leb_gt in Hm0. apply Z.ltb_ge in Hm12, Hd0, Hd31.
  pose proof (daysIn_le month year).
  exists year, month, day. subst year month day. repeat split; lia.
Qed.

Lemma daysFromCivil_range year month day :
  0 <= year <= 9999 → 1 <= month <= 12 → 1 <= day <= 31 →
  -719528 <= daysFromCivil year month day <= 2932896.
Proof.
  intros Hy Hm Hd. unfold daysFromCivil.
  destruct (month <=? 2) eqn:Hle;
    [apply Z.leb_le in Hle | apply Z.leb_gt in Hle];
    Z.div_mod_to_equations; lia.
Qed.

(** What [time.Parse] returns for the layout 2006-01-02 is a midnight
    between the years 0 and 9999. *)
Lemma Parse_midnight value t :
  TimeParse.Parse value = Some t →
  t `mod` Kite.Day = 0 ∧ -719528 * Kite.Day <= t <= 2932896 * Kite.Day.
Proof.
  intros (year & month & day & Hy & Hm & Hd & ->)%Parse_Some.
  pose proof (daysFromCivil_range year month day Hy Hm Hd) as Hr.
  unfold ParseDate. change (24 * Hour) with Kite.Day.
  split; [apply Z.mod_mul; discriminate |].
  assert (0 < Kite.Day) by reflexivity. nia.
Qed.

Lemma HasErrors_false r : HasErrors r = false ↔ r = [].
Proof.
  unfold HasErrors. rewrite Z.ltb_ge.
  destruct r; cbn [length]; split; intros; try done; lia.
Qed.

Lemma addErrorIf_nil cond field value message r :
  addErrorIf cond field value message r = [] ↔ cond = false ∧ r = [].
Proof.
  unfold addErrorIf, AddError. destruct cond.
  - split; [| intros [? _]; done].
    intros H. by apply app_nil in H as [_ ?].
  - split; [done | by intros [_ ?]].
Qed.

Lemma checkInstrument_nil r instrument :
  checkInstrument r instrument = [] ↔
  r = [] ∧ Strings.TrimSpace instrument ≠ ""
  ∧ (String.length instrument ≤ 20)%nat.
Proof.
  unfold checkInstrument. rewrite !addErrorIf_nil.
  rewrite String.eqb_neq, Z.ltb_ge. split.
  - intros (H1 & H2 & H3). repeat split; try done. lia.
  - intros (H1 & H2 & H3). repeat split; try done. lia.
Qed.

Lemma checkInstrument_grows r instrument :
  ∃ more, checkInstrument r instrument = r ++ more.
Proof.
  unfold checkInstrument, addErrorIf, AddError.
  repeat match goal with |- context [if ?b then _ else _] => destruct b end;
    rewrite <- ?app_assoc; eauto. exists []. by rewrite app_nil_r.
Qed.

Lemma foldl_checkInstrument_nil instruments : ∀ r,
  foldl checkInstrument r instruments = [] ↔
  r = [] ∧ Forall (λ instrument,
                     Strings.TrimSpace instrument ≠ ""
                     ∧ (String.length instrument ≤ 20)%nat) instruments.
Proof.
  induction instruments as [| i l IH]; intros r; cbn [foldl].
  - split; [intros ->; by split | by intros [? _]].
  - rewrite IH, checkInstrument_nil, Forall_cons. tauto.
Qed.

Lemma oneOf_elem_of x valid : oneOf x valid = true ↔ x ∈ valid.
Proof.
  unfold oneOf. rewrite existsb_exists. split.
  - intros (y & Hy & ->%String.eqb_eq). by apply list_elem_of_In.
  - intros Hx. exists x. split; [by apply list_elem_of_In | apply String.eqb_refl].
Qed.

Lemma ValidateBasic_nil (c : Config) :
  ValidateBasic c = [] ↔ wellFormed c.
Proof.
  unfold ValidateBasic, wellFormed.
  rewrite foldl_checkInstrument_nil, !addErrorIf_nil.
  rewrite !andb_false_iff, !negb_false_iff, !String.eqb_eq, !String.eqb_neq.
  rewrite !oneOf_elem_of, Z.eqb_neq.
  split.
  - intros ((Hst & Hiv & Hrange & Hto & Hfrom & Hi & Ht & Hf & Hn & Hs & Hk & _)
            & Hall).
    destruct Hfrom as [Hfrom | Hfrom]; [done |].
    destruct Hto as [Hto | Hto]; [done |].
    apply bool_decide_eq_true in Hfrom as [from Hfrom], Hto as [to Hto].
    rewrite Hfrom, Hto in Hrange.
    split; [done |]. split; [done |].
    split; [intros Hnil; by rewrite Hnil in Hn |].
    split; [done |].
    split; [| split; [by destruct Hiv | done]].
    exists from, to. split; [done |]. split; [done |].
    destruct Hrange as [[? | ?] | Hrange]; try done.
    apply negb_false_iff in Hrange. by apply Z.ltb_lt in Hrange.
  - intros (Hk & Hs & Hn & Hall & (from & to & Hfrom & Hto & Hlt) & Hiv & Hst).
    assert (FromDate c ≠ "") as Hf by (intros E; by rewrite E in Hfrom).
    assert (ToDate c ≠ "") as Ht by (intros E; by rewrite E in Hto).
    assert (Interval c ≠ "") as Hi.
    { intros E. rewrite E in Hiv. by apply oneOf_elem_of in Hiv. }
    rewrite Hfrom, Hto.
    split; [| done].
    split; [done |]. split; [by right |].
    split; [right; apply negb_false_iff; by apply Z.ltb_lt |].
    split; [right; apply bool_decide_eq_true; by eexists |].
    split; [right; apply bool_decide_eq_true; by eexists |].
    split; [done |]. split; [done |]. split; [done |].
    split; [| done].
    destruct (Instruments c); [done | cbn [length]; lia].
Qed.

(** X6.  Basic validation reports no error exactly for the
    configurations that state both keys, at least one instrument, none
    of them blank or longer than twenty bytes, two calendar dates of
    which the first is before the second, an interval of the
    validator's list and, if any, a storage type of the validator's
    list. *)
Theorem ValidateBasic_passes_iff (c : Config) :
  HasErrors (ValidateBasic c) = false ↔ wellFormed c.
Proof.
  unfold HasErrors. rewrite Z.ltb_ge, <- ValidateBasic_nil.
  destruct (ValidateBasic c) as [| e r]; cbn [length]; split; intros H;
    try done; lia.
Qed.

Lemma ValidateBasic_wellFormed (c : Config) :
  HasErrors (ValidateBasic c) = false ↔ wellFormed c.
Proof. rewrite HasErrors_false. apply ValidateBasic_nil. Qed.

Lemma validIntervals_recognized interval :
  interval ∈ validIntervals ↔
  interval ∈ Kite.recognizedIntervals ∧ interval ≠ "hour".
Proof.
  unfold validIntervals, Kite.recognizedIntervals.
  rewrite !elem_of_cons, !elem_of_nil. split.
  - intros H. repeat destruct H as [-> | H]; try done;
      (split; [tauto | discriminate]).
  - intros [H Hh]. repeat destruct H as [-> | H]; try done; tauto.
Qed.

(** X7.  A configuration that passes basic validation gives the chunker
    what it needs: the two dates parse, as the commands take for granted
    when they drop the error of [time.Parse]; the interval is one that
    [parseIntervalMinutes] knows, so its default of one minute is never
    taken; and the chunks made from the parsed dates cover the range
    exactly: the first starts at the first date, each next one a second
    after the end of the one before, and the last ends at the second
    date. *)
Theorem validated_config_chunks (c : Config) :
  HasErrors (ValidateBasic c) = false →
  let from := TimeParse.parseOrZero (FromDate c) in
  let to := TimeParse.parseOrZero (ToDate c) in
  TimeParse.Parse (FromDate c) = Some from ∧
  TimeParse.Parse (ToDate c) = Some to ∧
  is_Some (Kite.intervalMap !! Interval c) ∧
  Kite.exactCover (Kite.chunkSizeOf (Interval c)) to from
    (Kite.GenerateDateChunks from to (Interval c)) = true.
Proof.
  intros (_ & _ & _ & _ & (from & to & Hfrom & Hto & Hlt) & Hiv & _)
           %ValidateBasic_wellFormed.
  unfold TimeParse.parseOrZero. rewrite Hfrom, Hto. cbn [default].
  split; [done |]. split; [done |]. split.
  - unfold validIntervals in Hiv.
    rewrite !elem_of_cons, elem_of_nil in Hiv.
    repeat destruct Hiv as [-> | Hiv]; try done; by eexists.
  - destruct (Parse_midnight _ _ Hfrom) as [Hf0 Hfr].
    destruct (Parse_midnight _ _ Hto) as [Ht0 Htr].
    apply GenerateDateChunks_calendar_dates; try done.
    assert (Hday : Kite.Day = 86400000000000) by reflexivity.
    assert (Hhour : Hour = 3600000000000) by reflexivity.
    assert (HS := Second_pos).
    unfold id.
    destruct (chunkSizeOf_cases (Interval c)) as [-> | ->];
      unfold Kite.DailyChunkDays, Kite.IntradayMaxDays; lia.
Qed.

Lemma validated_config_chunks_witness :
  let c := mkConfig "key" "secret" "" ["SBIN"] "2024-01-01" "2024-04-01"
             "15minute" "csv" "" "" "" in
  Kite.exactCover (Kite.chunkSizeOf (Interval c))
    (TimeParse.parseOrZero (ToDate c)) (TimeParse.parseOrZero (FromDate c))
    (Kite.GenerateDateChunks (TimeParse.parseOrZero (FromDate c))
       (TimeParse.parseOrZero (ToDate c)) (Interval c)) = true.
Proof.
  intros c. apply (validated_config_chunks c). vm_compute. reflexivity.
Defined.

(** X8.  The report of the [validate] command and basic validation
    agree: every line of the report shows a valid field, and no
    instrument is blank or longer than twenty bytes, exactly when basic
    validation finds no error.  The report does not look at the
    instruments one by one. *)
Theorem showFieldValidationReport_agrees (c : Config) :
  Forall (λ line, line.2 = true) (Validate.showFieldValidationReport c)
  ∧ Forall (λ instrument,
              Strings.TrimSpace instrument ≠ ""
              ∧ (String.length instrument ≤ 20)%nat) (Instruments c)
  ↔ HasErrors (ValidateBasic c) = false.
Proof.
  rewrite ValidateBasic_wellFormed.
  unfold Validate.showFieldValidationReport, wellFormed,
    Validate.isValidDate, Validate.isValidInterval,
    Validate.isValidStorageType, TimeParse.parseOrZero, Before.
  fold validIntervals. fold validStorageTypes.
  assert (Hnone : bool_decide (is_Some (@None Time)) = false).
  { apply bool_decide_eq_false. by intros [? ?]. }
  assert (Hsome : ∀ t : Time, bool_decide (is_Some (Some t)) = true).
  { intros t. apply bool_decide_eq_true. by eexists. }
  destruct (TimeParse.Parse (FromDate c)) as [from |] eqn:Hfrom;
    destruct (TimeParse.Parse (ToDate c)) as [to |] eqn:Hto;
    rewrite ?Hnone, ?Hsome; cbn [default andb orb]; unfold id;
    rewrite Forall_app, !Forall_cons, ?Forall_nil; cbn [snd].
  - assert (FromDate c ≠ "") as Hf by (intros E; by rewrite E in Hfrom).
    assert (ToDate c ≠ "") as Ht by (intros E; by rewrite E in Hto).
    rewrite !negb_true_iff, !String.eqb_neq, !orb_true_iff, !String.eqb_eq,
      !Z.ltb_lt, oneOf_elem_of.
    split.
    + intros [[(Hk & Hs & Hn & Hfd & Htd & Hiv & Hst & _) [Hdr _]] Hall].
      split; [done |]. split; [done |].
      split; [intros E; rewrite E in Hn; cbn [length] in Hn; lia |].
      split; [done |].
      split; [by exists from, to |].
      split; [done |].
      destruct (String.eqb (StorageType c) "") eqn:E;
        [left; by apply String.eqb_eq | right; by apply oneOf_elem_of].
    + intros (Hk & Hs & Hn & Hall & (from' & to' & [= <-] & [= <-] & Hlt)
              & Hiv & Hst).
      split; [| done]. split; [| by split].
      split; [done |]. split; [done |].
      split; [destruct (Instruments c); [done | cbn [length]; lia] |].
      split; [by left |]. split; [by left |].
      split; [done |].
      split; [| done].
      destruct Hst as [-> | Hst]; [done |].
      destruct (String.eqb (StorageType c) ""); [done |].
      by apply oneOf_elem_of.
  - split.
    + intros [[(_ & _ & _ & _ & Hx & _) _] _]. done.
    + intros (_ & _ & _ & _ & (? & ? & _ & ? & _) & _). done.
  - split.
    + intros [[(_ & _ & _ & Hx & _) _] _]. done.
    + intros (_ & _ & _ & _ & (? & ? & ? & _) & _). done.
  - split.
    + intros [[(_ & _ & _ & Hx & _) _] _]. done.
    + intros (_ & _ & _ & _ & (? & ? & ? & _) & _). done.
Qed.

End ConfigFacts.

(** ** The storage a command works on *)

Section StorageSelection.
Import GoTime Config ConfigSpec.

Lemma defaultPath_not_empty storageType :
  Validate.defaultPath storageType ≠ "".
Proof.
  unfold Validate.defaultPath.
  repeat match goal with |- context [if ?b then _ else _] => destruct b end;
    discriminate.
Qed.

(** X9.  The three places that work out the storage of a configuration
    agree on the path ([ValidateStorage] has no default path and checks
    nothing without one).  They agree on the type as well, but for one
    case: with the deprecated [duckdb_path] and no [storage_path], the
    [fetch] command uses DuckDB whatever the storage type says, while
    [ValidateStorage] and the storage test of [validate] keep the type
    of the configuration. *)
Theorem selectedStorage_agreement (c : Config) :
  (Fetch.selectedStorage c).2 = (Validate.testedStorage c).2 ∧
  (validatedStorage c).1 = (Validate.testedStorage c).1 ∧
  ((validatedStorage c).2 = (Validate.testedStorage c).2
   ∨ (validatedStorage c).2 = "") ∧
  ((Fetch.selectedStorage c).1 = (Validate.testedStorage c).1 ↔
   ¬ (StoragePath c = "" ∧ DuckDBPath c ≠ ""
      ∧ StorageType c ≠ "" ∧ StorageType c ≠ "duckdb")).
Proof.
  unfold Fetch.selectedStorage, Validate.testedStorage, validatedStorage,
    Storage.StorageTypeDuckDB.
  destruct (String.eqb (StoragePath c) "") eqn:Hp;
    destruct (String.eqb (DuckDBPath c) "") eqn:Hd;
    destruct (String.eqb (StorageType c) "") eqn:Ht;
    cbn [andb negb fst snd]; rewrite ?Hp, ?Hd, ?Ht;
    cbn [andb negb fst snd String.eqb Ascii.eqb Bool.eqb];
    rewrite ?Hp, ?Hd, ?Ht; cbn [fst snd];
    repeat match goal with
           | H : String.eqb _ _ = true |- _ => apply String.eqb_eq in H
           | H : String.eqb _ _ = false |- _ => apply String.eqb_neq in H
           end;
    (split; [done |]); (split; [done |]); (split; [by auto |]).
  all: try (split; [intros _; tauto | done]).
  split.
  - intros E (_ & _ & _ & Hne). by rewrite E in Hne.
  - intros Hn. destruct (decide (StorageType c = "duckdb")) as [E | E];
      [done | exfalso; apply Hn; done].
Qed.

Lemma selectedStorage_path_not_empty (c : Config) :
  (Fetch.selectedStorage c).2 ≠ "".
Proof.
  unfold Fetch.selectedStorage.
  destruct (String.eqb (StoragePath c) "" && _) eqn:Hlegacy; cbn [fst snd].
  - apply andb_true_iff in Hlegacy as [_ Hd].
    apply negb_true_iff in Hd. rewrite Hd.
    by apply String.eqb_neq.
  - destruct (String.eqb (StoragePath c) "") eqn:Hp;
      [apply defaultPath_not_empty | by apply String.eqb_neq].
Qed.

Lemma selectedStorage_type (c : Config) :
  StorageType c = "" ∨ StorageType c ∈ validStorageTypes →
  (Fetch.selectedStorage c).1 ∈ Storage.recognizedStorageTypes.
Proof.
  intros Hst. unfold Fetch.selectedStorage.
  destruct (String.eqb (StoragePath c) "" && _); cbn [fst snd].
  - cbn. apply list_elem_of_here.
  - destruct (String.eqb (StorageType c) "") eqn:Ht.
    + apply list_elem_of_here.
    + apply String.eqb_neq in Ht. destruct Hst as [? | Hst]; done.
Qed.

Lemma NewStore_recognized storageType path w :
  storageType ∈ Storage.recognizedStorageTypes →
  (∃ store w', Storage.NewStore storageType path w = (inr store, w')
               ∧ Fetch.kindOf store = storageType
               ∧ Fetch.pathOf store = path
               ∧ (storageType ≠ "duckdb" → w' = w))
  ∨ (storageType = "duckdb"
     ∧ Storage.NewStore storageType path w
       = (inl (Storage.ErrConnection "duckdb"), w)).
Proof.
  unfold Storage.recognizedStorageTypes.
  rewrite !elem_of_cons, elem_of_nil.
  intros [-> | [-> | [-> | [-> | []]]]].
  - cbn. unfold Storage.NewDuckDBStore.
    destruct (Storage.sqlOpen "duckdb" path w) as [w' |].
    + left. by exists (Storage.DuckDBStore path), w'.
    + by right.
  - left. by exists (Storage.SQLiteStore path), w.
  - left. by exists (Storage.JSONStore path), w.
  - left. by exists (Storage.CSVStore path), w.
Qed.

(** X10.  For a configuration that passes basic validation, the type
    that the [fetch] command selects is one of the four recognized
    ones, so the branch of [NewStore] that takes an unknown type for
    DuckDB is never the one taken, and the selected path is not empty.
    [NewStore] then returns a store of the selected kind for the
    selected path, leaving the disk alone unless the kind is DuckDB; or,
    for DuckDB only, the connection error, when the database at the
    path does not open. *)
Theorem validated_config_store (c : Config) (w : Storage.World) :
  HasErrors (ValidateBasic c) = false →
  (Fetch.selectedStorage c).1 ∈ Storage.recognizedStorageTypes ∧
  (Fetch.selectedStorage c).2 ≠ "" ∧
  ((∃ store w',
      Storage.NewStore (Fetch.selectedStorage c).1
        (Fetch.selectedStorage c).2 w = (inr store, w') ∧
      Fetch.kindOf store = (Fetch.selectedStorage c).1 ∧
      Fetch.pathOf store = (Fetch.selectedStorage c).2 ∧
      ((Fetch.selectedStorage c).1 ≠ "duckdb" → w' = w))
   ∨ ((Fetch.selectedStorage c).1 = "duckdb" ∧
      Storage.NewStore (Fetch.selectedStorage c).1
        (Fetch.selectedStorage c).2 w
      = (inl (Storage.ErrConnection "duckdb"), w))).
Proof.
  intros (_ & _ & _ & _ & _ & _ & Hst)%ValidateBasic_wellFormed.
  split; [by apply selectedStorage_type |].
  split; [apply selectedStorage_path_not_empty |].
  apply NewStore_recognized. by apply selectedStorage_type.
Qed.

Lemma validated_config_store_witness :
  let c := mkConfig "key" "secret" "" ["SBIN"] "2024-01-01" "2024-04-01"
             "15minute" "csv" "" "" "data" in
  Fetch.selectedStorage c = ("duckdb", "data") ∧
  Storage.NewStore "duckdb" "data" Samples.emptyDisk
  = (inl (Storage.ErrConnection "duckdb"), Samples.emptyDisk).
Proof.
  intros c. split; [reflexivity |].
  destruct (validated_config_store c Samples.emptyDisk)
    as (_ & _ & [(store & w' & Hnew & _) | [_ Hnew]]).
  - vm_compute. reflexivity.
  - exfalso. revert Hnew. vm_compute. discriminate.
  - exact Hnew.
Defined.

Lemma onlyDirectories_refl w : onlyDirectories w w.
Proof. by repeat split. Qed.

Lemma onlyDirectories_trans w1 w2 w3 :
  onlyDirectories w1 w2 → onlyDirectories w2 w3 → onlyDirectories w1 w3.
Proof.
  intros (Hf1 & Hl1 & Hr1 & Hx1 & Hd1 & Hro1)
         (Hf2 & Hl2 & Hr2 & Hx2 & Hd2 & Hro2).
  repeat split; try congruence.
  - etrans; done.
  - intros Hro. rewrite Hro2, Hro1; congruence.
Qed.

Lemma MkdirAll_onlyDirectories path w :
  onlyDirectories w (Storage.MkdirAll path w).2.
Proof. apply MkdirAll_frame. Qed.

Lemma mkdirOrError_cases dir field value message st :
  let st' := mkdirOrError dir field value message st in
  onlyDirectories st.2 st'.2 ∧
  (st'.1 = st.1 ∧ Storage.MkdirAll dir st.2 = (true, st'.2)
   ∨ st'.1 = st.1 ++ [mkValidationError field value message]).
Proof.
  unfold mkdirOrError.
  pose proof (MkdirAll_onlyDirectories dir st.2) as Honly.
  destruct (Storage.MkdirAll dir st.2) as [[|] w']; cbn [fst snd] in *.
  - split; [done | by left].
  - split; [done | by right].
Qed.

(** What every step of [ValidateStorage] keeps. *)
Lemma ValidateStorage_steps (c : Config) (w : Storage.World)
    (P : ValidationResult * Storage.World → Prop) :
  P ([], w) →
  (∀ dir field value message st,
     field = "storage_path" ∨ field = "log_file" →
     P st → P (mkdirOrError dir field value message st)) →
  (∀ value message st,
     P st → P (AddError st.1 "storage_path" value message, st.2)) →
  P (ValidateStorage c w).
Proof.
  intros Hinit Hmkdir Hadd. unfold ValidateStorage.
  destruct (validatedStorage c) as [storageType storagePath].
  repeat match goal with
         | |- context [if ?b then _ else _] => destruct b
         end;
    repeat first [ apply Hmkdir; [by auto |] | apply Hadd ]; apply Hinit.
Qed.

Lemma ValidateStorage_disk (c : Config) (w : Storage.World) :
  onlyDirectories w (ValidateStorage c w).2.
Proof.
  apply (ValidateStorage_steps c w (λ st, onlyDirectories w st.2)).
  - apply onlyDirectories_refl.
  - intros dir field value message st _ Honly.
    destruct (mkdirOrError_cases dir field value message st) as [Hstep _].
    by eapply onlyDirectories_trans.
  - intros value message st Honly. done.
Qed.

(** X11.  [ValidateStorage] makes directories and does nothing else to
    the disk: no file is made, changed or removed, no
    directory is removed, and a disk that cannot be written is left as
    it is.  Every error it reports is on the storage path or on the log
    file. *)
Theorem ValidateStorage_only_makes_directories (c : Config)
    (w : Storage.World) :
  onlyDirectories w (ValidateStorage c w).2 ∧
  Forall (λ e, Field e = "storage_path" ∨ Field e = "log_file")
    (ValidateStorage c w).1.
Proof.
  apply (ValidateStorage_steps c w
           (λ st, onlyDirectories w st.2
                  ∧ Forall (λ e, Field e = "storage_path"
                                 ∨ Field e = "log_file") st.1)).
  - split; [apply onlyDirectories_refl | constructor].
  - intros dir field value message st Hfield [Honly Hall].
    destruct (mkdirOrError_cases dir field value message st)
      as [Hstep [[-> _] | ->]].
    + split; [by eapply onlyDirectories_trans | done].
    + split; [by eapply onlyDirectories_trans |].
      apply Forall_app. split; [done |].
      apply Forall_cons. split; [done | constructor].
  - intros value message st [Honly Hall]. cbn [fst snd].
    split; [done |]. unfold AddError. apply Forall_app. split; [done |].
    apply Forall_cons. split; [by left | constructor].
Qed.

(** X12.  [ValidateComplete] passes exactly when the configuration is
    well formed and [ValidateStorage] reports no error.  When basic
    validation fails, the storage is not looked at: the errors are
    those of basic validation and the disk is untouched.  In every case
    the disk is left with its files as they were. *)
Theorem ValidateComplete_passes_iff (c : Config) (w : Storage.World) :
  (HasErrors (ValidateComplete c w).1 = false ↔
   wellFormed c ∧ HasErrors (ValidateStorage c w).1 = false) ∧
  (HasErrors (ValidateBasic c) = true →
   ValidateComplete c w = (ValidateBasic c, w)) ∧
  onlyDirectories w (ValidateComplete c w).2.
Proof.
  unfold ValidateComplete. rewrite <- ValidateBasic_wellFormed.
  pose proof (ValidateStorage_disk c w) as Honly.
  destruct (ValidateStorage c w) as [storageResult w'].
  cbn [fst snd app] in *.
  destruct (HasErrors (ValidateBasic c)) eqn:Hbasic; cbn [negb fst snd].
  - rewrite Hbasic. split; [split; [done | by intros [? _]] |].
    split; [done | apply onlyDirectories_refl].
  - apply HasErrors_false in Hbasic. rewrite Hbasic. cbn [app].
    split; [tauto |]. split; [done | done].
Qed.

Lemma validatedStorage_tested (c : Config) :
  (validatedStorage c).2 ≠ "" →
  Validate.testedStorage c = validatedStorage c.
Proof.
  unfold Validate.testedStorage, validatedStorage,
    Storage.StorageTypeDuckDB.
  destruct (String.eqb (StoragePath c) "") eqn:Hp;
    destruct (String.eqb (DuckDBPath c) "") eqn:Hd;
    destruct (String.eqb (StorageType c) "") eqn:Ht;
    cbn [andb negb fst snd]; rewrite ?Hp, ?Hd, ?Ht;
    cbn [andb negb fst snd String.eqb Ascii.eqb Bool.eqb];
    rewrite ?Hp, ?Hd, ?Ht; cbn [fst snd];
    repeat match goal with
           | H : String.eqb _ _ = true |- _ => apply String.eqb_eq in H
           | H : String.eqb _ _ = false |- _ => apply String.eqb_neq in H
           end;
    try done; intros Hne; by destruct Hne.
Qed.

Lemma errorsOn_app field r1 r2 :
  errorsOn field (r1 ++ r2) = errorsOn field r1 ++ errorsOn field r2.
Proof. apply filter_app. Qed.

(** After [ValidateStorage] without an error on the storage path, the
    path of a file store names a directory. *)
Lemma ValidateStorage_directory (c : Config) (w : Storage.World) :
  (validatedStorage c).1 = "json" ∨ (validatedStorage c).1 = "csv" →
  (validatedStorage c).2 ≠ "" →
  errorsOn "storage_path" (ValidateStorage c w).1 = [] →
  ∃ loc,
    Storage.resolve (ValidateStorage c w).2 (validatedStorage c).2 = Some loc
    ∧ Storage.isDir (ValidateStorage c w).2 loc = true.
Proof.
  unfold ValidateStorage.
  destruct (validatedStorage c) as [storageType storagePath]. cbn [fst snd].
  intros Hty Hpath.
  apply String.eqb_neq in Hpath. rewrite Hpath. cbn [negb].
  assert (String.eqb storageType "duckdb" || String.eqb storageType "sqlite"
          = false) as ->.
  { by destruct Hty as [-> | ->]. }
  assert (String.eqb storageType "json" || String.eqb storageType "csv"
          = true) as ->.
  { by destruct Hty as [-> | ->]. }
  destruct (mkdirOrError_cases storagePath "storage_path" storagePath
              "cannot create directory: " ([], w))
    as [Honly1 Hcase].
  set (st1 := mkdirOrError _ _ _ _ _) in *.
  assert (Hlater : ∀ st2 : ValidationResult * Storage.World,
            (∃ more, st2.1 = st1.1 ++ more) →
            Storage.dirs st1.2 ⊆ Storage.dirs st2.2 →
            errorsOn "storage_path" st2.1 = [] →
            ∃ loc, Storage.resolve st2.2 storagePath = Some loc
                   ∧ Storage.isDir st2.2 loc = true).
  { intros st2 [more Hmore] Hsub Hnone.
    destruct Hcase as [[_ Hmk] | Herr].
    - apply MkdirAll_makes in Hmk as (loc & Hres & Hdir). exists loc.
      split; [by eapply resolve_mono | by eapply isDir_mono].
    - rewrite Hmore, Herr, !errorsOn_app in Hnone.
      apply app_nil in Hnone as [Hnone _].
      by apply app_nil in Hnone as [_ Hnone]. }
  destruct (negb (String.eqb (LogFile c) ""));
    [| apply Hlater; [exists []; by rewrite app_nil_r | done]].
  destruct (negb (String.eqb (Filepath.Dir (LogFile c)) "."));
    [| apply Hlater; [exists []; by rewrite app_nil_r | done]].
  destruct (mkdirOrError_cases (Filepath.Dir (LogFile c)) "log_file"
              (LogFile c) "cannot create log directory: " st1)
    as [(_ & _ & _ & _ & Hsub & _) Hcase2].
  apply Hlater; [| done].
  destruct Hcase2 as [[-> _] | ->];
    [exists []; by rewrite app_nil_r | by eexists].
Qed.

(** X13.  For a file store with a path, [ValidateStorage] makes the
    storage test of the [validate] command pass: if it reports no error
    on the storage path of a JSON or CSV store, then [testStorage] on
    the disk it leaves returns no error and changes nothing. *)
Theorem ValidateStorage_then_testStorage (c : Config) (w : Storage.World) :
  (validatedStorage c).1 = "json" ∨ (validatedStorage c).1 = "csv" →
  (validatedStorage c).2 ≠ "" →
  errorsOn "storage_path" (ValidateStorage c w).1 = [] →
  Validate.testStorage c (ValidateStorage c w).2
  = (None, (ValidateStorage c w).2).
Proof.
  intros Hty Hpath Hnone.
  destruct (ValidateStorage_directory c w Hty Hpath Hnone)
    as (loc & Hres & Hdir).
  unfold Validate.testStorage.
  rewrite (validatedStorage_tested c Hpath).
  destruct (validatedStorage c) as [storageType storagePath].
  cbn [fst snd] in *.
  destruct (ValidateStorage c w) as [r w']. cbn [fst snd] in *.
  pose proof (MkdirAll_ready _ _ _ Hres Hdir) as Hmk.
  destruct Hty as [-> | ->];
    cbn [Storage.NewStore Storage.StorageTypeDuckDB Storage.StorageTypeSQLite
         Storage.StorageTypeJSON Storage.StorageTypeCSV String.eqb Ascii.eqb
         Bool.eqb Storage.NewJSONStore Storage.NewCSVStore Storage.Init];
    unfold Storage.JSONStore_Init, Storage.CSVStore_Init, Storage.Close;
    rewrite Hmk; by destruct w'.
Qed.

Lemma ValidateStorage_then_testStorage_witness :
  let c := mkConfig "key" "secret" "" ["SBIN"] "2024-01-01" "2024-04-01"
             "15minute" "csv" "data/csv" "" "" in
  Validate.testStorage c (ValidateStorage c Samples.emptyDisk).2
  = (None, (ValidateStorage c Samples.emptyDisk).2).
Proof.
  intros c. apply (ValidateStorage_then_testStorage c Samples.emptyDisk).
  - right. reflexivity.
  - discriminate.
  - vm_compute. reflexivity.
Defined.

End StorageSelection.

(** ** The plan of a run and the run *)

Section PlanFacts.
Import GoTime Kiteconnect Cli Fetch.

Lemma foldl_tokenMap (instruments : list Instrument) (symbol : string) :
  ∀ m : gmap string Z,
  foldl (λ m instr, <[Tradingsymbol instr := InstrumentToken instr]> m)
    m instruments !! symbol
  = match last (filter (λ instr, Tradingsymbol instr = symbol) instruments)
    with
    | Some instr => Some (InstrumentToken instr)
    | None => m !! symbol
    end.
Proof.
  induction instruments as [| i l IH]; intros m; [done |].
  cbn [foldl]. rewrite IH.
  destruct (decide (Tradingsymbol i = symbol)) as [E | E].
  - rewrite filter_cons_True by done.
    rewrite last_cons.
    destruct (last (filter _ l)); [done |].
    rewrite <- E. apply lookup_insert_eq.
  - rewrite filter_cons_False by done.
    destruct (last (filter _ l)); [done |].
    by apply lookup_insert_ne.
Qed.

(** X14.  The token map gives, for a trading symbol, the token of the
    last instrument of the list that carries it, and nothing for a
    symbol that no instrument carries. *)
Theorem tokenMapOf_last_wins (instruments : list Instrument)
    (symbol : string) :
  tokenMapOf instruments !! symbol
  = InstrumentToken
      <$> last (filter (λ instr, Tradingsymbol instr = symbol) instruments).
Proof.
  unfold tokenMapOf. rewrite foldl_tokenMap.
  destruct (last _); [done | apply lookup_empty].
Qed.

Variables (conf : Config) (store : Storage.Store).
Variables (tokenMap : gmap string Z) (from to : Time).

Lemma plannedFor_length symbol :
  length (plannedFor conf tokenMap from to symbol)
  = match tokenMap !! symbol with
    | Some _ => length (Kite.GenerateDateChunks from to (Interval conf))
    | None => 0%nat
    end.
Proof.
  unfold plannedFor. destruct (tokenMap !! symbol); [| done].
  by rewrite length_fmap.
Qed.

Lemma planned_length (instruments : list string) :
  length (flat_map (plannedFor conf tokenMap from to) instruments)
  = (length (known tokenMap instruments)
     * length (Kite.GenerateDateChunks from to (Interval conf)))%nat.
Proof.
  unfold known. induction instruments as [| i l IH]; [done |].
  cbn [flat_map]. rewrite length_app, IH, plannedFor_length.
  destruct (tokenMap !! i) as [token |] eqn:Htok.
  - rewrite filter_cons_True by (rewrite Htok; by eexists).
    cbn [length]. lia.
  - rewrite filter_cons_False by (rewrite Htok; by intros [? ?]).
    lia.
Qed.

Lemma foldl_countInstrument verbose (instruments : list string) :
  ∀ p,
  let p' := foldl (countInstrument verbose conf tokenMap from to) p
              instruments in
  totalAPICalls p'
  = totalAPICalls p
    + Z.of_nat (length (flat_map (plannedFor conf tokenMap from to)
                          instruments)) ∧
  validInstruments p'
  = validInstruments p + Z.of_nat (length (known tokenMap instruments)) ∧
  invalidInstruments p'
  = invalidInstruments p
    ++ filter (λ symbol, tokenMap !! symbol = None) instruments.
Proof.
  unfold known. induction instruments as [| i l IH]; intros p.
  - cbn. rewrite app_nil_r. repeat split; lia.
  - cbn [foldl flat_map].
    destruct (IH (countInstrument verbose conf tokenMap from to p i))
      as (Ht & Hv & Hi).
    cbn zeta in Ht, Hv, Hi |- *. rewrite Ht, Hv, Hi. clear Ht Hv Hi IH.
    rewrite length_app, plannedFor_length. unfold countInstrument.
    destruct (tokenMap !! i) as [token |] eqn:Htok; cbn [totalAPICalls
      validInstruments invalidInstruments].
    + rewrite filter_cons_True by (rewrite Htok; by eexists).
      rewrite filter_cons_False by (rewrite Htok; done).
      cbn [length]. repeat split; lia.
    + rewrite filter_cons_False by (rewrite Htok; by intros [? ?]).
      rewrite filter_cons_True by (rewrite Htok; done).
      rewrite <- app_assoc. cbn [length app]. repeat split; lia.
Qed.

Lemma calculateAPICalls_fields verbose :
  let p := calculateAPICalls verbose conf tokenMap from to in
  totalAPICalls p = Z.of_nat (length (planned conf tokenMap from to)) ∧
  validInstruments p
  = Z.of_nat (length (known tokenMap (Instruments conf))) ∧
  invalidInstruments p
  = filter (λ symbol, tokenMap !! symbol = None) (Instruments conf).
Proof.
  unfold calculateAPICalls, planned.
  match goal with
  | |- context [foldl ?f ?p0 ?l] =>
      destruct (foldl_countInstrument verbose l p0) as (Ht & Hv & Hi)
  end.
  cbn zeta in *.
  destruct (_ && negb verbose);
    cbn [totalAPICalls validInstruments invalidInstruments] in *;
    rewrite Ht, Hv, Hi; cbn; repeat split; lia.
Qed.

Lemma known_and_unknown (instruments : list string) :
  (length (known tokenMap instruments)
   + length (filter (λ symbol, tokenMap !! symbol = None) instruments)
   = length instruments)%nat.
Proof.
  unfold known. induction instruments as [| i l IH]; [done |].
  destruct (tokenMap !! i) as [token |] eqn:Htok.
  - rewrite filter_cons_True by (rewrite Htok; by eexists).
    rewrite filter_cons_False by (rewrite Htok; done).
    cbn [length]. lia.
  - rewrite filter_cons_False by (rewrite Htok; by intros [? ?]).
    rewrite filter_cons_True by (rewrite Htok; done).
    cbn [length]. lia.
Qed.

(** X15.  The plan counts what the loop will do: the number of API
    calls is the number of fetches that the loop makes, which is the
    number of chunks for each instrument that has a token; the valid
    instruments are those with a token and the invalid ones the others,
    in the order of the configuration, so the two make up the whole
    list. *)
Theorem calculateAPICalls_counts verbose :
  let p := calculateAPICalls verbose conf tokenMap from to in
  totalAPICalls p = Z.of_nat (length (planned conf tokenMap from to)) ∧
  totalAPICalls p
  = validInstruments p
    * Z.of_nat (length (Kite.GenerateDateChunks from to (Interval conf))) ∧
  validInstruments p
  = Z.of_nat (length (known tokenMap (Instruments conf))) ∧
  invalidInstruments p
  = filter (λ symbol, tokenMap !! symbol = None) (Instruments conf) ∧
  validInstruments p + Z.of_nat (length (invalidInstruments p))
  = Z.of_nat (length (Instruments conf)).
Proof.
  destruct (calculateAPICalls_fields verbose) as (Ht & Hv & Hi).
  cbn zeta in *. rewrite Ht, Hv, Hi.
  split; [done |]. split; [unfold planned; rewrite planned_length; lia |].
  split; [done |]. split; [done |].
  pose proof (known_and_unknown (Instruments conf)). lia.
Qed.

(** *** What a run adds up *)

Lemma insertedBy_app made1 made2 :
  insertedBy (made1 ++ made2) = insertedBy made1 + insertedBy made2.
Proof.
  unfold insertedBy. induction made1 as [| c l IH]; [done |].
  cbn [app foldr]. rewrite IH.
  destruct c as [| ? ? [? [|]]]; lia.
Qed.

Lemma paced_refl w : paced w w 0.
Proof. unfold paced. repeat split; lia. Qed.

Lemma paced_trans w1 w2 w3 n m :
  0 <= Second / Rate.limit (Kite.limiter w1) →
  paced w1 w2 n → paced w2 w3 m → paced w1 w3 (n + m).
Proof.
  unfold paced. intros Hpos (Hl1 & Hb1 & Hr1 & Hc1) (Hl2 & Hb2 & Hr2 & Hc2).
  rewrite Hl1 in *.
  set (interval := Second / Rate.limit (Kite.limiter w1)) in *.
  split; [congruence |]. split; [congruence |].
  split; [rewrite Hr2, Hr1; lia |].
  destruct m as [| m'].
  - rewrite Nat.add_0_r. destruct n as [| n']; [lia |].
    unfold Kite.ready in *. lia.
  - replace (n + S m')%nat with (S (n + m')) by lia.
    rewrite Hr1 in Hc2. nia.
Qed.

Lemma GetHistoricalData_paced w instrumentToken interval chunkFrom chunkTo :
  1 <= Rate.burst (Kite.limiter w) →
  0 <= Second / Rate.limit (Kite.limiter w) →
  paced w
    (Kite.GetHistoricalData w instrumentToken interval chunkFrom chunkTo).2
    1.
Proof.
  intros Hburst Hpos. unfold Kite.GetHistoricalData.
  rewrite Wait_Background by done.
  destruct (Kite.respond _ _ _ _ _ _); unfold paced, Kite.ready; cbn; lia.
Qed.

Lemma kite_logf v e r : kite (logf v e r) = kite r.
Proof. by destruct v. Qed.

Lemma kite_printfIf v p r : kite (printfIf v p r) = kite r.
Proof. by destruct v. Qed.

Lemma kite_progress processed total r :
  kite (progress processed total r) = kite r.
Proof. unfold progress. by destruct (_ || _). Qed.

Lemma history_printfIf v p r : history (printfIf v p r) = history r.
Proof. by destruct v. Qed.

Lemma history_progress processed total r :
  history (progress processed total r) = history r.
Proof. unfold progress. by destruct (_ || _). Qed.

Lemma accounted_same r r' :
  history r' = history r → kite r' = kite r → accounted r r' [] 0 0.
Proof.
  intros Hh Hk. unfold accounted. rewrite Hh, Hk, app_nil_r.
  split; [done |]. split; [done |]. split; [done |].
  intros _ _. apply paced_refl.
Qed.

Lemma accounted_trans r1 r2 r3 made1 made2 i1 i2 f1 f2 :
  accounted r1 r2 made1 i1 f1 → accounted r2 r3 made2 i2 f2 →
  accounted r1 r3 (made1 ++ made2) (i1 + i2) (f1 + f2).
Proof.
  intros (Hh1 & Hi1 & Hf1 & Hp1) (Hh2 & Hi2 & Hf2 & Hp2).
  unfold accounted.
  split; [by rewrite Hh2, Hh1, app_assoc |].
  split; [by rewrite insertedBy_app, Hi1, Hi2 |].
  split; [by rewrite omap_app, length_app, Hf1, Hf2 |].
  intros Hburst Hpos. specialize (Hp1 Hburst Hpos).
  pose proof Hp1 as (Hl & Hb & _).
  apply (paced_trans _ (kite r2)); [done | done |].
  apply Hp2; [by rewrite Hb | by rewrite Hl].
Qed.

Ltac run_fields :=
  repeat (progress (rewrite ?kite_printfIf, ?kite_logf, ?history_printfIf,
                      ?history_logf; cbn [kite history fst snd])).

Lemma fetchChunk_accounted verbose sym token chunks r totalInserted idx
    chunk :
  let st := fetchChunk verbose conf store sym token chunks
              (r, totalInserted) (idx, chunk) in
  ∃ made, accounted r st.1 made (st.2 - totalInserted) 1.
Proof.
  pose proof (GetHistoricalData_paced (kite r) token (Interval conf)
                chunk.1 chunk.2) as Hpace.
  unfold fetchChunk, callFetch, callStore. rewrite kite_logf.
  destruct (Kite.GetHistoricalData _ _ _ _ _) as [[err | candles] k].
  - exists [Fetch sym token chunk (inl err)]. cbn [fst snd] in *.
    unfold accounted. run_fields.
    split; [done |]. split; [cbn; lia |]. split; done.
  - destruct (Z.of_nat (length candles) =? 0).
    + exists [Fetch sym token chunk (inr candles)]. cbn [fst snd] in *.
      unfold accounted. run_fields.
      split; [done |]. split; [cbn; lia |]. split; done.
    + destruct (Storage.StoreCandles _ _ _ _) as [[inserted [e |]] d] eqn:Hd.
      * exists [Fetch sym token chunk (inr candles);
                Store sym candles (inserted, Some e)].
        cbn [fst snd] in *. unfold accounted. run_fields.
        rewrite <- app_assoc.
        split; [done |]. split; [cbn; lia |]. split; done.
      * exists [Fetch sym token chunk (inr candles);
                Store sym candles (inserted, None)].
        cbn [fst snd] in *. unfold accounted. run_fields.
        rewrite <- app_assoc.
        split; [done |]. split; [cbn; lia |]. split; done.
Qed.

Lemma foldl_fetchChunk_accounted verbose sym token chunks
    (l : list (nat * Kite.Chunk)) :
  ∀ r totalInserted,
  let st := foldl (fetchChunk verbose conf store sym token chunks)
              (r, totalInserted) l in
  ∃ made, accounted r st.1 made (st.2 - totalInserted) (length l).
Proof.
  induction l as [| [idx chunk] l IH]; intros r totalInserted.
  - exists []. cbn. rewrite Z.sub_diag. by apply accounted_same.
  - cbn [foldl length].
    destruct (fetchChunk_accounted verbose sym token chunks r totalInserted
                idx chunk) as (made1 & Hacc1).
    destruct (fetchChunk verbose conf store sym token chunks
                (r, totalInserted) (idx, chunk)) as [r1 t1].
    destruct (IH r1 t1) as (made2 & Hacc2).
    exists (made1 ++ made2). cbn zeta in *. cbn [fst snd] in *.
    pose proof (accounted_trans _ _ _ _ _ _ _ _ _ Hacc1 Hacc2) as Hacc.
    replace (_ - totalInserted) with
      (t1 - totalInserted
       + ((foldl (fetchChunk verbose conf store sym token chunks)
             (r1, t1) l).2 - t1)) by lia.
    exact Hacc.
Qed.

Lemma indexed_length {A} (l : list A) : length (indexed l) = length l.
Proof.
  unfold indexed. rewrite length_zip_with, length_seq. lia.
Qed.

Lemma fetchInstrument_accounted verbose r processed total i sym :
  let st := fetchInstrument verbose conf tokenMap store from to
              (r, processed, total) (i, sym) in
  st.1.2 = processed + Z.of_nat (length (known tokenMap [sym])) ∧
  ∃ made,
    accounted r st.1.1 made (st.2 - total)
      (length (plannedFor conf tokenMap from to sym)).
Proof.
  unfold fetchInstrument, known. rewrite plannedFor_length.
  destruct (tokenMap !! sym) as [token |] eqn:Htok.
  - rewrite filter_cons_True by (rewrite Htok; by eexists).
    set (chunks := Kite.GenerateDateChunks from to (Interval conf)).
    match goal with
    | |- context [foldl ?f (?r1, 0) (indexed chunks)] =>
        set (start := r1);
        destruct (foldl_fetchChunk_accounted verbose sym token
                    (Z.of_nat (length chunks)) (indexed chunks) start 0)
          as (made & Hacc);
        destruct (foldl f (start, 0) (indexed chunks)) as [r2 totalInserted]
    end.
    cbn zeta in *. cbn [fst snd length] in *. rewrite filter_nil.
    split; [cbn [length]; lia |].
    exists made. rewrite indexed_length in Hacc.
    assert (Hstart : accounted r start [] 0 0).
    { subst start. apply accounted_same; destruct verbose;
        rewrite ?history_logf, ?kite_logf, ?history_progress,
          ?kite_progress; done. }
    assert (Hend : accounted r2
                     (printfIf verbose (Saved totalInserted sym)
                        (logf verbose
                           (Storage.LogTotalInserted sym totalInserted) r2))
                     [] 0 0).
    { apply accounted_same; by run_fields. }
    pose proof (accounted_trans _ _ _ _ _ _ _ _ _
                  (accounted_trans _ _ _ _ _ _ _ _ _ Hstart Hacc) Hend)
      as Hall.
    rewrite app_nil_r, Nat.add_0_r in Hall. cbn [app] in Hall.
    replace (total + totalInserted - total) with (0 + (totalInserted - 0) + 0)
      by lia.
    exact Hall.
  - rewrite filter_cons_False by (rewrite Htok; by intros [? ?]).
    cbn [fst snd]. rewrite filter_nil. split; [cbn [length]; lia |].
    exists []. rewrite Z.sub_diag. by apply accounted_same.
Qed.

Lemma known_app instruments1 instruments2 :
  known tokenMap (instruments1 ++ instruments2)
  = known tokenMap instruments1 ++ known tokenMap instruments2.
Proof. apply filter_app. Qed.

Lemma foldl_fetchInstrument_accounted verbose (l : list (nat * string)) :
  ∀ r processed total,
  let st := foldl (fetchInstrument verbose conf tokenMap store from to)
              (r, processed, total) l in
  st.1.2 = processed + Z.of_nat (length (known tokenMap (l.*2))) ∧
  ∃ made,
    accounted r st.1.1 made (st.2 - total)
      (length (flat_map (plannedFor conf tokenMap from to) (l.*2))).
Proof.
  induction l as [| [i sym] l IH]; intros r processed total.
  - cbn. split; [lia |]. exists []. rewrite Z.sub_diag.
    by apply accounted_same.
  - cbn [foldl fmap list_fmap flat_map snd].
    destruct (fetchInstrument_accounted verbose r processed total i sym)
      as (Hp1 & made1 & Hacc1).
    destruct (fetchInstrument verbose conf tokenMap store from to
                (r, processed, total) (i, sym)) as [[r1 p1] t1].
    destruct (IH r1 p1 t1) as (Hp2 & made2 & Hacc2).
    cbn zeta in *. cbn [fst snd] in *.
    split.
    + rewrite Hp2, Hp1. change (sym :: l.*2) with ([sym] ++ l.*2).
      rewrite known_app, length_app. lia.
    + exists (made1 ++ made2). rewrite length_app.
      pose proof (accounted_trans _ _ _ _ _ _ _ _ _ Hacc1 Hacc2) as Hacc.
      replace (_ - total) with
        (t1 - total
         + ((foldl (fetchInstrument verbose conf tokenMap store from to)
               (r1, p1, t1) l).2 - t1)) by lia.
      exact Hacc.
Qed.

(** X16.  The last line of a run reports what the run did: the candles
    are the sum of the counts that [StoreCandles] returned without an
    error, over all the calls of the run, and the instruments are those
    with a token, which is the number of valid instruments of the plan.
    The run makes as many fetches as the plan has API calls. *)
Theorem runFetchingLoop_report verbose (r : Run) :
  let r' := runFetchingLoop verbose conf tokenMap store from to r in
  let p := calculateAPICalls verbose conf tokenMap from to in
  ∃ made,
    history r' = history r ++ made ∧
    Z.of_nat (length (omap fetchOf made)) = totalAPICalls p ∧
    last (console r')
    = Some (Completed (insertedBy made) (validInstruments p)).
Proof.
  destruct (calculateAPICalls_fields verbose) as (Ht & Hv & _).
  cbn zeta in *. rewrite Ht, Hv. unfold runFetchingLoop, planned.
  destruct (foldl_fetchInstrument_accounted verbose
              (indexed (Instruments conf)) r 0 0)
    as (Hp & made & Hh & Hi & Hf & _).
  rewrite indexed_snd in Hp, Hf.
  destruct (foldl _ _ _) as [[r1 processed] total].
  cbn [fst snd] in *. exists made. unfold printf. cbn [history console].
  split; [done |]. split; [by rewrite Hf |].
  rewrite last_snoc. do 2 f_equal; lia.
Qed.

(** X17.  The limiter paces a run: on a client whose limiter lets one
    event through and has a rate, a run that makes [n] fetches, [n] at
    least one, ends no earlier than [n - 1] token intervals after the
    instant at which the first fetch got its token, whatever the
    fetches returned. *)
Theorem runFetchingLoop_pace verbose (r : Run) :
  1 <= Rate.burst (Kite.limiter (kite r)) →
  0 < Rate.limit (Kite.limiter (kite r)) →
  planned conf tokenMap from to ≠ [] →
  let r' := runFetchingLoop verbose conf tokenMap store from to r in
  let n := Z.of_nat (length (planned conf tokenMap from to)) in
  Kite.ready (kite r)
  + (n - 1) * (Second / Rate.limit (Kite.limiter (kite r)))
  <= Kite.clock (kite r').
Proof.
  intros Hburst Hlimit Hplanned. cbn zeta.
  unfold runFetchingLoop, planned in *.
  destruct (foldl_fetchInstrument_accounted verbose
              (indexed (Instruments conf)) r 0 0)
    as (_ & made & _ & _ & _ & Hpace).
  rewrite indexed_snd in Hpace.
  destruct (foldl _ _ _) as [[r1 processed] total].
  cbn [fst snd] in *. unfold printf. cbn [kite].
  assert (0 <= Second / Rate.limit (Kite.limiter (kite r))) as Hpos.
  { apply Z.div_pos; [done | lia]. }
  destruct (Hpace Hburst Hpos) as (_ & _ & _ & Hclock).
  destruct (length _) as [| k] eqn:Hlen.
  - by apply nil_length_inv in Hlen.
  - replace (Z.of_nat (S k) - 1) with (Z.of_nat k) by lia. exact Hclock.
Qed.

End PlanFacts.

Lemma runFetchingLoop_pace_witness :
  let r := Samples.sampleRun in
  let r' := Cli.runFetchingLoop false Samples.sampleConfig
              Samples.sampleTokens (Storage.CSVStore "data")
              (GoTime.ParseDate 2024 1 1) (GoTime.ParseDate 2024 4 1) r in
  let n := Z.of_nat (length (Cli.planned Samples.sampleConfig
                               Samples.sampleTokens
                               (GoTime.ParseDate 2024 1 1)
                               (GoTime.ParseDate 2024 4 1))) in
  Kite.ready (Cli.kite r)
  + (n - 1) * (GoTime.Second / Rate.limit (Kite.limiter (Cli.kite r)))
  <= Kite.clock (Cli.kite r').
Proof.
  apply (runFetchingLoop_pace Samples.sampleConfig (Storage.CSVStore "data")
           Samples.sampleTokens (GoTime.ParseDate 2024 1 1)
           (GoTime.ParseDate 2024 4 1) false Samples.sampleRun).
  - cbn. lia.
  - cbn. lia.
  - vm_compute. discriminate.
Defined.

(** ** The two commands and the first version of the program *)

Section CommandsAgree.
Import GoTime.

Lemma validCount_known (instruments : list string)
    (tokenMap : gmap string Z) : ∀ start,
  foldl (λ validCount symbol,
           match tokenMap !! symbol with
           | Some _ => validCount + 1
           | None => validCount
           end) start instruments
  = start + Z.of_nat (length (Fetch.known tokenMap instruments)).
Proof.
  unfold Fetch.known.
  induction instruments as [| i l IH]; intros start; [cbn; lia |].
  cbn [foldl]. rewrite IH.
  destruct (tokenMap !! i) as [token |] eqn:Htok.
  - rewrite filter_cons_True by (rewrite Htok; by eexists).
    cbn [length]. lia.
  - rewrite filter_cons_False by (rewrite Htok; by intros [? ?]). done.
Qed.

(** X18.  The numbers of the [validate] command and those of the plan
    of [fetch]: the valid symbols that [testInstruments] counts are the
    valid instruments of the plan, and the API calls that
    [showExecutionEstimate] announces are never fewer than those of the
    plan, and as many when every instrument of the configuration has a
    token. *)
Theorem validate_numbers_and_plan (c : Config.Config)
    (tokenMap : gmap string Z) (verbose : bool) :
  let p := Fetch.calculateAPICalls verbose (Fetch.loopConfig c) tokenMap
             (TimeParse.parseOrZero (Config.FromDate c))
             (TimeParse.parseOrZero (Config.ToDate c)) in
  Validate.validCount (Config.Instruments c) tokenMap
  = Fetch.validInstruments p ∧
  Fetch.totalAPICalls p <= Validate.estimatedAPICalls c ∧
  (Fetch.invalidInstruments p = [] →
   Fetch.totalAPICalls p = Validate.estimatedAPICalls c).
Proof.
  destruct (calculateAPICalls_fields (Fetch.loopConfig c) tokenMap
              (TimeParse.parseOrZero (Config.FromDate c))
              (TimeParse.parseOrZero (Config.ToDate c)) verbose)
    as (Htotal & Hvalid & Hinvalid).
  pose proof (known_and_unknown tokenMap (Config.Instruments c)) as Hsum.
  cbn zeta in *. unfold Cli.planned in Htotal.
  rewrite planned_length in Htotal.
  cbn [Fetch.loopConfig Cli.Instruments Cli.Interval] in *.
  unfold Validate.validCount, Validate.estimatedAPICalls.
  rewrite validCount_known, Htotal, Hvalid, Hinvalid.
  split; [lia |]. split.
  - nia.
  - intros Hnone. rewrite Hnone in Hsum. cbn [length] in Hsum. nia.
Qed.

Lemma Legacy_parseIntervalMinutes interval :
  Legacy.parseIntervalMinutes interval = Kite.parseIntervalMinutes interval.
Proof.
  unfold Legacy.parseIntervalMinutes, Kite.parseIntervalMinutes.
  destruct (String.eqb_spec interval "minute") as [-> | H1]; [done |].
  destruct (String.eqb_spec interval "3minute") as [-> | H2]; [done |].
  destruct (String.eqb_spec interval "5minute") as [-> | H3]; [done |].
  destruct (String.eqb_spec interval "10minute") as [-> | H4]; [done |].
  destruct (String.eqb_spec interval "15minute") as [-> | H5]; [done |].
  destruct (String.eqb_spec interval "30minute") as [-> | H6]; [done |].
  destruct (String.eqb_spec interval "60minute") as [-> | H7]; [done |].
  destruct (String.eqb_spec interval "hour") as [-> | H8]; [done |].
  destruct (String.eqb_spec interval "day") as [-> | H9]; [done |].
  cbn [orb].
  assert (Kite.intervalMap !! interval = None) as ->; [| done].
  apply not_elem_of_list_to_map_1. cbn.
  rewrite !not_elem_of_cons. repeat split; try done. apply not_elem_of_nil.
Qed.

Lemma Legacy_chunkLoop chunkSize to : ∀ fuel chunks currentStart,
  Legacy.chunkLoop fuel chunkSize to chunks currentStart
  = Kite.chunkLoop fuel chunkSize to chunks currentStart.
Proof.
  induction fuel as [| fuel IH]; intros chunks currentStart; cbn;
    destruct (Before currentStart to); try done.
Qed.

(** X19.  The chunker of the first version of the program, in
    [main.go], and that of the package [kite] are the same function:
    the [switch] of the one and the map of the other give the same
    minutes for every interval, the token that neither knows included,
    and the chunks are the same for every range and interval. *)
Theorem Legacy_generateDateChunks (from to : Time) (interval : string) :
  Legacy.parseIntervalMinutes interval = Kite.parseIntervalMinutes interval ∧
  Legacy.generateDateChunks from to interval
  = Kite.GenerateDateChunks from to interval.
Proof.
  split; [apply Legacy_parseIntervalMinutes |].
  unfold Legacy.generateDateChunks, Kite.GenerateDateChunks,
    Kite.chunkSizeOf, Kite.IsDailyOrLarger.
  rewrite Legacy_parseIntervalMinutes.
  change Legacy.DAILY_CHUNK_DAYS with Kite.DailyChunkDays.
  change Legacy.INTRADAY_MAX_DAYS with Kite.IntradayMaxDays.
  by rewrite Legacy_chunkLoop.
Qed.

Lemma Legacy_parseIntervalMinutes_values interval :
  Legacy.parseIntervalMinutes interval ∈ [1; 3; 5; 10; 15; 30; 60; 1440].
Proof.
  unfold Legacy.parseIntervalMinutes.
  repeat match goal with
         | |- context [if ?b then _ else _] => destruct b
         end;
    rewrite !elem_of_cons; tauto.
Qed.

Lemma Prototype_chunkSizeOf interval :
  ∃ days, 0 < days ∧
    Prototype.chunkSizeOf interval = days * Kite.Day ∧
    (days * 1440) `div` Legacy.parseIntervalMinutes interval <= 10000.
Proof.
  unfold Prototype.chunkSizeOf.
  pose proof (Legacy_parseIntervalMinutes_values interval) as Hv.
  rewrite !elem_of_cons, elem_of_nil in Hv.
  destruct Hv as [-> | [-> | [-> | [-> | [-> | [-> | [-> | [-> | []]]]]]]]].
  - by exists 6.
  - by exists 20.
  - by exists 34.
  - by exists 69.
  - by exists 104.
  - by exists 208.
  - by exists 416.
  - by exists 365.
Qed.

(** X20.  The chunker of the program kept in [logger.go] sizes its
    windows by the candles they hold: a window is a whole number of
    days in which, at the interval asked for, there are at most ten
    thousand candles.  Over calendar dates less than 86400 windows
    apart its chunks cover the range exactly, as those of the later
    chunkers do. *)
Theorem Prototype_generateDateChunks (from to : Time) (interval : string) :
  from `mod` Kite.Day = 0 → to `mod` Kite.Day = 0 →
  from < to →
  to - from < 86400 * (Prototype.chunkSizeOf interval + Second) →
  Prototype.chunkSizeOf interval
    `div` (Legacy.parseIntervalMinutes interval * Minute) <= 10000 ∧
  Kite.exactCover (Prototype.chunkSizeOf interval) to from
    (Prototype.generateDateChunks from to interval) = true.
Proof.
  intros Hfrom Hto Hlt Hspan.
  destruct (Prototype_chunkSizeOf interval) as (days & Hdays & Hsize & Hcap).
  assert (Hday : Kite.Day = 86400000000000) by reflexivity.
  assert (Hminute : Minute = 60000000000) by reflexivity.
  pose proof (Legacy_parseIntervalMinutes_values interval) as Hv.
  split.
  - rewrite Hsize, Hday, Hminute.
    rewrite !elem_of_cons, elem_of_nil in Hv.
    assert (0 < Legacy.parseIntervalMinutes interval) as Hpos
      by (repeat destruct Hv as [-> | Hv]; done).
    replace (days * 86400000000000) with (days * 1440 * 60000000000) by lia.
    rewrite Z.div_mul_cancel_r by lia. done.
  - unfold Prototype.generateDateChunks. cbn zeta.
    rewrite Legacy_chunkLoop.
    destruct (chunkLoop_terminates (Prototype.chunkSizeOf interval) to
                (Kite.iterations from to (Prototype.chunkSizeOf interval))
                [] from) as [chunks Hloop]; [lia | done |].
    unfold Kite.Chunk in *. rewrite Hloop. cbn [default].
    eapply chunkLoop_exactCover; [lia | done | | exact Hloop].
    rewrite Hsize in *. by apply calendar_dates_remainder.
Qed.

Lemma Prototype_generateDateChunks_witness :
  Prototype.chunkSizeOf "5minute"
    `div` (Legacy.parseIntervalMinutes "5minute" * Minute) <= 10000 ∧
  Kite.exactCover (Prototype.chunkSizeOf "5minute")
    (ParseDate 2024 4 1) (ParseDate 2024 1 1)
    (Prototype.generateDateChunks (ParseDate 2024 1 1) (ParseDate 2024 4 1)
       "5minute") = true.
Proof.
  apply (Prototype_generateDateChunks (ParseDate 2024 1 1)
           (ParseDate 2024 4 1) "5minute"); reflexivity.
Defined.

Lemma errorText_not_empty (e : Config.ValidationError) :
  Config.errorText e ≠ "".
Proof.
  unfold Config.errorText.
  destruct (negb _); destruct (Config.Field e); discriminate.
Qed.

Lemma Join_not_empty (elems : list string) (sep : string) :
  elems ≠ [] → Forall (λ s, s ≠ "") elems → Strings.Join elems sep ≠ "".
Proof.
  unfold Strings.Join. intros Hne Hall.
  destruct Hall as [| x l Hx Hl]; [done |].
  cbn [String.concat]. destruct x; [done |].
  destruct l; discriminate.
Qed.

(** X21.  The text of a validation result is empty exactly when the
    result holds no error: every error has a text, and joining them
    loses none. *)
Theorem ValidationResult_Error_empty (r : Config.ValidationResult) :
  Config.Error r = "" ↔ Config.HasErrors r = false.
Proof.
  unfold Config.Error.
  destruct (Config.HasErrors r) eqn:Hhas; cbn [negb]; [| done].
  split; [| done]. intros Hempty. exfalso.
  revert Hempty. apply Join_not_empty.
  - destruct r; [done | discriminate].
  - apply Forall_fmap, Forall_forall. intros e _.
    apply errorText_not_empty.
Qed.

End CommandsAgree.
